(** * Agent dispatch and scheduling: load_balancer.py and scheduler.py

    A shallow embedding of [LoadBalancer] (src/load_balancer.py) and
    [TaskScheduler] (src/scheduler.py).  Python objects that are mutated in
    place (instances held in a pool, task dictionaries held in [self.tasks])
    are modelled by their position in the owning container, so that an update
    through an alias is an update of the container.  Exceptions are explicit
    outcomes; an operation that raises still returns the state it has already
    mutated. *)

From Stdlib Require Import ZArith QArith List Lia String Ascii.
From Stdlib Require Import DecimalString DecimalNat Sorted.
From stdpp Require Import base option list strings gmap.

Local Open Scope string_scope.
Local Open Scope list_scope.
Local Open Scope Z_scope.

(** ** Python helpers *)

(** [str(n)] for a non-negative integer, as used inside f-strings. *)
Definition string_of_nat (n : nat) : string :=
  NilZero.string_of_uint (Nat.to_uint n).

(** A [dict] that keeps insertion order: association list with unique keys. *)
Fixpoint alookup {V : Type} (k : string) (l : list (string * V)) : option V :=
  match l with
  | [] => None
  | (k', v) :: r => if String.eqb k k' then Some v else alookup k r
  end.

Fixpoint aset {V : Type} (k : string) (v : V) (l : list (string * V))
  : list (string * V) :=
  match l with
  | [] => [(k, v)]
  | (k', v') :: r =>
      if String.eqb k k' then (k, v) :: r else (k', v') :: aset k v r
  end.

(** [min(l, key=...)]: the first element whose key is minimal; a later element
    replaces the current best only when its key is strictly smaller. *)
Fixpoint min_from {A K : Type} (lt : K → K → bool) (key : A → K)
  (best : A) (l : list A) : A :=
  match l with
  | [] => best
  | x :: r => min_from lt key (if lt (key x) (key best) then x else best) r
  end.

Definition py_min {A K : Type} (lt : K → K → bool) (key : A → K)
  (l : list A) : option A :=
  match l with
  | [] => None
  | x :: r => Some (min_from lt key x r)
  end.

(** [sorted(l, key=...)] on integer keys: a stable sort. *)
Fixpoint insert_sorted {A : Type} (key : A → Z) (x : A) (l : list A) : list A :=
  match l with
  | [] => [x]
  | y :: r => if key x <=? key y then x :: y :: r else y :: insert_sorted key x r
  end.

Fixpoint py_sorted {A : Type} (key : A → Z) (l : list A) : list A :=
  match l with
  | [] => []
  | x :: r => insert_sorted key x (py_sorted key r)
  end.

(** Exceptions that the modelled code can raise. *)
Inductive exn : Type :=
| ZeroDivisionError
| IndexError
| ValueError
| AgentFactoryError.

Inductive outcome (A : Type) : Type :=
| Ok (a : A)
| Raise (e : exn).
Arguments Ok {A} a.
Arguments Raise {A} e.

(** The float operations the load balancer uses.  Nothing is assumed about
    them: every statement below holds for any interpretation. *)
Class FloatOps (float : Type) : Type := {
  f_of_Z : Z → float;                 (* int -> float conversion, literals *)
  f_0_7 : float;                      (* the literal 0.7 *)
  f_0_3 : float;                      (* the literal 0.3 *)
  f_mul : float → float → float;
  f_div : float → float → float;
  f_truediv : Z → Z → float;          (* int / int *)
  f_lt : float → float → bool
}.

(** ** load_balancer.py

    Every method body runs under [self.lock], so a method is one step of the
    model; the health-checker thread is its two actions, [health_check_pass]
    and [auto_scale], taken between calls.  The argument [now] of an
    operation stands for the readings of [time.time()] made during the call;
    they only end up in [created_at] and [last_used]. *)
Module LB.
Section LoadBalancer.

Context {Agent float : Type} `{FloatOps float}.

(** [AgentFactory.get_agent]: the module agent_factory is not part of the
    sources; [None] stands for a call that raises. *)
Variable factory_get_agent : string → option Agent.

Inductive LoadBalancingAlgorithm : Type :=
| ROUND_ROBIN
| LEAST_CONNECTIONS
| WEIGHTED_ROUND_ROBIN
| RESPONSE_TIME.

Record AgentInstance : Type := mkAgentInstance {
  agent_id : string;
  agent_type : string;
  agent : Agent;
  weight : Z;
  active_connections : Z;
  total_requests : Z;
  total_response_time : float;
  last_used : float;
  health_status : string;
  created_at : float
}.

Record LoadBalancer : Type := mkLoadBalancer {
  algorithm : LoadBalancingAlgorithm;
  agent_pools : list (string * list AgentInstance);
  round_robin_counters : gmap string Z;
  agent_weights : gmap string Z
}.

Definition max_connections_per_agent : Z := 10.
Definition max_response_time : float := f_of_Z 30.

(** *** State and exception monad *)

Definition M (A : Type) : Type := LoadBalancer → outcome A * LoadBalancer.

Definition ret {A : Type} (a : A) : M A := λ s, (Ok a, s).
Definition raise {A : Type} (e : exn) : M A := λ s, (Raise e, s).
Definition bind {A B : Type} (m : M A) (k : A → M B) : M B :=
  λ s, match m s with
       | (Ok a, s') => k a s'
       | (Raise e, s') => (Raise e, s')
       end.
Definition get_state : M LoadBalancer := λ s, (Ok s, s).
Definition modify (f : LoadBalancer → LoadBalancer) : M unit :=
  λ s, (Ok tt, f s).

Notation "'do' x <- m ; k" := (bind m (λ x, k))
  (at level 10, x name, m at level 100, k at level 200).
Notation "'do_' m ; k" := (bind m (λ _, k))
  (at level 10, m at level 100, k at level 200).

(** [for _ in range(n): body] *)
Fixpoint repeatM (n : nat) (body : M unit) : M unit :=
  match n with
  | O => ret tt
  | S n' => do_ body; repeatM n' body
  end.

(** [for x in l: body(x)] *)
Fixpoint forM {A : Type} (l : list A) (body : A → M unit) : M unit :=
  match l with
  | [] => ret tt
  | x :: r => do_ body x; forM r body
  end.

(** *** Field updates *)

Definition pool_of (t : string) (s : LoadBalancer) : list AgentInstance :=
  default [] (alookup t (agent_pools s)).

Definition counter_of (t : string) (s : LoadBalancer) : Z :=
  default 0 (round_robin_counters s !! t).

Definition set_pool (t : string) (p : list AgentInstance) (s : LoadBalancer)
  : LoadBalancer :=
  mkLoadBalancer (algorithm s) (aset t p (agent_pools s))
    (round_robin_counters s) (agent_weights s).

Definition set_counter (t : string) (c : Z) (s : LoadBalancer) : LoadBalancer :=
  mkLoadBalancer (algorithm s) (agent_pools s)
    (<[t := c]> (round_robin_counters s)) (agent_weights s).

Definition with_weight (w : Z) (i : AgentInstance) : AgentInstance :=
  mkAgentInstance (agent_id i) (agent_type i) (agent i) w
    (active_connections i) (total_requests i) (total_response_time i)
    (last_used i) (health_status i) (created_at i).

Definition with_health (h : string) (i : AgentInstance) : AgentInstance :=
  mkAgentInstance (agent_id i) (agent_type i) (agent i) (weight i)
    (active_connections i) (total_requests i) (total_response_time i)
    (last_used i) h (created_at i).

(** Lines 117-119 of [get_agent]: the metric update on the selected
    instance. *)
Definition touch (now : float) (i : AgentInstance) : AgentInstance :=
  mkAgentInstance (agent_id i) (agent_type i) (agent i) (weight i)
    (active_connections i + 1) (total_requests i + 1)
    (total_response_time i) now (health_status i) (created_at i).

Definition is_healthy (i : AgentInstance) : bool :=
  String.eqb (health_status i) "healthy".

(** *** [_create_agent_instance]

    Returns the new instance together with its position in the pool.  The
    factory is called before the pool is touched, so a raising factory
    leaves the state as it was. *)
Definition new_instance (t : string) (a : Agent) (now : float)
  (s : LoadBalancer) : AgentInstance :=
  mkAgentInstance
    (t +:+ "_" +:+ string_of_nat (length (pool_of t s))) t a
    (default 1 (agent_weights s !! t))
    0 0 (f_of_Z 0) (f_of_Z 0) "healthy" now.

Definition _create_agent_instance (t : string) (now : float)
  : M (nat * AgentInstance) :=
  λ s,
    match factory_get_agent t with
    | None => (Raise AgentFactoryError, s)
    | Some a =>
        let instance := new_instance t a now s in
        (Ok (length (pool_of t s), instance),
         set_pool t (pool_of t s ++ [instance]) s)
    end.

(** *** Selection

    [instances] is the list comprehension of [get_agent]: references to the
    healthy members of the pool, here paired with their pool position. *)
Fixpoint healthy_from (i : nat) (pool : list AgentInstance)
  : list (nat * AgentInstance) :=
  match pool with
  | [] => []
  | x :: r =>
      if is_healthy x then (i, x) :: healthy_from (S i) r
      else healthy_from (S i) r
  end.

Definition _round_robin_select (instances : list (nat * AgentInstance))
  (t : string) : M (nat * AgentInstance) :=
  λ s,
    let counter := counter_of t s in
    let n := Z.of_nat (length instances) in
    if n =? 0 then (Raise ZeroDivisionError, s)
    else
      match instances !! Z.to_nat (counter mod n) with
      | None => (Raise IndexError, s)
      | Some selected => (Ok selected, set_counter t ((counter + 1) mod n) s)
      end.

Definition _least_connections_select (instances : list (nat * AgentInstance))
  : M (nat * AgentInstance) :=
  match py_min Z.ltb (λ x, active_connections x.2) instances with
  | None => raise ValueError
  | Some x => ret x
  end.

Definition total_weight (instances : list (nat * AgentInstance)) : Z :=
  foldr (λ x acc, weight x.2 + acc) 0 instances.

(** The [for] loop of [_weighted_round_robin_select]. *)
Fixpoint wrr_walk (target current_weight : Z)
  (instances : list (nat * AgentInstance)) : option (nat * AgentInstance) :=
  match instances with
  | [] => None
  | instance :: r =>
      let current_weight := current_weight + weight instance.2 in
      if target <? current_weight then Some instance
      else wrr_walk target current_weight r
  end.

Definition _weighted_round_robin_select
  (instances : list (nat * AgentInstance)) (t : string)
  : M (nat * AgentInstance) :=
  λ s,
    let total := total_weight instances in
    let counter := counter_of t s in
    if total =? 0 then (Raise ZeroDivisionError, s)
    else
      let target := counter mod total in
      match wrr_walk target 0 instances with
      | Some instance => (Ok instance, set_counter t (counter + 1) s)
      | None =>
          match instances with
          | [] => (Raise IndexError, s)
          | x :: _ => (Ok x, s)
          end
      end.

Definition avg_response_time (i : AgentInstance) : float :=
  if total_requests i =? 0 then f_of_Z 0
  else f_div (total_response_time i) (f_of_Z (total_requests i)).

Definition _response_time_select (instances : list (nat * AgentInstance))
  : M (nat * AgentInstance) :=
  match py_min f_lt (λ x, avg_response_time x.2) instances with
  | None => raise ValueError
  | Some x => ret x
  end.

(** The enum has four members, so the final [else] of the source is never
    taken. *)
Definition _select_instance (instances : list (nat * AgentInstance))
  (t : string) : M (nat * AgentInstance) :=
  λ s,
    match algorithm s with
    | ROUND_ROBIN => _round_robin_select instances t s
    | LEAST_CONNECTIONS => _least_connections_select instances s
    | WEIGHTED_ROUND_ROBIN => _weighted_round_robin_select instances t s
    | RESPONSE_TIME => _response_time_select instances s
    end.

(** *** [get_agent]

    [get_agent_instance] is the body of [get_agent] up to the metric update;
    it returns the pool position of [selected_instance] and the instance as
    it was when selected.  [get_agent] returns its [agent] attribute. *)
Definition get_agent_instance (t : string) (now : float)
  : M (nat * AgentInstance) :=
  do s0 <- get_state;
  do_ (match alookup t (agent_pools s0) with
       | Some (_ :: _) => ret tt
       | _ => do_ _create_agent_instance t now; ret tt
       end);
  do s1 <- get_state;
  do instances <- (match healthy_from 0 (pool_of t s1) with
                   | [] => do instance <- _create_agent_instance t now;
                           ret [instance]
                   | l => ret l
                   end);
  do selected <- _select_instance instances t;
  do_ modify (λ s, set_pool t (alter (touch now) selected.1 (pool_of t s)) s);
  ret selected.

Definition get_agent (t : string) (now : float) : M Agent :=
  do selected <- get_agent_instance t now;
  ret (agent selected.2).

(** *** Pool administration *)

Definition add_agent_instance (t : string) (w : Z) (now : float) : M string :=
  do created <- _create_agent_instance t now;
  do_ modify (λ s,
        set_pool t (alter (with_weight w) created.1 (pool_of t s)) s);
  ret (agent_id created.2).

(** [instances.pop(i)] at the first [i] whose instance has the given id. *)
Fixpoint remove_first_id (id : string) (l : list AgentInstance)
  : option (list AgentInstance) :=
  match l with
  | [] => None
  | x :: r =>
      if String.eqb (agent_id x) id then Some r
      else match remove_first_id id r with
           | Some r' => Some (x :: r')
           | None => None
           end
  end.

Definition remove_agent_instance (t id : string) : M bool :=
  λ s,
    match alookup t (agent_pools s) with
    | Some instances =>
        match remove_first_id id instances with
        | Some instances' => (Ok true, set_pool t instances' s)
        | None => (Ok false, s)
        end
    | None => (Ok false, s)
    end.

Definition scale_up (t : string) (instances_to_add : Z) (now : float) : M unit :=
  repeatM (Z.to_nat instances_to_add)
    (do_ add_agent_instance t 1 now; ret tt).

Definition scale_down (t : string) (instances_to_remove : Z) : M unit :=
  do s <- get_state;
  match alookup t (agent_pools s) with
  | None => ret tt
  | Some instances =>
      if Z.of_nat (length instances) <=? instances_to_remove then ret tt
      else
        let instances_sorted := py_sorted active_connections instances in
        forM (seq 0 (Z.to_nat instances_to_remove))
          (λ i, match instances_sorted !! i with
                | Some instance_to_remove =>
                    do_ remove_agent_instance t (agent_id instance_to_remove);
                    ret tt
                | None => ret tt
                end)
  end.

Definition total_connections (instances : list AgentInstance) : Z :=
  foldr (λ x acc, active_connections x + acc) 0 instances.

(** The body of the [for] loop of [auto_scale] for one key of the dict;
    [instances] is the live pool of that key. *)
Definition auto_scale_pool (now : float) (t : string) : M unit :=
  do s <- get_state;
  let instances := pool_of t s in
  match instances with
  | [] => ret tt
  | _ :: _ =>
      let avg_connections :=
        f_truediv (total_connections instances) (Z.of_nat (length instances)) in
      if f_lt (f_mul (f_of_Z max_connections_per_agent) f_0_7) avg_connections
      then
        if Z.of_nat (length instances) <? 5 then scale_up t 1 now else ret tt
      else if f_lt avg_connections
                (f_mul (f_of_Z max_connections_per_agent) f_0_3)
              && (1 <? Z.of_nat (length instances))
      then scale_down t 1
      else ret tt
  end.

Definition auto_scale (now : float) : M unit :=
  do s <- get_state;
  forM (map fst (agent_pools s)) (auto_scale_pool now).

Definition set_algorithm (a : LoadBalancingAlgorithm) : M unit :=
  modify (λ s, mkLoadBalancer a (agent_pools s) (round_robin_counters s)
                 (agent_weights s)).

Definition set_agent_weight (t : string) (w : Z) : M unit :=
  modify (λ s,
    mkLoadBalancer (algorithm s)
      (match alookup t (agent_pools s) with
       | Some instances => aset t (map (with_weight w) instances) (agent_pools s)
       | None => agent_pools s
       end)
      (round_robin_counters s)
      (<[t := w]> (agent_weights s))).

(** [_health_check_instance]; [probe] is the measured latency of the
    liveness probe, [None] when the probe raises. *)
Definition _health_check_instance (probe : option float) (i : AgentInstance)
  : AgentInstance :=
  match probe with
  | None => with_health "unhealthy" i
  | Some response_time =>
      let i1 := if f_lt max_response_time response_time
                then with_health "unhealthy" i
                else with_health "healthy" i in
      if max_connections_per_agent <? active_connections i1
      then with_health "overloaded" i1
      else i1
  end.

(** One pass of [_health_checker] over every instance of every pool. *)
Definition health_check_pass (probe : string → nat → option float) : M unit :=
  modify (λ s,
    mkLoadBalancer (algorithm s)
      (map (λ kv, (kv.1, imap (λ i x, _health_check_instance (probe kv.1 i) x)
                           kv.2))
         (agent_pools s))
      (round_robin_counters s) (agent_weights s)).

(** *** [__init__] *)

Definition empty_balancer (a : LoadBalancingAlgorithm) : LoadBalancer :=
  mkLoadBalancer a [] ∅
    (<["Dabby Consultant" := 3]>
       (<["Auditor Agent" := 2]> (<["Tax Agent" := 2]> ∅))).

Definition _initialize_agent_pools (now : float) : M unit :=
  forM ["Dabby Consultant"; "Auditor Agent"; "Tax Agent"]
    (λ t, repeatM (if String.eqb t "Dabby Consultant" then 2%nat else 1%nat)
            (do_ _create_agent_instance t now; ret tt)).

Definition new_LoadBalancer (a : LoadBalancingAlgorithm) (now : float)
  : outcome unit * LoadBalancer :=
  _initialize_agent_pools now (empty_balancer a).

(** What [get_agent] does once [_select_instance] has answered: the metric
    update on the selected instance, or the exception passed on. *)
Definition finish (t : string) (now : float)
  (r : outcome (nat * AgentInstance) * LoadBalancer)
  : outcome (nat * AgentInstance) * LoadBalancer :=
  match r with
  | (Ok selected, s') =>
      (Ok selected,
       set_pool t (alter (touch now) selected.1 (pool_of t s')) s')
  | (Raise e, s') => (Raise e, s')
  end.

(** *** The candidates seen through their positions and weights

    [get_agent] changes neither the health nor the weight of an instance, so
    the positions and weights of the healthy instances are what consecutive
    selections depend on. *)
Definition view (pool : list AgentInstance) : list (nat * Z) :=
  map (λ p, (p.1, weight p.2)) (healthy_from 0 pool).

Definition view_total (v : list (nat * Z)) : Z :=
  foldr (λ x acc, x.2 + acc) 0 v.

(** [wrr_walk] on positions and weights. *)
Fixpoint band_walk (target current_weight : Z) (v : list (nat * Z))
  : option nat :=
  match v with
  | [] => None
  | x :: r =>
      let current_weight := current_weight + x.2 in
      if target <? current_weight then Some x.1
      else band_walk target current_weight r
  end.

(** [k] consecutive [get_agent] calls for one type; the pool positions of the
    selected instances, in call order. *)
Fixpoint acquire_n (k : nat) (t : string) (now : float) : M (list nat) :=
  match k with
  | O => ret []
  | S k' =>
      do selected <- get_agent_instance t now;
      do rest <- acquire_n k' t now;
      ret (selected.1 :: rest)
  end.

(** The total weight [_weighted_round_robin_select] computes when
    [get_agent] is called for [t]: that of the healthy instances, or of the
    single fallback instance when there is none. *)
Definition candidate_weight (t : string) (s : LoadBalancer) : Z :=
  match healthy_from 0 (pool_of t s) with
  | [] => default 1 (agent_weights s !! t)
  | l => total_weight l
  end.

(** The number of instances [get_agent] selects from. *)
Definition candidate_count (t : string) (s : LoadBalancer) : Z :=
  match healthy_from 0 (pool_of t s) with
  | [] => 1
  | l => Z.of_nat (length l)
  end.

(** *** Specifications of monadic code

    [triple P m Q E]: run from a state satisfying [P], [m] either returns [a]
    in a state satisfying [Q a], or raises in a state satisfying [E]. *)
Definition triple {A : Type} (P : LoadBalancer → Prop) (m : M A)
  (Q : A → LoadBalancer → Prop) (E : LoadBalancer → Prop) : Prop :=
  ∀ s, P s →
       match m s with
       | (Ok a, s') => Q a s'
       | (Raise _, s') => E s'
       end.

(** The pool of [t] has at most [c] instances. *)
Definition pool_at_most (t : string) (c : nat) (s : LoadBalancer) : Prop :=
  (length (pool_of t s) ≤ c)%nat.

(** *** Runs of the exposed operations *)
Inductive lb_op : Type :=
| OpScaleUp (t : string) (n : Z) (now : float)
| OpScaleDown (t : string) (n : Z)
| OpAutoScale (now : float)
| OpAcquire (t : string) (now : float).

(** The state an operation leaves behind, whether it returns or raises. *)
Definition lb_step (o : lb_op) (s : LoadBalancer) : LoadBalancer :=
  match o with
  | OpScaleUp t n now => (scale_up t n now s).2
  | OpScaleDown t n => (scale_down t n s).2
  | OpAutoScale now => (auto_scale now s).2
  | OpAcquire t now => (get_agent t now s).2
  end.

Definition lb_run (ops : list lb_op) (s : LoadBalancer) : LoadBalancer :=
  fold_left (λ s o, lb_step o s) ops s.

Definition shrinks_or_auto (o : lb_op) : bool :=
  match o with
  | OpScaleDown _ _ | OpAutoScale _ => true
  | _ => false
  end.

(** Every pool that exists in the dict has at least one instance. *)
Definition pools_nonempty (s : LoadBalancer) : Prop :=
  ∀ t p, alookup t (agent_pools s) = Some p → p ≠ [].

End LoadBalancer.

Arguments AgentInstance : clear implicits.
Arguments LoadBalancer : clear implicits.

End LB.

(** ** scheduler.py

    The timer engine ([BackgroundScheduler]) is a library: its job store is
    part of the state, and what the environment answers during a call (the
    clock, [uuid4], whether [add_job] raises, what the worker returns) is an
    argument of the call.  A method is one step of the model. *)

(** [s.replace('Z', '+00:00')] *)
Fixpoint replace_Z (s : string) : string :=
  match s with
  | EmptyString => EmptyString
  | String c r =>
      if Ascii.eqb c "Z"%char then "+00:00" +:+ replace_Z r
      else String c (replace_Z r)
  end.

(** Truth value of an optional string: [None] and [''] are falsy. *)
Definition truthy (o : option string) : bool :=
  match o with
  | None => false
  | Some s => negb (String.eqb s "")
  end.

Module Sched.
Section Scheduler.

Context {Agent : Type}.

(** A [datetime] is a point on the time line, counted in microseconds;
    [timedelta(minutes=m)] is a number of microseconds. *)
Definition datetime : Type := Z.
Definition timedelta_minutes (m : Z) : Z := m * 60 * 1000000.

(** [datetime.fromisoformat] ([None]: it raises [ValueError]),
    [datetime.isoformat] and [str(d.year)] come from the Python library. *)
Variable fromisoformat : string → option datetime.
Variable isoformat : datetime → string.
Variable year_str : datetime → string.

(** The five literals the code assigns to [task_info['status']]. *)
Inductive Status : Type :=
| scheduled
| running
| completed
| failed
| cancelled.

#[global] Instance Status_eq_dec : EqDecision Status.
Proof. solve_decision. Defined.

Record TaskInfo : Type := mkTaskInfo {
  task_id : string;
  task_type : string;
  session_id : string;
  agent_type : string;
  parameters : gmap string string;
  created_at : string;
  scheduled_for : string;
  status : Status;
  error : option string;
  result : option string;
  started_at : option string;
  completed_at : option string;
  failed_at : option string;
  cancelled_at : option string;
  rescheduled_at : option string
}.

(** A pending one-shot job of the timer engine ([DateTrigger]). *)
Record Job : Type := mkJob {
  run_date : datetime;
  name : string
}.

(** [tasks] is [self.tasks].  [jobs] is the job store of [self.scheduler]:
    [add_job(..., replace_existing=True)] inserts or replaces the job with
    that id, [remove_job] raises [JobLookupError] when the id is absent.
    [history] is a ghost field: every assignment to a [status] entry, oldest
    first, with the id of the task it was made on. *)
Record TaskScheduler : Type := mkTaskScheduler {
  tasks : gmap string TaskInfo;
  jobs : gmap string Job;
  history : list (string * Status)
}.

(** What the environment answers during one call. *)
Record World : Type := mkWorld {
  uuid4 : string;                       (* str(uuid.uuid4()) *)
  now : nat → datetime;                 (* k-th datetime.now() of the call *)
  add_job_error : option string;        (* add_job raises e, with str(e) *)
  factory_get_agent : string → Agent + string;
  analyze_file : Agent → string → string → string → string + string;
  chat : Agent → string → string → string + string
}.

Definition init : TaskScheduler := mkTaskScheduler ∅ ∅ [].

Definition set_status (st : Status) (ti : TaskInfo) : TaskInfo :=
  mkTaskInfo (task_id ti) (task_type ti) (session_id ti) (agent_type ti)
    (parameters ti) (created_at ti) (scheduled_for ti) st (error ti)
    (result ti) (started_at ti) (completed_at ti) (failed_at ti)
    (cancelled_at ti) (rescheduled_at ti).

(** The statuses written to the record of [id], oldest first. *)
Definition writes_of (id : string) (h : list (string * Status)) : list Status :=
  map snd (List.filter (λ p, String.eqb p.1 id) h).

(** *** [schedule_task] *)
Definition schedule_task (w : World)
  (task_type0 session_id0 agent_type0 : string)
  (schedule_time : option string) (parameters0 : option (gmap string string))
  (s : TaskScheduler) : string * TaskScheduler :=
  let id := uuid4 w in
  let '(run_date0, reads) :=
    if truthy schedule_time then
      match fromisoformat (replace_Z (default "" schedule_time)) with
      | Some d => (d, 0%nat)
      | None => (now w 0 + timedelta_minutes 1, 1%nat)
      end
    else (now w 0 + timedelta_minutes 1, 1%nat) in
  let task_info :=
    mkTaskInfo id task_type0 session_id0 agent_type0
      (default ∅ parameters0) (isoformat (now w reads)) (isoformat run_date0)
      scheduled None None None None None None None in
  match add_job_error w with
  | None =>
      (id,
       mkTaskScheduler
         (<[id := set_status scheduled task_info]> (tasks s))
         (<[id := mkJob run_date0
                    (task_type0 +:+ "_" +:+ agent_type0 +:+ "_" +:+ session_id0)]>
            (jobs s))
         (history s ++ [(id, scheduled); (id, scheduled)]))
  | Some e =>
      (id,
       mkTaskScheduler
         (<[id := mkTaskInfo id task_type0 session_id0 agent_type0
                    (default ∅ parameters0) (isoformat (now w reads))
                    (isoformat run_date0) failed (Some e)
                    None None None None None None]> (tasks s))
         (jobs s)
         (history s ++ [(id, scheduled); (id, failed)]))
  end.

(** *** [_execute_task] and its handlers

    A handler returns the worker's answer ([inr]: the message of the
    exception it raised) and the number of clock readings it made. *)
Definition _execute_file_analysis (w : World) (a : Agent) (ti : TaskInfo)
  : (string + string) * nat :=
  let file_path := parameters ti !! "file_path" in
  let file_name := parameters ti !! "file_name" in
  if negb (truthy file_path) || negb (truthy file_name) then
    (inr "file_path and file_name required for file_analysis task", 0%nat)
  else
    (analyze_file w a (default "" file_name) (default "" file_path)
       (session_id ti), 0%nat).

Definition _execute_audit_report (w : World) (a : Agent) (ti : TaskInfo)
  : (string + string) * nat :=
  let audit_type := default "financial" (parameters ti !! "audit_type") in
  (chat w a
     ("Generate a comprehensive " +:+ audit_type +:+
      " audit report based on previous analysis.")
     (session_id ti), 0%nat).

Definition _execute_tax_calculation (w : World) (k : nat) (a : Agent)
  (ti : TaskInfo) : (string + string) * nat :=
  let tax_year := default (year_str (now w k)) (parameters ti !! "tax_year") in
  (chat w a
     ("Perform tax calculations and optimization analysis for " +:+ tax_year
      +:+ ".")
     (session_id ti), 1%nat).

Definition _execute_consultation (w : World) (a : Agent) (ti : TaskInfo)
  : (string + string) * nat :=
  let topic :=
    default "general financial consultation" (parameters ti !! "topic") in
  (chat w a ("Provide consultation on: " +:+ topic) (session_id ti), 0%nat).

Definition _execute_custom_task (w : World) (a : Agent) (ti : TaskInfo)
  : (string + string) * nat :=
  let custom_prompt :=
    default "Please provide analysis" (parameters ti !! "prompt") in
  (chat w a custom_prompt (session_id ti), 0%nat).

(** The [try] block of [_execute_task]; the clock has been read once. *)
Definition run_handler (w : World) (ti : TaskInfo) : (string + string) * nat :=
  match factory_get_agent w (agent_type ti) with
  | inr e => (inr e, 0%nat)
  | inl a =>
      if String.eqb (task_type ti) "file_analysis" then
        _execute_file_analysis w a ti
      else if String.eqb (task_type ti) "audit_report" then
        _execute_audit_report w a ti
      else if String.eqb (task_type ti) "tax_calculation" then
        _execute_tax_calculation w 1 a ti
      else if String.eqb (task_type ti) "consultation" then
        _execute_consultation w a ti
      else _execute_custom_task w a ti
  end.

Definition _execute_task (w : World) (id : string) (s : TaskScheduler)
  : TaskScheduler :=
  match tasks s !! id with
  | None => s
  | Some ti =>
      let ti1 :=
        mkTaskInfo (task_id ti) (task_type ti) (session_id ti) (agent_type ti)
          (parameters ti) (created_at ti) (scheduled_for ti) running
          (error ti) (result ti) (Some (isoformat (now w 0)))
          (completed_at ti) (failed_at ti) (cancelled_at ti)
          (rescheduled_at ti) in
      let '(answer, reads) := run_handler w ti1 in
      let stamp := isoformat (now w (S reads)) in
      match answer with
      | inl r =>
          mkTaskScheduler
            (<[id := mkTaskInfo (task_id ti1) (task_type ti1) (session_id ti1)
                       (agent_type ti1) (parameters ti1) (created_at ti1)
                       (scheduled_for ti1) completed (error ti1) (Some r)
                       (started_at ti1) (Some stamp) (failed_at ti1)
                       (cancelled_at ti1) (rescheduled_at ti1)]> (tasks s))
            (jobs s)
            (history s ++ [(id, running); (id, completed)])
      | inr e =>
          mkTaskScheduler
            (<[id := mkTaskInfo (task_id ti1) (task_type ti1) (session_id ti1)
                       (agent_type ti1) (parameters ti1) (created_at ti1)
                       (scheduled_for ti1) failed (Some e) (result ti1)
                       (started_at ti1) (completed_at ti1) (Some stamp)
                       (cancelled_at ti1) (rescheduled_at ti1)]> (tasks s))
            (jobs s)
            (history s ++ [(id, running); (id, failed)])
      end
  end.

(** The timer engine fires the one-shot job [id]: the job leaves the store
    and its callable [_execute_task(id)] runs.  Nothing happens when no job
    with that id is pending. *)
Definition fire_job (w : World) (id : string) (s : TaskScheduler)
  : TaskScheduler :=
  match jobs s !! id with
  | None => s
  | Some _ =>
      _execute_task w id
        (mkTaskScheduler (tasks s) (delete id (jobs s)) (history s))
  end.

(** *** Queries *)
Definition get_task_status (id : string) (s : TaskScheduler) : option TaskInfo :=
  tasks s !! id.

(** *** [cancel_task] *)
Definition cancel_task (w : World) (id : string) (s : TaskScheduler)
  : bool * TaskScheduler :=
  match tasks s !! id with
  | Some ti =>
      match status ti with
      | scheduled =>
          match jobs s !! id with
          | None => (false, s)          (* remove_job raised, caught *)
          | Some _ =>
              (true,
               mkTaskScheduler
                 (<[id := mkTaskInfo (task_id ti) (task_type ti)
                            (session_id ti) (agent_type ti) (parameters ti)
                            (created_at ti) (scheduled_for ti) cancelled
                            (error ti) (result ti) (started_at ti)
                            (completed_at ti) (failed_at ti)
                            (Some (isoformat (now w 0)))
                            (rescheduled_at ti)]> (tasks s))
                 (delete id (jobs s))
                 (history s ++ [(id, cancelled)]))
          end
      | _ => (false, s)
      end
  | None => (false, s)
  end.

(** *** [reschedule_task] *)
Definition reschedule_task (w : World) (id new_schedule_time : string)
  (s : TaskScheduler) : bool * TaskScheduler :=
  match tasks s !! id with
  | None => (false, s)
  | Some ti =>
      match status ti with
      | scheduled =>
          match fromisoformat (replace_Z new_schedule_time) with
          | None => (false, s)
          | Some d =>
              match jobs s !! id with
              | None => (false, s)      (* remove_job raised, caught *)
              | Some _ =>
                  match add_job_error w with
                  | Some _ =>           (* add_job raised, caught *)
                      (false,
                       mkTaskScheduler (tasks s) (delete id (jobs s))
                         (history s))
                  | None =>
                      (true,
                       mkTaskScheduler
                         (<[id := mkTaskInfo (task_id ti) (task_type ti)
                                    (session_id ti) (agent_type ti)
                                    (parameters ti) (created_at ti)
                                    (isoformat d) (status ti) (error ti)
                                    (result ti) (started_at ti)
                                    (completed_at ti) (failed_at ti)
                                    (cancelled_at ti)
                                    (Some (isoformat (now w 0)))]> (tasks s))
                         (<[id := mkJob d ("Task_" +:+ id)]>
                            (delete id (jobs s)))
                         (history s))
                  end
              end
          end
      | _ => (false, s)
      end
  end.

(** *** Runs of the scheduler *)
Inductive op : Type :=
| OpSchedule (w : World) (task_type0 session_id0 agent_type0 : string)
    (schedule_time : option string) (parameters0 : option (gmap string string))
| OpFire (w : World) (id : string)
| OpCancel (w : World) (id : string)
| OpReschedule (w : World) (id new_schedule_time : string).

Definition step (o : op) (s : TaskScheduler) : TaskScheduler :=
  match o with
  | OpSchedule w tt0 sid at0 st ps => (schedule_task w tt0 sid at0 st ps s).2
  | OpFire w id => fire_job w id s
  | OpCancel w id => (cancel_task w id s).2
  | OpReschedule w id t => (reschedule_task w id t s).2
  end.

(** [uuid4] does not repeat an id that is already in use. *)
Definition fresh (o : op) (s : TaskScheduler) : Prop :=
  match o with
  | OpSchedule w _ _ _ _ _ => tasks s !! uuid4 w = None
  | _ => True
  end.

Inductive reachable : TaskScheduler → Prop :=
| reachable_init : reachable init
| reachable_step o s : reachable s → fresh o s → reachable (step o s).

(** The transitions the code makes on a [status] entry: re-assigning
    [scheduled] once the timer is registered, [scheduled] to [failed] when
    registering the timer raises, and the life cycle proper. *)
Definition transition (a b : Status) : bool :=
  match a, b with
  | scheduled, scheduled
  | scheduled, running
  | scheduled, cancelled
  | scheduled, failed
  | running, completed
  | running, failed => true
  | _, _ => false
  end.

(** The transitions of the life cycle alone. *)
Definition lifecycle (a b : Status) : bool :=
  match a, b with
  | scheduled, scheduled
  | scheduled, running
  | scheduled, cancelled
  | running, completed
  | running, failed => true
  | _, _ => false
  end.

Fixpoint chain (R : Status → Status → bool) (l : list Status) : bool :=
  match l with
  | a :: ((b :: _) as r) => R a b && chain R r
  | _ => true
  end.

(** The histories the code produces for one job: a job whose timer could not
    be registered goes from [scheduled] straight to [failed]; any other
    history follows the life cycle. *)
Definition valid_history (h : list Status) : Prop :=
  h = [scheduled; failed] ∨ chain lifecycle h = true.

(** What holds of every state the scheduler reaches. *)
Record consistent (s : TaskScheduler) : Prop := mkConsistent {
  jobs_scheduled :
    ∀ id, is_Some (jobs s !! id) →
          ∃ ti, tasks s !! id = Some ti ∧ status ti = scheduled;
  history_status :
    ∀ id, match tasks s !! id with
          | Some ti => last (writes_of id (history s)) = Some (status ti)
          | None => writes_of id (history s) = []
          end;
  history_valid : ∀ id, valid_history (writes_of id (history s))
}.

End Scheduler.

Arguments TaskScheduler : clear implicits.
Arguments World : clear implicits.

End Sched.

(** ** load_balancer.py: release, statistics, and runs of every method *)

(** [max(l, key=...)], as the position of the element returned: the first
    element whose key is maximal; a later element replaces the current best
    only when its key is strictly greater. *)
Fixpoint max_index_from {A K : Type} (lt : K → K → bool) (key : A → K)
  (best_i : nat) (best : A) (i : nat) (l : list A) : nat :=
  match l with
  | [] => best_i
  | x :: r =>
      if lt (key best) (key x) then max_index_from lt key i x (S i) r
      else max_index_from lt key best_i best (S i) r
  end.

Definition py_max_index {A K : Type} (lt : K → K → bool) (key : A → K)
  (l : list A) : option nat :=
  match l with
  | [] => None
  | x :: r => Some (max_index_from lt key 0%nat x 1%nat r)
  end.

Module Ops.
Section Ops.

Context {Agent float : Type} `{FloatOps float}.

(** Float addition, used by [release_agent] and [get_stats] only. *)
Variable f_add : float → float → float.
Variable factory_get_agent : string → option Agent.

Import LB.

(** Lines 186-187 of [release_agent]: the update of [recent_instance]. *)
Definition released (response_time : float) (i : AgentInstance Agent float)
  : AgentInstance Agent float :=
  mkAgentInstance (agent_id i) (agent_type i) (agent i) (weight i)
    (Z.max 0 (active_connections i - 1)) (total_requests i)
    (f_add (total_response_time i) response_time)
    (last_used i) (health_status i) (created_at i).

Definition release_agent (t : string) (response_time : float)
  : M (Agent := Agent) (float := float) unit :=
  λ s,
    match alookup t (agent_pools s) with
    | Some instances =>
        match py_max_index f_lt last_used instances with
        | Some i =>
            (Ok tt, set_pool t (alter (released response_time) i instances) s)
        | None => (Ok tt, s)
        end
    | None => (Ok tt, s)
    end.

(** *** [get_stats] *)
Record InstanceStats : Type := mkInstanceStats {
  is_agent_id : string;
  is_weight : Z;
  is_active_connections : Z;
  is_total_requests : Z;
  is_health_status : string;
  is_last_used : float;
  is_avg_response_time : float
}.

Record TypeStats : Type := mkTypeStats {
  instance_count : nat;
  healthy_instances : nat;
  ts_total_connections : Z;
  ts_total_requests : Z;
  average_response_time : float;
  ts_instances : list InstanceStats
}.

(** [sum(generator)] of integers, and of floats (the sum starts from the
    integer 0). *)
Definition sum_Z {A : Type} (f : A → Z) (l : list A) : Z :=
  fold_left (λ acc x, acc + f x) l 0.

Definition sum_float {A : Type} (f : A → float) (l : list A) : float :=
  fold_left (λ acc x, f_add acc (f x)) l (f_of_Z 0).

Definition instance_stats (i : AgentInstance Agent float) : InstanceStats :=
  mkInstanceStats (agent_id i) (weight i) (active_connections i)
    (total_requests i) (health_status i) (last_used i)
    (if 0 <? total_requests i
     then f_div (total_response_time i) (f_of_Z (total_requests i))
     else f_of_Z 0).

Definition type_stats (instances : list (AgentInstance Agent float))
  : TypeStats :=
  let total_time := sum_float total_response_time instances in
  let total_requests0 := sum_Z total_requests instances in
  mkTypeStats
    (length instances)
    (length (List.filter is_healthy instances))
    (sum_Z active_connections instances)
    (sum_Z total_requests instances)
    (if 0 <? total_requests0
     then f_div total_time (f_of_Z total_requests0)
     else f_of_Z 0)
    (map instance_stats instances).

Definition get_stats (s : LoadBalancer Agent float)
  : list (string * TypeStats) :=
  map (λ kv, (kv.1, type_stats kv.2)) (agent_pools s).

(** *** Runs of every method of the class *)
Inductive call : Type :=
| CallGetAgent (t : string) (now : float)
| CallRelease (t : string) (response_time : float)
| CallAdd (t : string) (w : Z) (now : float)
| CallRemove (t id : string)
| CallScaleUp (t : string) (n : Z) (now : float)
| CallScaleDown (t : string) (n : Z)
| CallAutoScale (now : float)
| CallSetAlgorithm (a : LoadBalancingAlgorithm)
| CallSetWeight (t : string) (w : Z)
| CallHealthPass (probe : string → nat → option float).

(** The state a call leaves behind, whether it returns or raises. *)
Definition call_step (c : call) (s : LoadBalancer Agent float)
  : LoadBalancer Agent float :=
  match c with
  | CallGetAgent t now => (get_agent factory_get_agent t now s).2
  | CallRelease t rt => (release_agent t rt s).2
  | CallAdd t w now => (add_agent_instance factory_get_agent t w now s).2
  | CallRemove t id => (remove_agent_instance t id s).2
  | CallScaleUp t n now => (scale_up factory_get_agent t n now s).2
  | CallScaleDown t n => (scale_down t n s).2
  | CallAutoScale now => (auto_scale factory_get_agent now s).2
  | CallSetAlgorithm a => (set_algorithm a s).2
  | CallSetWeight t w => (set_agent_weight t w s).2
  | CallHealthPass probe => (health_check_pass probe s).2
  end.

Definition call_run (cs : list call) (s : LoadBalancer Agent float)
  : LoadBalancer Agent float :=
  fold_left (λ s c, call_step c s) cs s.

(** A property of instances that holds of every instance of every pool. *)
Definition pools_all (P : AgentInstance Agent float → Prop)
  (s : LoadBalancer Agent float) : Prop :=
  ∀ t p, alookup t (agent_pools s) = Some p → Forall P p.

(** The metrics of an instance are coherent: connections are never negative
    and never exceed the requests served. *)
Definition coherent (i : AgentInstance Agent float) : Prop :=
  0 ≤ active_connections i ≤ total_requests i.

(** The three values the code assigns to [health_status]. *)
Definition known_health (i : AgentInstance Agent float) : Prop :=
  health_status i = "healthy" ∨ health_status i = "unhealthy" ∨
  health_status i = "overloaded".

(** The active connections of the candidates differ by at most one. *)
Definition balanced (l : list (nat * AgentInstance Agent float)) : Prop :=
  ∃ m, Forall (λ p, m ≤ active_connections p.2 ≤ m + 1) l.

(** The pool [get_agent] selects from when called for [t]: the pool as it
    is, or the pool with the fallback instance appended when no instance is
    healthy and the factory can create one. *)
Definition base_pool (t : string) (now : float) (s : LoadBalancer Agent float)
  : list (AgentInstance Agent float) :=
  match healthy_from 0 (pool_of t s), factory_get_agent t with
  | [], Some a => pool_of t s ++ [new_instance t a now s]
  | _, _ => pool_of t s
  end.

(** [x'] is [x] up to the three fields [get_agent] writes. *)
Definition same_instance (x x' : AgentInstance Agent float) : Prop :=
  agent_id x' = agent_id x ∧ agent_type x' = agent_type x ∧
  agent x' = agent x ∧ weight x' = weight x ∧
  health_status x' = health_status x ∧ created_at x' = created_at x ∧
  total_response_time x' = total_response_time x.

(** [s'] differs from [s] at most in the pool and the cursor of [t], where
    the instances of [s] are still in place. *)
Record only_pool (t : string) (s s' : LoadBalancer Agent float) : Prop :=
  mkOnlyPool {
    op_algorithm : algorithm s' = algorithm s;
    op_weights : agent_weights s' = agent_weights s;
    op_pools : ∀ t', t ≠ t' →
                     alookup t' (agent_pools s') = alookup t' (agent_pools s);
    op_counters : ∀ t', t ≠ t' → counter_of t' s' = counter_of t' s;
    op_pool : ∀ i x, pool_of t s !! i = Some x →
                     ∃ x', pool_of t s' !! i = Some x' ∧ same_instance x x'
  }.

(** The id [_create_agent_instance] gives to the instance it appends to a
    pool of [i] instances. *)
Definition instance_id (t : string) (i : nat) : string :=
  t +:+ "_" +:+ string_of_nat i.

(** The ids of every pool are numbered in pool order, from 0. *)
Definition numbered (s : LoadBalancer Agent float) : Prop :=
  ∀ t, map agent_id (pool_of t s)
       = map (instance_id t) (seq 0 (length (pool_of t s))).

(** The calls that can take an instance out of a pool. *)
Definition removes (c : call) : bool :=
  match c with
  | CallRemove _ _ | CallScaleDown _ _ | CallAutoScale _ => true
  | _ => false
  end.

(** The two load tests of [auto_scale] on the instances of a pool. *)
Definition load_high (instances : list (AgentInstance Agent float)) : bool :=
  f_lt (f_mul (f_of_Z max_connections_per_agent) f_0_7)
    (f_truediv (total_connections instances) (Z.of_nat (length instances))).

Definition load_low (instances : list (AgentInstance Agent float)) : bool :=
  f_lt (f_truediv (total_connections instances) (Z.of_nat (length instances)))
    (f_mul (f_of_Z max_connections_per_agent) f_0_3).

(** A pool [p] that has [n'] instances afterwards has kept its size, or has
    grown by one under high load below 5 instances, or has shrunk by one
    under low load above 1 instance. *)
Definition scaled_by_one (p : list (AgentInstance Agent float)) (n' : nat)
  : Prop :=
  n' = length p ∨
  (n' = S (length p) ∧ load_high p = true ∧ (length p < 5)%nat) ∨
  (S n' = length p ∧ load_high p = false ∧ load_low p = true ∧
   (1 < length p)%nat).

(** A non-empty pool [p] under high load below 5 instances has grown by one,
    and one under low load above 1 instance has shrunk by one. *)
Definition scaled_as_needed (p : list (AgentInstance Agent float)) (n' : nat)
  : Prop :=
  p ≠ [] →
  (load_high p = true → (length p < 5)%nat → n' = S (length p)) ∧
  (load_high p = false → load_low p = true → (1 < length p)%nat →
   S n' = length p).

End Ops.
End Ops.

(** ** scheduler.py: what the fields of a job record say *)
Module Records.

Import Sched.

(** The optional keys of a record agree with its status: a scheduled job
    carries none of them; a completed one has a result and both time stamps
    of its run; a failed one has an error, and was either never started or
    has both [started_at] and [failed_at]; a cancelled one was never started
    and has [cancelled_at].  No record stays [running] between two calls. *)
Definition settled (ti : TaskInfo) : Prop :=
  match status ti with
  | scheduled =>
      error ti = None ∧ result ti = None ∧ started_at ti = None ∧
      completed_at ti = None ∧ failed_at ti = None ∧ cancelled_at ti = None
  | running => False
  | completed =>
      error ti = None ∧ is_Some (result ti) ∧ is_Some (started_at ti) ∧
      is_Some (completed_at ti) ∧ failed_at ti = None ∧ cancelled_at ti = None
  | failed =>
      is_Some (error ti) ∧ result ti = None ∧ completed_at ti = None ∧
      cancelled_at ti = None ∧ (started_at ti = None ↔ failed_at ti = None)
  | cancelled =>
      error ti = None ∧ result ti = None ∧ started_at ti = None ∧
      completed_at ti = None ∧ failed_at ti = None ∧ is_Some (cancelled_at ti)
  end.

(** Every record is stored under its own [task_id] and is settled. *)
Definition well_formed (s : TaskScheduler) : Prop :=
  ∀ id ti, tasks s !! id = Some ti → task_id ti = id ∧ settled ti.

End Records.

(** Floats read as exact rationals: an interpretation used to run the model
    on concrete inputs. *)
#[local] Instance exact_floats : FloatOps Q := {|
  f_of_Z := inject_Z;
  f_0_7 := Qmake 7 10;
  f_0_3 := Qmake 3 10;
  f_mul := Qmult;
  f_div := Qdiv;
  f_truediv := λ a b, Qdiv (inject_Z a) (inject_Z b);
  f_lt := λ a b, negb (Qle_bool b a)
|}.

(** ** Concrete runs *)
Module Run.

Definition fac (t : string) : option string :=
  if String.eqb t "Ghost" then None else Some ("agent:" +:+ t).

(** [LoadBalancer(algorithm)] at time 0. *)
Definition fresh_balancer (a : LB.LoadBalancingAlgorithm)
  : LB.LoadBalancer string Q :=
  (LB.new_LoadBalancer fac a 0%Q).2.

(** A pool of three instances with weights 3, 2 and 2. *)
Definition pool_322 : LB.LoadBalancer string Q :=
  (LB.forM ["3"; "2"; "2"]
     (λ w, LB.bind (LB.add_agent_instance fac "Pool"
                      (if String.eqb w "3" then 3 else 2) 0%Q)
             (λ _, LB.ret tt))
     (fresh_balancer LB.WEIGHTED_ROUND_ROBIN)).2.

(** The weight of the tax agents set to 0 by the administrator. *)
Definition zero_weight : LB.LoadBalancer string Q :=
  (LB.set_agent_weight "Tax Agent" 0
     (fresh_balancer LB.WEIGHTED_ROUND_ROBIN)).2.

(** The second consultant found unhealthy by a health-check pass. *)
Definition one_unhealthy : LB.LoadBalancer string Q :=
  (LB.health_check_pass
     (λ t i, if String.eqb t "Dabby Consultant" && Nat.eqb i 1
             then None else Some 0%Q)
     (fresh_balancer LB.ROUND_ROBIN)).2.

(** A toy ISO-8601 reader and printer for concrete runs: one literal is
    readable, times are printed as decimal microsecond counts. *)
Definition parse (str : string) : option Z :=
  if String.eqb str "2030-01-01T00:00:00+00:00" then Some 1893456000000000
  else None.

Definition iso (d : Z) : string := NilZero.string_of_int (Z.to_int d).

Definition year (d : Z) : string := "2026".

(** A world in which the timer engine accepts jobs and the worker answers. *)
Definition calm (id : string) : Sched.World string :=
  Sched.mkWorld id (λ k, 1000 + Z.of_nat k) None
    (λ t, inl ("agent:" +:+ t))
    (λ _ _ _ _, inl "analysis")
    (λ _ _ _, inl "answer").

(** A world in which [add_job] raises. *)
Definition faulty (id : string) : Sched.World string :=
  Sched.mkWorld id (λ k, 2000 + Z.of_nat k) (Some "scheduler is down")
    (λ t, inl ("agent:" +:+ t))
    (λ _ _ _ _, inl "analysis")
    (λ _ _ _, inl "answer").

Definition sched_step := Sched.step (Agent := string) parse iso year.

(** One job scheduled without a run-at time. *)
Definition one_job : Sched.TaskScheduler :=
  sched_step
    (Sched.OpSchedule (calm "job-1") "consultation" "session" "Tax Agent"
       None None)
    Sched.init.

(** The job of [one_job] cancelled. *)
Definition cancelled_job : Sched.TaskScheduler :=
  sched_step (Sched.OpCancel (calm "job-2") "job-1") one_job.


End Run.

(** * Facts about the load balancer *)

Lemma alookup_aset_eq {V : Type} (k : string) (v : V) l :
  alookup k (aset k v l) = Some v.
Proof.
  induction l as [|[k' v'] l IH]; simpl.
  - by rewrite String.eqb_refl.
  - destruct (String.eqb k k') eqn:E; simpl; rewrite ?String.eqb_refl, ?E; done.
Qed.

Lemma alookup_aset_ne {V : Type} (k k' : string) (v : V) l :
  k ≠ k' → alookup k' (aset k v l) = alookup k' l.
Proof.
  intros Hne. induction l as [|[k0 v0] l IH]; simpl.
  - destruct (String.eqb k' k) eqn:E; [|done].
    apply String.eqb_eq in E. congruence.
  - destruct (String.eqb k k0) eqn:E; simpl.
    + apply String.eqb_eq in E. subst k0.
      destruct (String.eqb k' k) eqn:E'; [|done].
      apply String.eqb_eq in E'. congruence.
    + by rewrite IH.
Qed.

Lemma alookup_aset {V : Type} (k k' : string) (v : V) l :
  alookup k' (aset k v l) = if decide (k = k') then Some v else alookup k' l.
Proof.
  case_decide; [subst; apply alookup_aset_eq | by apply alookup_aset_ne].
Qed.

Section LoadBalancerFacts.

Context {Agent float : Type} `{FloatOps float}.
Variable factory_get_agent : string → option Agent.

Import LB.

Local Abbreviation LBS := (LoadBalancer Agent float).
Local Abbreviation Inst := (AgentInstance Agent float).
Local Abbreviation get_agent_instance := (LB.get_agent_instance factory_get_agent).
Local Abbreviation get_agent := (LB.get_agent factory_get_agent).
Local Abbreviation _create_agent_instance :=
  (LB._create_agent_instance factory_get_agent).
Local Abbreviation acquire_n := (LB.acquire_n factory_get_agent).

Lemma pool_of_set_pool_eq t p (s : LBS) : pool_of t (set_pool t p s) = p.
Proof. unfold pool_of, set_pool; simpl. by rewrite alookup_aset_eq. Qed.

Lemma pool_of_set_pool_ne t t' p (s : LBS) :
  t ≠ t' → pool_of t' (set_pool t p s) = pool_of t' s.
Proof. intros. unfold pool_of, set_pool; simpl. by rewrite alookup_aset_ne. Qed.

Lemma healthy_from_lookup (pool : list Inst) k i x :
  (i, x) ∈ healthy_from k pool →
  (k ≤ i)%nat ∧ pool !! (i - k)%nat = Some x ∧ is_healthy x = true.
Proof.
  revert k. induction pool as [|y pool IH]; intros k; simpl.
  - by intros ?%elem_of_nil.
  - destruct (is_healthy y) eqn:E.
    + rewrite elem_of_cons. intros [[= -> ->]|Hin].
      * rewrite Nat.sub_diag. auto.
      * apply IH in Hin as (? & ? & ?).
        replace (i - k)%nat with (S (i - S k)) by lia. auto with lia.
    + intros Hin. apply IH in Hin as (? & ? & ?).
      replace (i - k)%nat with (S (i - S k)) by lia. auto with lia.
Qed.

Lemma healthy_from_nil_all (pool : list Inst) k :
  healthy_from k pool = [] ↔ Forall (λ x, is_healthy x = false) pool.
Proof.
  revert k. induction pool as [|y pool IH]; intros k; simpl.
  - split; auto.
  - destruct (is_healthy y) eqn:E.
    + split; [done|]. intros Hf. inversion Hf; congruence.
    + rewrite IH. split; [by constructor | by inversion 1].
Qed.

(** The instance built by [_create_agent_instance] is healthy. *)
Lemma new_instance_healthy t a now (s : LBS) :
  is_healthy (new_instance t a now s) = true.
Proof. reflexivity. Qed.

Lemma healthy_from_app (p q : list Inst) k :
  healthy_from k (p ++ q) = healthy_from k p ++ healthy_from (k + length p) q.
Proof.
  revert k. induction p as [|y p IH]; intros k; simpl.
  - by rewrite Nat.add_0_r.
  - rewrite IH. replace (S k + length p)%nat with (k + S (length p))%nat by lia.
    by destruct (is_healthy y).
Qed.

Lemma get_agent_instance_healthy t now (s : LBS) :
  healthy_from 0 (pool_of t s) ≠ [] →
  get_agent_instance t now s =
  finish t now (_select_instance (healthy_from 0 (pool_of t s)) t s).
Proof.
  intros Hne. unfold LB.get_agent_instance, bind, get_state, ret, modify, finish.
  assert (∃ x p, alookup t (agent_pools s) = Some (x :: p)) as (x & p & Hp).
  { unfold pool_of in Hne. destruct (alookup t (agent_pools s)) as [[|x p]|];
      simpl in Hne; try done. eauto. }
  rewrite Hp.
  destruct (healthy_from 0 (pool_of t s)) eqn:Hh; [done|].
  by destruct (_select_instance _ t s) as [[sel|e] s'].
Qed.

Lemma get_agent_instance_raises t now (s : LBS) :
  healthy_from 0 (pool_of t s) = [] →
  factory_get_agent t = None →
  get_agent_instance t now s = (Raise AgentFactoryError, s).
Proof.
  intros Hh Hf.
  unfold LB.get_agent_instance, LB._create_agent_instance, bind, get_state, ret, modify.
  rewrite Hf.
  destruct (alookup t (agent_pools s)) as [[|x p]|] eqn:Hp; try done.
  by rewrite Hh.
Qed.

Lemma get_agent_instance_fallback t a now (s : LBS) :
  healthy_from 0 (pool_of t s) = [] →
  factory_get_agent t = Some a →
  get_agent_instance t now s =
  finish t now
    (_select_instance
       [(length (pool_of t s), new_instance t a now s)] t
       (set_pool t (pool_of t s ++ [new_instance t a now s]) s)).
Proof.
  intros Hh Hf.
  unfold LB.get_agent_instance, LB._create_agent_instance, bind, get_state, ret,
    modify, finish.
  rewrite Hf.
  destruct (alookup t (agent_pools s)) as [[|x p]|] eqn:Hp.
  - rewrite pool_of_set_pool_eq.
    assert (pool_of t s = []) as -> by (unfold pool_of; by rewrite Hp).
    simpl. by destruct (_select_instance _ t _) as [[sel|e] s'].
  - rewrite Hh.
    by destruct (_select_instance _ t _) as [[sel|e] s'].
  - rewrite pool_of_set_pool_eq.
    assert (pool_of t s = []) as -> by (unfold pool_of; by rewrite Hp).
    simpl. by destruct (_select_instance _ t _) as [[sel|e] s'].
Qed.

Lemma counter_of_set_pool t t' p (s : LBS) :
  counter_of t' (set_pool t p s) = counter_of t' s.
Proof. reflexivity. Qed.

Lemma counter_of_set_counter t c (s : LBS) :
  counter_of t (set_counter t c s) = c.
Proof. unfold counter_of, set_counter; simpl. by rewrite lookup_insert_eq. Qed.

Lemma pool_of_set_counter t t' c (s : LBS) :
  pool_of t' (set_counter t c s) = pool_of t' s.
Proof. reflexivity. Qed.

Lemma get_agent_unfold t now (s : LBS) :
  get_agent t now s =
  match get_agent_instance t now s with
  | (Ok selected, s') => (Ok (agent selected.2), s')
  | (Raise e, s') => (Raise e, s')
  end.
Proof. reflexivity. Qed.

(** *** Selection picks a candidate and only moves the cursor *)

Lemma min_from_in {A K : Type} (lt : K → K → bool) (key : A → K) best l :
  min_from lt key best l ∈ best :: l.
Proof.
  revert best. induction l as [|x l IH]; intros best; simpl.
  - set_solver.
  - specialize (IH (if lt (key x) (key best) then x else best)).
    apply elem_of_cons in IH as [->|IH].
    + destruct (lt (key x) (key best)); set_solver.
    + set_solver.
Qed.

Lemma py_min_in {A K : Type} (lt : K → K → bool) (key : A → K) l x :
  py_min lt key l = Some x → x ∈ l.
Proof.
  destruct l as [|y l]; simpl; [done|]. intros [= <-]. apply min_from_in.
Qed.

Lemma wrr_walk_in target cur (l : list (nat * Inst)) x :
  wrr_walk target cur l = Some x → x ∈ l.
Proof.
  revert cur. induction l as [|y l IH]; intros cur; simpl; [done|].
  destruct (target <? cur + weight y.2).
  - intros [= ->]. set_solver.
  - intros ?%IH. set_solver.
Qed.

Lemma wrr_walk_found target cur (l : list (nat * Inst)) :
  cur ≤ target → target < cur + total_weight l →
  is_Some (wrr_walk target cur l).
Proof.
  revert cur. induction l as [|y l IH]; intros cur; simpl.
  - lia.
  - intros Hle Hlt. destruct (target <? cur + weight y.2) eqn:E; [eauto|].
    apply Z.ltb_ge in E. apply IH; lia.
Qed.

Lemma round_robin_select_spec (l : list (nat * Inst)) t (s : LBS) :
  l ≠ [] →
  ∃ x, l !! Z.to_nat (counter_of t s mod Z.of_nat (length l)) = Some x ∧
       _round_robin_select l t s =
       (Ok x, set_counter t ((counter_of t s + 1) mod Z.of_nat (length l)) s).
Proof.
  intros Hne. unfold _round_robin_select.
  assert (0 < Z.of_nat (length l)) as Hlen by (destruct l; simpl in *; [done|lia]).
  destruct (Z.of_nat (length l) =? 0) eqn:E; [apply Z.eqb_eq in E; lia|].
  pose proof (Z.mod_pos_bound (counter_of t s) _ Hlen) as Hb.
  destruct (l !! Z.to_nat (counter_of t s mod Z.of_nat (length l))) as [x|] eqn:Hx.
  - eauto.
  - apply lookup_ge_None in Hx. lia.
Qed.

Lemma weighted_select_spec (l : list (nat * Inst)) t (s : LBS) :
  l ≠ [] → total_weight l ≠ 0 →
  ∃ x s', _weighted_round_robin_select l t s = (Ok x, s') ∧ x ∈ l ∧
          (s' = s ∨ s' = set_counter t (counter_of t s + 1) s) ∧
          (0 < total_weight l → s' = set_counter t (counter_of t s + 1) s).
Proof.
  intros Hne Hw. unfold _weighted_round_robin_select.
  destruct (total_weight l =? 0) eqn:E; [apply Z.eqb_eq in E; done|].
  destruct (wrr_walk _ 0 l) as [x|] eqn:Hwalk.
  - exists x, (set_counter t (counter_of t s + 1) s).
    split_and!; eauto using wrr_walk_in.
  - destruct l as [|y l]; [done|]. exists y, s. split_and!; [done|set_solver|auto|].
    intros Hpos.
    destruct (wrr_walk_found (counter_of t s mod total_weight (y :: l)) 0 (y :: l))
      as [z Hz].
    + pose proof (Z.mod_pos_bound (counter_of t s) _ Hpos). lia.
    + pose proof (Z.mod_pos_bound (counter_of t s) _ Hpos). lia.
    + congruence.
Qed.

Lemma select_instance_spec (l : list (nat * Inst)) t (s : LBS) :
  l ≠ [] →
  (algorithm s = WEIGHTED_ROUND_ROBIN → total_weight l ≠ 0) →
  ∃ x s', _select_instance l t s = (Ok x, s') ∧ x ∈ l ∧
          agent_pools s' = agent_pools s ∧ algorithm s' = algorithm s ∧
          agent_weights s' = agent_weights s.
Proof.
  intros Hne Hw. unfold _select_instance.
  destruct (algorithm s) eqn:Ha.
  - destruct (round_robin_select_spec l t s Hne) as (x & Hx & ->).
    exists x, (set_counter t ((counter_of t s + 1) mod Z.of_nat (length l)) s).
    split_and!; try done. by eapply list_elem_of_lookup_2.
  - unfold _least_connections_select.
    destruct (py_min _ _ l) as [x|] eqn:Hm.
    + exists x, s. split_and!; try done. by eapply py_min_in.
    + by destruct l.
  - destruct (weighted_select_spec l t s Hne (Hw eq_refl))
      as (x & s' & -> & Hin & [->| ->] & _); exists x; eexists; split_and!; done.
  - unfold _response_time_select.
    destruct (py_min _ _ l) as [x|] eqn:Hm.
    + exists x, s. split_and!; try done. by eapply py_min_in.
    + by destruct l.
Qed.

Lemma pool_of_eq t (s s' : LBS) :
  agent_pools s' = agent_pools s → pool_of t s' = pool_of t s.
Proof. unfold pool_of. by intros ->. Qed.

Lemma healthy_ne_pool_ne t (s : LBS) :
  healthy_from 0 (pool_of t s) = [] ∨ healthy_from 0 (pool_of t s) ≠ [].
Proof. destruct (healthy_from 0 (pool_of t s)); auto. Qed.

(** [get_agent] returns an agent for every type the factory can create, in
    every state and under every algorithm, provided that under weighted
    round-robin the candidates' total weight is not zero.  When no instance
    of the pool is healthy (or there is no pool yet), exactly one fresh
    instance is appended to the pool and serves the request; otherwise a
    healthy instance of the pool serves it and none is created. *)
Theorem get_agent_returns t a now (s : LBS) :
  factory_get_agent t = Some a →
  (algorithm s = WEIGHTED_ROUND_ROBIN → candidate_weight t s ≠ 0) →
  ∃ a' s',
    get_agent t now s = (Ok a', s') ∧
    (healthy_from 0 (pool_of t s) = [] →
       a' = a ∧
       pool_of t s' = pool_of t s ++ [touch now (new_instance t a now s)]) ∧
    (healthy_from 0 (pool_of t s) ≠ [] →
       ∃ i x, pool_of t s !! i = Some x ∧ is_healthy x = true ∧
              agent x = a' ∧
              pool_of t s' = alter (touch now) i (pool_of t s)).
Proof.
  intros Hf Hw. rewrite get_agent_unfold.
  destruct (healthy_ne_pool_ne t s) as [Hh|Hh].
  - rewrite (get_agent_instance_fallback _ a) by done.
    set (inst := new_instance t a now s).
    set (s1 := set_pool t (pool_of t s ++ [inst]) s).
    destruct (select_instance_spec [(length (pool_of t s), inst)] t s1)
      as (x & s' & Hsel & Hin & Hp & _ & _); [done| |].
    { intros Ha. unfold candidate_weight in Hw. rewrite Hh in Hw.
      simpl. specialize (Hw Ha). unfold inst; simpl. lia. }
    rewrite Hsel. simpl. apply list_elem_of_singleton in Hin as ->. simpl.
    eexists _, _. split; [done|]. split; [|done]. intros _. split; [done|].
    rewrite pool_of_set_pool_eq, (pool_of_eq _ _ _ Hp).
    unfold s1. rewrite pool_of_set_pool_eq.
    replace (length (pool_of t s)) with (length (pool_of t s) + 0)%nat by lia.
    by rewrite alter_app_r.
  - rewrite get_agent_instance_healthy by done.
    destruct (select_instance_spec (healthy_from 0 (pool_of t s)) t s)
      as ([i x] & s' & Hsel & Hin & Hp & _ & _); [done| |].
    { intros Ha. specialize (Hw Ha). unfold candidate_weight in Hw.
      by destruct (healthy_from 0 (pool_of t s)). }
    rewrite Hsel. simpl. eexists _, _. split; [done|]. split; [done|].
    intros _. apply healthy_from_lookup in Hin as (_ & Hl & Hx).
    rewrite Nat.sub_0_r in Hl. exists i, x. split_and!; try done.
    by rewrite pool_of_set_pool_eq, (pool_of_eq _ _ _ Hp).
Qed.

Lemma total_weight_positive (l : list (nat * Inst)) :
  Forall (λ p, 1 ≤ weight p.2) l → l ≠ [] → 1 ≤ total_weight l.
Proof.
  intros Hall Hne. destruct Hall as [|p l Hp Hall]; [done|].
  unfold total_weight. simpl.
  assert (0 ≤ foldr (λ (x : nat * Inst) acc, weight x.2 + acc) 0 l) as Hrest.
  { clear -Hall. induction Hall as [|q l Hq Hall IH]; simpl; lia. }
  lia.
Qed.

(** On the states the specification allows, where every instance and every
    configured weight is at least 1, [get_agent] returns for every type the
    factory can create, under every algorithm: with one fresh instance
    created when none is healthy, and none created otherwise. *)
Lemma get_agent_returns_spec_weights t a now (s : LBS) :
  factory_get_agent t = Some a →
  Forall (λ x, 1 ≤ weight x) (pool_of t s) →
  1 ≤ default 1 (agent_weights s !! t) →
  ∃ a' s',
    get_agent t now s = (Ok a', s') ∧
    (healthy_from 0 (pool_of t s) = [] →
       a' = a ∧
       pool_of t s' = pool_of t s ++ [touch now (new_instance t a now s)]) ∧
    (healthy_from 0 (pool_of t s) ≠ [] →
       ∃ i x, pool_of t s !! i = Some x ∧ is_healthy x = true ∧
              agent x = a' ∧
              pool_of t s' = alter (touch now) i (pool_of t s)).
Proof.
  intros Hf Hall Hw. apply get_agent_returns; [done|]. intros _.
  unfold candidate_weight.
  destruct (healthy_from 0 (pool_of t s)) as [|p l] eqn:Hh; [lia|].
  enough (1 ≤ total_weight (p :: l)) by lia.
  apply total_weight_positive; [|done]. rewrite <- Hh.
  apply Forall_forall. intros [i x] Hin.
  apply healthy_from_lookup in Hin as (_ & Hl & _). simpl.
  rewrite Forall_forall in Hall. apply Hall. by eapply list_elem_of_lookup_2.
Qed.

(** C8, as the code has it: after [get_agent] the cursor of the type is, under
    round-robin, its previous value plus 1 reduced modulo the number of
    candidate instances (the healthy ones, or the single fallback instance);
    under weighted round-robin with a positive total weight it is its
    previous value plus 1, not reduced. *)
Theorem cursor_after_get_agent t a now (s : LBS) :
  factory_get_agent t = Some a →
  (algorithm s = ROUND_ROBIN →
     counter_of t (get_agent t now s).2 =
     (counter_of t s + 1) mod candidate_count t s) ∧
  (algorithm s = WEIGHTED_ROUND_ROBIN → 0 < candidate_weight t s →
     counter_of t (get_agent t now s).2 = counter_of t s + 1).
Proof.
  intros Hf. rewrite get_agent_unfold. unfold candidate_count, candidate_weight.
  destruct (healthy_ne_pool_ne t s) as [Hh|Hh].
  - rewrite (get_agent_instance_fallback _ a) by done. rewrite Hh.
    set (inst := new_instance t a now s).
    set (s1 := set_pool t (pool_of t s ++ [inst]) s).
    split; intros Ha.
    + unfold _select_instance. replace (algorithm s1) with ROUND_ROBIN by done.
      destruct (round_robin_select_spec [(length (pool_of t s), inst)] t s1)
        as (x & _ & ->); [done|]. simpl.
      by rewrite counter_of_set_pool, counter_of_set_counter.
    + intros Hpos. unfold _select_instance.
      replace (algorithm s1) with WEIGHTED_ROUND_ROBIN by done.
      destruct (weighted_select_spec [(length (pool_of t s), inst)] t s1)
        as (x & s' & -> & _ & _ & Hs'); [done|simpl; unfold inst; simpl; lia|].
      rewrite Hs' by (simpl; unfold inst; simpl; lia). simpl.
      by rewrite counter_of_set_pool, counter_of_set_counter.
  - rewrite get_agent_instance_healthy by done.
    destruct (healthy_from 0 (pool_of t s)) as [|y l] eqn:El; [done|].
    split; intros Ha.
    + unfold _select_instance. rewrite Ha.
      destruct (round_robin_select_spec (y :: l) t s) as (x & _ & ->); [done|].
      simpl finish. simpl snd.
      by rewrite counter_of_set_pool, counter_of_set_counter.
    + intros Hpos. unfold _select_instance. rewrite Ha.
      destruct (weighted_select_spec (y :: l) t s)
        as (x & s' & -> & _ & _ & Hs'); [done|lia|].
      rewrite Hs' by done. simpl.
      by rewrite counter_of_set_pool, counter_of_set_counter.
Qed.

(** *** Consecutive selections *)

Lemma healthy_from_alter_touch now i k (pool : list Inst) :
  map (λ p, (p.1, weight p.2)) (healthy_from k (alter (touch now) i pool)) =
  map (λ p, (p.1, weight p.2)) (healthy_from k pool).
Proof.
  revert i k. induction pool as [|x pool IH]; intros i k; [done|].
  destruct i as [|i]; simpl.
  - unfold is_healthy; simpl. by destruct (String.eqb _ _).
  - destruct (is_healthy x); simpl;
      [apply (f_equal (cons (k, weight x)))|]; exact (IH i (S k)).
Qed.

Lemma view_alter_touch now i (pool : list Inst) :
  view (alter (touch now) i pool) = view pool.
Proof. apply healthy_from_alter_touch. Qed.

Lemma view_nil (pool : list Inst) :
  view pool = [] ↔ healthy_from 0 pool = [].
Proof. unfold view. by destruct (healthy_from 0 pool). Qed.

Lemma view_length (pool : list Inst) :
  length (view pool) = length (healthy_from 0 pool).
Proof. unfold view. by rewrite length_map. Qed.

Lemma healthy_from_ge (pool : list Inst) k :
  Forall (λ i, (k ≤ i)%nat) (map fst (healthy_from k pool)).
Proof.
  revert k. induction pool as [|x pool IH]; intros k; simpl; [constructor|].
  specialize (IH (S k)).
  assert (Forall (λ i, (k ≤ i)%nat) (map fst (healthy_from (S k) pool))).
  { eapply Forall_impl; [exact IH|]. simpl. lia. }
  destruct (is_healthy x); simpl; [constructor; [lia|done]|done].
Qed.

Lemma healthy_from_NoDup (pool : list Inst) k :
  NoDup (map fst (healthy_from k pool)).
Proof.
  revert k. induction pool as [|x pool IH]; intros k; simpl; [constructor|].
  destruct (is_healthy x); simpl; [|apply IH].
  constructor; [|apply IH].
  intros Hin. pose proof (healthy_from_ge pool (S k)) as Hge.
  rewrite Forall_forall in Hge. apply Hge in Hin. lia.
Qed.

Lemma view_fst (pool : list Inst) :
  map fst (view pool) = map fst (healthy_from 0 pool).
Proof.
  unfold view. rewrite map_map. by apply map_ext.
Qed.

(** One round-robin call on a pool with a healthy instance. *)
Lemma round_robin_step t now (s : LBS) :
  algorithm s = ROUND_ROBIN →
  healthy_from 0 (pool_of t s) ≠ [] →
  let ixs := map fst (healthy_from 0 (pool_of t s)) in
  let n := Z.of_nat (length ixs) in
  ∃ x s',
    get_agent_instance t now s = (Ok x, s') ∧
    ixs !! Z.to_nat (counter_of t s mod n) = Some x.1 ∧
    algorithm s' = ROUND_ROBIN ∧
    view (pool_of t s') = view (pool_of t s) ∧
    counter_of t s' = (counter_of t s + 1) mod n.
Proof.
  intros Ha Hne ixs n. rewrite get_agent_instance_healthy by done.
  unfold _select_instance. rewrite Ha.
  destruct (round_robin_select_spec (healthy_from 0 (pool_of t s)) t s Hne)
    as (x & Hx & ->).
  subst n ixs. rewrite length_map.
  eexists x, _. split; [done|]. split_and!.
  - by rewrite list_lookup_fmap, Hx.
  - done.
  - rewrite pool_of_set_pool_eq, pool_of_set_counter. apply view_alter_touch.
  - by rewrite counter_of_set_pool, counter_of_set_counter.
Qed.

Lemma map_seqZ_congr {A : Type} (f : Z → A) n a b k :
  (∀ z z', z mod n = z' mod n → f z = f z') →
  a mod n = b mod n →
  map f (seqZ a (Z.of_nat k)) = map f (seqZ b (Z.of_nat k)).
Proof.
  intros Hf. revert a b. induction k as [|k IH]; intros a b Hab.
  - by rewrite !seqZ_nil by lia.
  - rewrite !(seqZ_cons _ (Z.of_nat (S k))) by lia. simpl.
    replace (Z.pred (Z.of_nat (S k))) with (Z.of_nat k) by lia.
    f_equal; [by apply Hf|]. apply IH.
    rewrite <- !Z.add_1_r, <- (Zplus_mod_idemp_l a), <- (Zplus_mod_idemp_l b).
    by rewrite Hab.
Qed.

(** [k] consecutive round-robin calls read the candidates cyclically from
    the cursor. *)
Lemma round_robin_acquire_n t now k (s : LBS) :
  algorithm s = ROUND_ROBIN →
  healthy_from 0 (pool_of t s) ≠ [] →
  let ixs := map fst (healthy_from 0 (pool_of t s)) in
  let n := Z.of_nat (length ixs) in
  ∃ s',
    acquire_n k t now s =
      (Ok (map (λ z, ixs !!! Z.to_nat (z mod n))
             (seqZ (counter_of t s) (Z.of_nat k))), s') ∧
    algorithm s' = ROUND_ROBIN ∧
    view (pool_of t s') = view (pool_of t s).
Proof.
  revert s. induction k as [|k IH]; intros s Ha Hne ixs n.
  - exists s. by rewrite seqZ_nil by lia.
  - destruct (round_robin_step t now s Ha Hne) as (x & s1 & Hget & Hx & Ha1 & Hv & Hc).
    fold ixs in Hx. fold n in Hx, Hc.
    assert (healthy_from 0 (pool_of t s1) ≠ []) as Hne1.
    { rewrite <- view_nil, Hv, view_nil. done. }
    destruct (IH s1 Ha1 Hne1) as (s' & Hacq & Ha' & Hv').
    assert (map fst (healthy_from 0 (pool_of t s1)) = ixs) as Hixs.
    { by rewrite <- !view_fst, Hv, view_fst. }
    rewrite Hixs in Hacq. fold n in Hacq.
    exists s'. split_and!; [|done|congruence].
    simpl. unfold bind at 1. rewrite Hget. unfold bind at 1. rewrite Hacq.
    unfold ret. f_equal. f_equal.
    rewrite (seqZ_cons _ (Z.of_nat (S k))) by lia. simpl.
    replace (Z.pred (Z.of_nat (S k))) with (Z.of_nat k) by lia.
    f_equal.
    + symmetry. by apply list_lookup_total_correct.
    + rewrite Hc. apply (map_seqZ_congr _ n).
      * by intros z z' ->.
      * rewrite <- Z.add_1_r. apply Z.mod_mod.
        subst n. destruct ixs; simpl in *; [|lia].
        by apply fmap_nil_inv in Hixs; rewrite Hixs in Hne1.
Qed.

Lemma cyclic_read_rotate {A : Type} `{!Inhabited A} (l : list A) c :
  l ≠ [] →
  map (λ z, l !!! Z.to_nat (z mod Z.of_nat (length l)))
    (seqZ c (Z.of_nat (length l))) =
  rotate (Z.to_nat (c mod Z.of_nat (length l))) l.
Proof.
  intros Hne.
  assert (0 < Z.of_nat (length l)) as Hlen by (destruct l; simpl in *; [done|lia]).
  pose proof (Z.mod_pos_bound c _ Hlen) as Hc.
  apply list_eq. intros i. change (map ?f ?x) with (f <$> x).
  rewrite list_lookup_fmap.
  destruct (decide (i < length l)%nat) as [Hi|Hi].
  - rewrite lookup_seqZ_lt by lia. simpl.
    rewrite lookup_rotate_r by done. unfold rotate_nat_add.
    rewrite Z2Nat.id by lia. rewrite Zplus_mod_idemp_l.
    symmetry. apply list_lookup_lookup_total_lt.
    pose proof (Z.mod_pos_bound (c + Z.of_nat i) _ Hlen). lia.
  - rewrite lookup_seqZ_ge by lia. simpl. symmetry.
    apply lookup_ge_None_2. rewrite length_rotate. lia.
Qed.

Lemma rotate_Permutation {A : Type} n (l : list A) : rotate n l ≡ₚ l.
Proof.
  unfold rotate. rewrite Permutation_app_comm. by rewrite take_drop.
Qed.

(** C4.  Under round-robin, on a pool with at least one healthy instance,
    [n + 1] consecutive [get_agent] calls all return, where [n] is the number
    of healthy instances: the first [n] select every healthy instance exactly
    once, the next one selects again the instance the first call selected,
    and the healthy instances are the same afterwards.  The state is
    arbitrary, so this holds from any point of a run. *)
Theorem round_robin_visits_each_once t now (s : LBS) :
  algorithm s = ROUND_ROBIN →
  healthy_from 0 (pool_of t s) ≠ [] →
  ∃ sels x s',
    acquire_n (S (length (healthy_from 0 (pool_of t s)))) t now s =
      (Ok (sels ++ [x]), s') ∧
    sels ≡ₚ map fst (healthy_from 0 (pool_of t s)) ∧
    NoDup sels ∧
    head sels = Some x ∧
    map fst (healthy_from 0 (pool_of t s')) =
    map fst (healthy_from 0 (pool_of t s)).
Proof.
  intros Ha Hne.
  destruct (round_robin_acquire_n t now
              (S (length (healthy_from 0 (pool_of t s)))) s Ha Hne)
    as (s' & Hacq & _ & Hv).
  set (ixs := map fst (healthy_from 0 (pool_of t s))) in *.
  assert (length ixs = length (healthy_from 0 (pool_of t s))) as Hlen
    by (unfold ixs; by rewrite length_map).
  assert (ixs ≠ []) as Hixs.
  { unfold ixs. by destruct (healthy_from 0 (pool_of t s)). }
  assert (0 < Z.of_nat (length ixs)) as Hpos
    by (destruct ixs; simpl in *; [done|lia]).
  rewrite <- Hlen in Hacq. simpl in Hacq.
  set (n := Z.of_nat (length ixs)) in *.
  set (f := λ z : Z, ixs !!! Z.to_nat (z mod n)) in *.
  assert (map f (seqZ (counter_of t s) (Z.of_nat (S (length ixs)))) =
          map f (seqZ (counter_of t s) n) ++ [f (counter_of t s + n)]) as Heq.
  { replace (Z.of_nat (S (length ixs))) with (n + 1) by lia.
    rewrite seqZ_app by lia. rewrite map_app.
    by rewrite (seqZ_cons _ 1), (seqZ_nil _ (Z.pred 1)) by lia. }
  rewrite Heq in Hacq.
  exists (map f (seqZ (counter_of t s) n)), (f (counter_of t s + n)), s'.
  rewrite <- Hlen. split; [exact Hacq|].
  assert (map f (seqZ (counter_of t s) n) ≡ₚ ixs) as Hperm.
  { unfold f, n. rewrite cyclic_read_rotate by done. apply rotate_Permutation. }
  split_and!.
  - done.
  - rewrite Hperm. apply healthy_from_NoDup.
  - rewrite (seqZ_cons _ n) by lia. simpl. f_equal. unfold f.
    by rewrite <- (Z_mod_plus_full (counter_of t s) 1 n), Z.mul_1_l.
  - unfold ixs. rewrite <- !view_fst. by rewrite Hv.
Qed.

(** *** Weighted round-robin *)

Lemma wrr_walk_view target cur (l : list (nat * Inst)) :
  fst <$> wrr_walk target cur l =
  band_walk target cur (map (λ p, (p.1, weight p.2)) l).
Proof.
  revert cur. induction l as [|y l IH]; intros cur; simpl; [done|].
  destruct (target <? cur + weight y.2); [done|apply IH].
Qed.

Lemma total_weight_view (l : list (nat * Inst)) :
  total_weight l = view_total (map (λ p, (p.1, weight p.2)) l).
Proof. induction l as [|y l IH]; simpl; [done|]. by rewrite <- IH. Qed.

(** One weighted call on candidates of positive total weight. *)
Lemma weighted_step t now (s : LBS) :
  algorithm s = WEIGHTED_ROUND_ROBIN →
  0 < view_total (view (pool_of t s)) →
  ∃ x s',
    get_agent_instance t now s = (Ok x, s') ∧
    band_walk (counter_of t s mod view_total (view (pool_of t s))) 0
      (view (pool_of t s)) = Some x.1 ∧
    algorithm s' = WEIGHTED_ROUND_ROBIN ∧
    view (pool_of t s') = view (pool_of t s) ∧
    counter_of t s' = counter_of t s + 1.
Proof.
  intros Ha Hpos.
  assert (healthy_from 0 (pool_of t s) ≠ []) as Hne.
  { intros Hnil. unfold view in Hpos. rewrite Hnil in Hpos. simpl in Hpos. lia. }
  rewrite get_agent_instance_healthy by done.
  unfold _select_instance. rewrite Ha. unfold _weighted_round_robin_select.
  unfold view in *. rewrite <- total_weight_view in *.
  destruct (total_weight _ =? 0) eqn:E; [apply Z.eqb_eq in E; lia|].
  pose proof (Z.mod_pos_bound (counter_of t s) _ Hpos) as Hb.
  destruct (wrr_walk_found
              (counter_of t s mod total_weight (healthy_from 0 (pool_of t s)))
              0 (healthy_from 0 (pool_of t s))) as [x Hx]; [lia..|].
  rewrite Hx. eexists x, _. split; [done|]. split_and!.
  - by rewrite <- wrr_walk_view, Hx.
  - done.
  - rewrite pool_of_set_pool_eq, pool_of_set_counter.
    apply healthy_from_alter_touch.
  - by rewrite counter_of_set_pool, counter_of_set_counter.
Qed.

Lemma weighted_acquire_n t now k (s : LBS) :
  algorithm s = WEIGHTED_ROUND_ROBIN →
  0 < view_total (view (pool_of t s)) →
  let v := view (pool_of t s) in
  ∃ s',
    acquire_n k t now s =
      (Ok (map (λ z, default 0%nat (band_walk (z mod view_total v) 0 v))
             (seqZ (counter_of t s) (Z.of_nat k))), s') ∧
    view (pool_of t s') = v.
Proof.
  revert s. induction k as [|k IH]; intros s Ha Hpos v.
  - exists s. by rewrite seqZ_nil by lia.
  - destruct (weighted_step t now s Ha Hpos) as (x & s1 & Hget & Hx & Ha1 & Hv & Hc).
    fold v in Hx, Hv.
    assert (0 < view_total (view (pool_of t s1))) as Hpos1 by by rewrite Hv.
    destruct (IH s1 Ha1 Hpos1) as (s' & Hacq & Hv').
    rewrite Hv, Hc in Hacq.
    exists s'. split; [|congruence].
    simpl. unfold bind at 1. rewrite Hget. unfold bind at 1. rewrite Hacq.
    unfold ret. f_equal. f_equal.
    rewrite (seqZ_cons _ (Z.of_nat (S k))) by lia. simpl.
    replace (Z.pred (Z.of_nat (S k))) with (Z.of_nat k) by lia.
    rewrite Hx. simpl. by rewrite <- Z.add_1_r.
Qed.

(** Reading the targets [cur, cur + total) through the bands gives every
    position as often as its weight. *)
Lemma map_const_replicate {A B : Type} (f : A → B) (b : B) (l : list A) :
  (∀ a, a ∈ l → f a = b) → map f l = replicate (length l) b.
Proof.
  induction l as [|a l IH]; intros Hf; simpl; [done|].
  rewrite Hf by set_solver. f_equal. apply IH. intros. apply Hf. set_solver.
Qed.

Lemma view_total_nonneg (v : list (nat * Z)) :
  Forall (λ x, 0 ≤ x.2) v → 0 ≤ view_total v.
Proof. induction 1; simpl; lia. Qed.

Lemma band_walk_bands (v : list (nat * Z)) cur :
  Forall (λ x, 0 ≤ x.2) v →
  map (λ z, default 0%nat (band_walk z cur v)) (seqZ cur (view_total v)) =
  flat_map (λ x, replicate (Z.to_nat x.2) x.1) v.
Proof.
  intros Hv. revert cur. induction Hv as [|x v Hx Hv IH]; intros cur; simpl.
  - done.
  - pose proof (view_total_nonneg v Hv).
    rewrite seqZ_app by lia. rewrite map_app. f_equal.
    + rewrite (map_const_replicate _ x.1).
      * by rewrite length_seqZ.
      * intros z [Hz1 Hz2]%elem_of_seqZ.
        destruct (z <? cur + x.2) eqn:E; [done|]. apply Z.ltb_ge in E. lia.
    + rewrite <- (IH (cur + x.2)). apply map_ext_in. intros z Hz.
      apply list_elem_of_In, elem_of_seqZ in Hz.
      destruct (z <? cur + x.2) eqn:E; [|done]. apply Z.ltb_lt in E. lia.
Qed.

Lemma count_occ_replicate (n : nat) (a i : nat) :
  count_occ Nat.eq_dec (replicate n a) i = if decide (a = i) then n else 0%nat.
Proof.
  induction n as [|n IH]; simpl.
  - by case_decide.
  - rewrite IH. destruct (Nat.eq_dec a i); case_decide; congruence.
Qed.

Lemma count_occ_bands (v : list (nat * Z)) i w :
  NoDup (map fst v) → (i, w) ∈ v →
  count_occ Nat.eq_dec (flat_map (λ x, replicate (Z.to_nat x.2) x.1) v) i =
  Z.to_nat w.
Proof.
  induction v as [|x v IH]; simpl; intros Hnd Hin.
  - by apply elem_of_nil in Hin.
  - apply NoDup_cons in Hnd as [Hx Hnd].
    rewrite count_occ_app, count_occ_replicate.
    apply elem_of_cons in Hin as [<-|Hin].
    + simpl. rewrite decide_True by done.
      rewrite (proj1 (count_occ_not_In Nat.eq_dec _ i)); [lia|].
      intros (y & Hy & Hi%list_elem_of_In)%in_flat_map.
      apply elem_of_replicate in Hi as [-> _].
      apply Hx. simpl. apply (list_elem_of_fmap_2 fst).
      by apply list_elem_of_In.
    + rewrite decide_False.
      * by rewrite IH.
      * intros <-. apply Hx. by apply (list_elem_of_fmap_2 fst) in Hin.
Qed.

Lemma residues_Permutation c W :
  0 < W → map (λ z, z mod W) (seqZ c W) ≡ₚ seqZ 0 W.
Proof.
  intros HW.
  assert (seqZ 0 W ≠ []) as Hne by (rewrite (seqZ_cons 0 W) by lia; done).
  pose proof (cyclic_read_rotate (seqZ 0 W) c Hne) as Hrot.
  rewrite length_seqZ, Z2Nat.id in Hrot by lia.
  replace (map (λ z, z mod W) (seqZ c W))
    with (map (λ z, seqZ 0 W !!! Z.to_nat (z mod W)) (seqZ c W)).
  { rewrite Hrot. apply rotate_Permutation. }
  apply map_ext. intros z.
  pose proof (Z.mod_pos_bound z W HW).
  rewrite lookup_total_seqZ_lt by lia. lia.
Qed.

(** C3.  Under weighted round-robin, with non-negative weights, as many
    consecutive [get_agent] calls as the total weight of the healthy
    instances all return, select each healthy instance exactly as often as
    its weight, and leave the healthy instances and their weights as they
    were.  The starting cursor is arbitrary. *)
Theorem weighted_round_robin_exact t now (s : LBS) :
  algorithm s = WEIGHTED_ROUND_ROBIN →
  Forall (λ p, 0 ≤ weight p.2) (healthy_from 0 (pool_of t s)) →
  ∃ sels s',
    acquire_n (Z.to_nat (total_weight (healthy_from 0 (pool_of t s)))) t now s
      = (Ok sels, s') ∧
    (∀ i x, (i, x) ∈ healthy_from 0 (pool_of t s) →
            Z.of_nat (count_occ Nat.eq_dec sels i) = weight x) ∧
    view (pool_of t s') = view (pool_of t s).
Proof.
  intros Ha Hw.
  set (v := view (pool_of t s)).
  assert (Forall (λ x : nat * Z, 0 ≤ x.2) v) as Hv.
  { unfold v, view. apply Forall_forall. intros x Hx.
    apply list_elem_of_fmap in Hx as (p & -> & Hp).
    rewrite Forall_forall in Hw. by apply Hw. }
  assert (NoDup (map fst v)) as Hnd.
  { unfold v. rewrite view_fst. apply healthy_from_NoDup. }
  assert (∀ i x, (i, x) ∈ healthy_from 0 (pool_of t s) → (i, weight x) ∈ v)
    as Hin.
  { intros i x Hx. unfold v, view.
    by apply (list_elem_of_fmap_2 (λ p : nat * Inst, (p.1, weight p.2))) in Hx. }
  rewrite total_weight_view. fold (view (pool_of t s)). fold v.
  pose proof (view_total_nonneg v Hv) as Hnn.
  assert (∀ sels,
            sels ≡ₚ flat_map (λ x, replicate (Z.to_nat x.2) x.1) v →
            ∀ i x, (i, x) ∈ healthy_from 0 (pool_of t s) →
                   Z.of_nat (count_occ Nat.eq_dec sels i) = weight x) as Hcount.
  { intros sels Hp i x Hx.
    rewrite (proj1 (Permutation_count_occ Nat.eq_dec _ _) Hp).
    rewrite (count_occ_bands v i (weight x)) by auto.
    rewrite Forall_forall in Hw. specialize (Hw (i, x)). simpl in Hw.
    rewrite Z2Nat.id; [done|]. by apply Hw. }
  destruct (decide (view_total v = 0)) as [H0|H0].
  - rewrite H0. simpl. exists [], s. split_and!; [done| |done].
    apply Hcount. rewrite <- band_walk_bands with (cur := 0) by done.
    rewrite H0. by rewrite seqZ_nil by lia.
  - destruct (weighted_acquire_n t now (Z.to_nat (view_total v)) s Ha)
      as (s' & Hacq & Hv'); [fold v; lia|].
    fold v in Hacq, Hv'. rewrite Z2Nat.id in Hacq by lia.
    eexists _, s'. split; [exact Hacq|]. split; [|done].
    apply Hcount. rewrite <- band_walk_bands with (cur := 0) by done.
    rewrite <- (residues_Permutation (counter_of t s) (view_total v)) by lia.
    rewrite map_map. done.
Qed.

(** *** Rules for [triple] *)

Lemma triple_ret {A : Type} (P : LBS → Prop) (a : A) (Q : A → LBS → Prop) E :
  (∀ s, P s → Q a s) → triple P (ret a) Q E.
Proof. intros HPQ s Hs. by apply HPQ. Qed.

Lemma triple_bind {A B : Type} (P : LBS → Prop) (m : M A) (k : A → M B)
  (Q : A → LBS → Prop) (R : B → LBS → Prop) E :
  triple P m Q E → (∀ a, triple (Q a) (k a) R E) → triple P (bind m k) R E.
Proof.
  intros Hm Hk s Hs. specialize (Hm s Hs). unfold bind.
  destruct (m s) as [[a|e] s']; [by apply Hk|done].
Qed.

Lemma triple_get (P : LBS → Prop) E :
  triple P get_state (λ a s, a = s ∧ P s) E.
Proof. by intros s Hs. Qed.

Lemma triple_modify (P : LBS → Prop) (f : LBS → LBS) (Q : unit → LBS → Prop) E :
  (∀ s, P s → Q tt (f s)) → triple P (modify f) Q E.
Proof. intros HPQ s Hs. by apply HPQ. Qed.

Lemma triple_conseq {A : Type} (P P' : LBS → Prop) (m : M A)
  (Q Q' : A → LBS → Prop) E :
  (∀ s, P' s → P s) → (∀ a s, Q a s → Q' a s) →
  triple P m Q E → triple P' m Q' E.
Proof.
  intros HP HQ Hm s Hs. specialize (Hm s (HP s Hs)).
  destruct (m s) as [[a|e] s']; [by apply HQ|done].
Qed.

Lemma triple_repeatM (P : LBS → Prop) (body : M unit) n :
  triple P body (λ _, P) P → triple P (repeatM n body) (λ _, P) P.
Proof.
  intros Hb. induction n as [|n IH]; simpl.
  - by apply triple_ret.
  - eapply triple_bind; [exact Hb|]. intros ?. exact IH.
Qed.

Lemma triple_forM {A : Type} (P : LBS → Prop) (body : A → M unit) l :
  (∀ a, triple P (body a) (λ _, P) P) → triple P (forM l body) (λ _, P) P.
Proof.
  intros Hb. induction l as [|a l IH]; simpl.
  - by apply triple_ret.
  - eapply triple_bind; [apply Hb|]. intros ?. exact IH.
Qed.

(** The state an operation leaves behind satisfies an invariant that its
    specification keeps on both exits. *)
Lemma triple_final {A : Type} (P : LBS → Prop) (m : M A) s :
  triple P m (λ _, P) P → P s → P (m s).2.
Proof. intros Hm Hs. specialize (Hm s Hs). by destruct (m s) as [[a|e] s']. Qed.

(** *** Pools never become empty *)

Lemma pools_nonempty_set_pool t p (s : LBS) :
  pools_nonempty s → p ≠ [] → pools_nonempty (set_pool t p s).
Proof.
  intros Hs Hp t' p'. unfold set_pool; simpl. rewrite alookup_aset.
  case_decide; [by intros [= <-]|apply Hs].
Qed.

Lemma pools_nonempty_eq (s s' : LBS) :
  agent_pools s' = agent_pools s → pools_nonempty s → pools_nonempty s'.
Proof. unfold pools_nonempty. by intros ->. Qed.

Lemma alter_nil_inv {A : Type} (f : A → A) i (l : list A) :
  l ≠ [] → alter f i l ≠ [].
Proof.
  intros Hl Ha. apply (f_equal length) in Ha. rewrite length_alter in Ha.
  by destruct l.
Qed.

Lemma create_nonempty t now :
  triple pools_nonempty (_create_agent_instance t now)
    (λ _ s, pools_nonempty s ∧ pool_of t s ≠ []) pools_nonempty.
Proof.
  intros s Hs. unfold LB._create_agent_instance.
  destruct (factory_get_agent t); [|done].
  rewrite pool_of_set_pool_eq.
  assert (pool_of t s ++ [new_instance t a now s] ≠ [])
    by (by destruct (pool_of t s)).
  split; [by apply pools_nonempty_set_pool|done].
Qed.

Lemma add_nonempty t w now :
  triple pools_nonempty (LB.add_agent_instance factory_get_agent t w now)
    (λ _, pools_nonempty) pools_nonempty.
Proof.
  eapply triple_bind; [apply create_nonempty|]. intros created.
  eapply (triple_bind _ _ _ (λ _, pools_nonempty));
    [|intros ?; by apply triple_ret].
  apply triple_modify. intros s [Hs Hp].
  apply pools_nonempty_set_pool; [done|by apply alter_nil_inv].
Qed.

Lemma scale_up_nonempty t n now :
  triple pools_nonempty (LB.scale_up factory_get_agent t n now)
    (λ _, pools_nonempty) pools_nonempty.
Proof.
  apply triple_repeatM.
  eapply triple_bind; [apply add_nonempty|]. intros ?. by apply triple_ret.
Qed.

Lemma remove_first_id_length id (l l' : list Inst) :
  remove_first_id id l = Some l' → length l = S (length l').
Proof.
  revert l'. induction l as [|x l IH]; intros l'; simpl; [done|].
  destruct (String.eqb (agent_id x) id); [by intros [= ->]|].
  destruct (remove_first_id id l) as [r|]; [|done].
  intros [= <-]. simpl. f_equal. by apply IH.
Qed.

(** [remove_agent_instance] takes at most one instance away. *)
Lemma remove_nonempty t id k :
  triple (λ s : LBS, pools_nonempty s ∧ (S k < length (pool_of t s))%nat)
    (remove_agent_instance t id)
    (λ _ s, pools_nonempty s ∧ (k < length (pool_of t s))%nat)
    pools_nonempty.
Proof.
  intros s [Hs Hk]. unfold remove_agent_instance.
  destruct (alookup t (agent_pools s)) as [instances|] eqn:Hp;
    [|split; [done|lia]].
  destruct (remove_first_id id instances) as [instances'|] eqn:Hr;
    [|split; [done|lia]].
  apply remove_first_id_length in Hr.
  assert (pool_of t s = instances) as Hpool by (unfold pool_of; by rewrite Hp).
  rewrite Hpool, Hr in Hk. rewrite pool_of_set_pool_eq.
  split; [|lia]. apply pools_nonempty_set_pool; [done|].
  destruct instances'; simpl in *; [lia|done].
Qed.

Lemma remove_loop_nonempty t (sorted : list Inst) (l : list nat) :
  triple (λ s : LBS, pools_nonempty s ∧ (length l < length (pool_of t s))%nat)
    (forM l (λ i, match sorted !! i with
                  | Some x =>
                      bind (remove_agent_instance t (agent_id x)) (λ _, ret tt)
                  | None => ret tt
                  end))
    (λ _, pools_nonempty) pools_nonempty.
Proof.
  induction l as [|i l IH]; simpl.
  - apply triple_ret. by intros s [? _].
  - eapply triple_bind; [|intros ?; exact IH].
    destruct (sorted !! i) as [x|].
    + eapply triple_bind; [apply (remove_nonempty t _ (length l))|].
      intros ?. by apply triple_ret.
    + apply triple_ret. intros s [? ?]. split; [done|lia].
Qed.

Lemma scale_down_nonempty t n :
  triple (pools_nonempty : LBS → Prop) (scale_down t n)
    (λ _, pools_nonempty) pools_nonempty.
Proof.
  eapply triple_bind; [apply triple_get|]. intros s0.
  destruct (alookup t (agent_pools s0)) as [instances|] eqn:Hp.
  - destruct (Z.of_nat (length instances) <=? n) eqn:E.
    + apply triple_ret. by intros s [_ ?].
    + apply Z.leb_gt in E.
      eapply triple_conseq; [| |apply remove_loop_nonempty]; [|done].
      intros s [<- Hs]. split; [done|].
      rewrite length_seq. unfold pool_of. rewrite Hp. simpl.
      pose proof (Hs _ _ Hp). destruct instances; simpl in *; [done|lia].
  - apply triple_ret. by intros s [_ ?].
Qed.

Lemma auto_scale_pool_nonempty now t :
  triple pools_nonempty (LB.auto_scale_pool factory_get_agent now t)
    (λ _, pools_nonempty) pools_nonempty.
Proof.
  eapply triple_bind; [apply triple_get|]. intros s0.
  cbv zeta. destruct (pool_of t s0); [apply triple_ret; by intros s [_ ?]|].
  repeat match goal with
         | |- context [if ?c then _ else _] => destruct c
         end;
    try (apply triple_ret; by intros s [_ ?]).
  - eapply triple_conseq; [| |apply scale_up_nonempty]; [by intros s [_ ?]|done].
  - eapply triple_conseq; [| |apply scale_down_nonempty]; [by intros s [_ ?]|done].
Qed.

Lemma auto_scale_nonempty now :
  triple pools_nonempty (LB.auto_scale factory_get_agent now)
    (λ _, pools_nonempty) pools_nonempty.
Proof.
  eapply triple_bind; [apply triple_get|]. intros s0.
  eapply triple_conseq; [| |apply triple_forM, auto_scale_pool_nonempty];
    [by intros s [_ ?]|done].
Qed.

Lemma select_instance_pools (l : list (nat * Inst)) t (s : LBS) :
  agent_pools (_select_instance l t s).2 = agent_pools s.
Proof.
  unfold _select_instance, _round_robin_select, _least_connections_select,
    _weighted_round_robin_select, _response_time_select, raise, ret.
  destruct (algorithm s).
  - destruct (_ =? 0); [done|]. by destruct (l !! _).
  - by destruct (py_min _ _ l).
  - destruct (_ =? 0); [done|]. destruct (wrr_walk _ _ _); [done|].
    by destruct l.
  - by destruct (py_min _ _ l).
Qed.

Lemma get_agent_instance_nonempty t now :
  triple pools_nonempty (get_agent_instance t now)
    (λ _, pools_nonempty) pools_nonempty.
Proof.
  eapply triple_bind; [apply triple_get|]. intros s0.
  eapply (triple_bind _ _ _ (λ _ s, pools_nonempty s ∧ pool_of t s ≠ [])).
  { destruct (alookup t (agent_pools s0)) as [[|x p]|] eqn:Hp.
    - eapply triple_bind.
      + eapply triple_conseq; [| |apply create_nonempty]; [by intros s [_ ?]|done].
      + intros ?. by apply triple_ret.
    - apply triple_ret. intros s [<- Hs]. split; [done|].
      unfold pool_of. by rewrite Hp.
    - eapply triple_bind.
      + eapply triple_conseq; [| |apply create_nonempty]; [by intros s [_ ?]|done].
      + intros ?. by apply triple_ret. }
  intros ?. cbv beta.
  eapply triple_bind; [apply triple_get|]. intros s1.
  eapply (triple_bind _ _ _ (λ _ s, pools_nonempty s ∧ pool_of t s ≠ [])).
  { destruct (healthy_from 0 (pool_of t s1)).
    - eapply triple_bind.
      + eapply triple_conseq; [| |apply create_nonempty];
          [by intros s [_ [? ?]]|done].
      + intros inst. by apply triple_ret.
    - apply triple_ret. by intros s [_ ?]. }
  intros instances.
  eapply (triple_bind _ _ _ (λ _ s, pools_nonempty s ∧ pool_of t s ≠ [])).
  { intros s [Hs Hp]. pose proof (select_instance_pools instances t s) as Heq.
    destruct (_select_instance instances t s) as [[sel|e] s']; simpl in Heq.
    - split; [by eapply pools_nonempty_eq|by rewrite (pool_of_eq _ _ _ Heq)].
    - by eapply pools_nonempty_eq. }
  intros selected.
  eapply (triple_bind _ _ _ (λ _, pools_nonempty));
    [|intros ?; by apply triple_ret].
  apply triple_modify. intros s [Hs Hp].
  apply pools_nonempty_set_pool; [done|by apply alter_nil_inv].
Qed.

Lemma get_agent_nonempty t now :
  triple pools_nonempty (get_agent t now) (λ _, pools_nonempty) pools_nonempty.
Proof.
  eapply triple_bind; [apply get_agent_instance_nonempty|].
  intros sel. by apply triple_ret.
Qed.

(** *** Shrinking and auto-scaling keep a pool within its ceiling *)

Lemma remove_at_most t t' id c :
  triple (pool_at_most t c : LBS → Prop) (remove_agent_instance t' id)
    (λ _, pool_at_most t c) (pool_at_most t c).
Proof.
  intros s Hs. unfold remove_agent_instance.
  destruct (alookup t' (agent_pools s)) as [instances|] eqn:Hp; [|done].
  destruct (remove_first_id id instances) as [instances'|] eqn:Hr; [|done].
  apply remove_first_id_length in Hr. unfold pool_at_most in *.
  destruct (decide (t' = t)) as [->|Hne].
  - rewrite pool_of_set_pool_eq. unfold pool_of in Hs. rewrite Hp in Hs.
    simpl in Hs. lia.
  - by rewrite pool_of_set_pool_ne.
Qed.

Lemma scale_down_at_most t t' n c :
  triple (pool_at_most t c : LBS → Prop) (scale_down t' n)
    (λ _, pool_at_most t c) (pool_at_most t c).
Proof.
  eapply triple_bind; [apply triple_get|]. intros s0.
  destruct (alookup t' (agent_pools s0)) as [instances|];
    [|apply triple_ret; by intros s [_ ?]].
  destruct (_ <=? n); [apply triple_ret; by intros s [_ ?]|].
  eapply triple_conseq; [| |apply triple_forM]; [by intros s [_ ?]|done|].
  intros i. destruct (_ !! i); [|by apply triple_ret].
  eapply triple_bind; [apply remove_at_most|]. intros ?. by apply triple_ret.
Qed.

Lemma scale_up_one_at_most t t' now c :
  triple (λ s : LBS, pool_at_most t c s ∧ (length (pool_of t' s) < c)%nat)
    (LB.scale_up factory_get_agent t' 1 now)
    (λ _, pool_at_most t c) (pool_at_most t c).
Proof.
  intros s [Hs Hlt].
  unfold LB.scale_up, LB.add_agent_instance, LB._create_agent_instance.
  change (Z.to_nat 1) with 1%nat. unfold repeatM, bind, modify, ret.
  destruct (factory_get_agent t'); [|done].
  unfold pool_at_most in *. destruct (decide (t' = t)) as [->|Hne].
  - rewrite !pool_of_set_pool_eq, length_alter, length_app. simpl. lia.
  - by rewrite !pool_of_set_pool_ne.
Qed.

Lemma auto_scale_pool_at_most t now t' :
  triple (pool_at_most t 5 : LBS → Prop)
    (LB.auto_scale_pool factory_get_agent now t')
    (λ _, pool_at_most t 5) (pool_at_most t 5).
Proof.
  eapply triple_bind; [apply triple_get|]. intros s0.
  cbv zeta. destruct (pool_of t' s0) as [|x p] eqn:Hp;
    [apply triple_ret; by intros s [_ ?]|].
  destruct (f_lt (f_mul _ f_0_7) _).
  - destruct (_ <? 5) eqn:E; [|apply triple_ret; by intros s [_ ?]].
    apply Z.ltb_lt in E.
    eapply triple_conseq; [| |apply scale_up_one_at_most]; [|done].
    intros s [<- Hs]. split; [done|]. rewrite Hp. lia.
  - destruct (_ && _); [|apply triple_ret; by intros s [_ ?]].
    eapply triple_conseq; [| |apply scale_down_at_most]; [by intros s [_ ?]|done].
Qed.

Lemma auto_scale_at_most t now :
  triple (pool_at_most t 5 : LBS → Prop) (LB.auto_scale factory_get_agent now)
    (λ _, pool_at_most t 5) (pool_at_most t 5).
Proof.
  eapply triple_bind; [apply triple_get|]. intros s0.
  eapply triple_conseq; [| |apply triple_forM, auto_scale_pool_at_most];
    [by intros s [_ ?]|done].
Qed.

(** The state built by [__init__] has no empty pool, whether or not the
    factory raises on the way. *)
Lemma new_LoadBalancer_nonempty a now :
  pools_nonempty (LB.new_LoadBalancer factory_get_agent a now).2.
Proof.
  unfold LB.new_LoadBalancer, LB._initialize_agent_pools.
  apply (triple_final pools_nonempty); [|by intros t p].
  apply triple_forM. intros t. apply triple_repeatM.
  eapply triple_bind.
  - eapply triple_conseq; [| |apply create_nonempty]; [done|].
    intros r s [Hs _]. exact Hs.
  - intros ?. by apply triple_ret.
Qed.

Lemma lb_step_nonempty (o : lb_op) (s : LBS) :
  pools_nonempty s → pools_nonempty (LB.lb_step factory_get_agent o s).
Proof.
  intros Hs. destruct o as [t n now|t n|now|t now]; simpl;
    apply (triple_final pools_nonempty); try done.
  - apply scale_up_nonempty.
  - apply scale_down_nonempty.
  - apply auto_scale_nonempty.
  - apply get_agent_nonempty.
Qed.

Lemma lb_step_at_most t (o : lb_op) (s : LBS) :
  shrinks_or_auto o = true →
  pool_at_most t 5 s → pool_at_most t 5 (LB.lb_step factory_get_agent o s).
Proof.
  intros Ho Hs. destruct o as [t' n now|t' n|now|t' now]; simpl in *; try done;
    apply (triple_final (pool_at_most t 5)); try done.
  - apply scale_down_at_most.
  - apply auto_scale_at_most.
Qed.

(** C5, as the code has it.  Along every sequence of [scale_up],
    [scale_down], [auto_scale] and [get_agent] calls, returning or raising,
    every pool of the dict keeps at least one instance; and along every
    sequence of [scale_down] and [auto_scale] calls a pool of at most 5
    instances stays at most 5. *)
Theorem pool_size_bounds (ops : list (lb_op (float := float))) (s : LBS) :
  pools_nonempty s →
  (∀ t p, alookup t (agent_pools (LB.lb_run factory_get_agent ops s)) = Some p →
          (1 ≤ length p)%nat) ∧
  (∀ t, forallb shrinks_or_auto ops = true →
        (length (pool_of t s) ≤ 5)%nat →
        (length (pool_of t (LB.lb_run factory_get_agent ops s)) ≤ 5)%nat).
Proof.
  intros Hs. split.
  - assert (pools_nonempty (LB.lb_run factory_get_agent ops s)) as Hne.
    { revert s Hs. induction ops as [|o ops IH]; intros s Hs; simpl; [done|].
      apply IH. by apply lb_step_nonempty. }
    intros t p Hp. specialize (Hne t p Hp). destruct p; simpl; [done|lia].
  - intros t. clear Hs. revert s.
    induction ops as [|o ops IH]; intros s Hall Hlen; simpl; [done|].
    simpl in Hall. apply andb_prop in Hall as [Ho Hall].
    apply IH; [done|]. by apply lb_step_at_most.
Qed.

End LoadBalancerFacts.

(** ** The load balancer on concrete pools *)

Example pool_322_seven_calls :
  (LB.acquire_n Run.fac 7 "Pool" 0%Q Run.pool_322).1 =
  Ok [0; 0; 0; 1; 1; 2; 2]%nat.
Proof. vm_compute. reflexivity. Qed.

Lemma get_agent_returns_witness :
  Run.fac "Tax Agent" = Some "agent:Tax Agent" ∧
  ∃ a' s',
    LB.get_agent Run.fac "Tax Agent" 0%Q
      (Run.fresh_balancer LB.WEIGHTED_ROUND_ROBIN) = (Ok a', s').
Proof.
  split; [reflexivity|].
  destruct (get_agent_returns Run.fac "Tax Agent" "agent:Tax Agent" 0%Q
              (Run.fresh_balancer LB.WEIGHTED_ROUND_ROBIN))
    as (a' & s' & Hget & _).
  - reflexivity.
  - intros _. vm_compute. discriminate.
  - exists a', s'. exact Hget.
Defined.

(** C1.  The claim says that [get_agent] never raises for a type the factory
    can create.  The code breaks it when the total weight is zero: on a
    freshly constructed balancer under weighted round-robin, once
    [set_agent_weight] has set the weight of the tax agents to 0,
    [get_agent] for that type raises [ZeroDivisionError] at
    [counter % total_weight], although the factory can create the type. *)
Lemma get_agent_raises_on_zero_weight :
  Run.fac "Tax Agent" = Some "agent:Tax Agent" ∧
  (LB.get_agent Run.fac "Tax Agent" 0%Q Run.zero_weight).1 =
  Raise ZeroDivisionError.
Proof. split; vm_compute; reflexivity. Qed.

Lemma weighted_round_robin_exact_witness :
  ∃ sels s',
    LB.acquire_n Run.fac
      (Z.to_nat (LB.total_weight (LB.healthy_from 0 (LB.pool_of "Pool" Run.pool_322))))
      "Pool" 0%Q Run.pool_322 = (Ok sels, s') ∧
    (∀ i x, (i, x) ∈ LB.healthy_from 0 (LB.pool_of "Pool" Run.pool_322) →
            Z.of_nat (count_occ Nat.eq_dec sels i) = LB.weight x) ∧
    LB.view (LB.pool_of "Pool" s') = LB.view (LB.pool_of "Pool" Run.pool_322).
Proof.
  apply (weighted_round_robin_exact Run.fac "Pool" 0%Q Run.pool_322).
  - reflexivity.
  - vm_compute. repeat (constructor; [discriminate|]). constructor.
Defined.

Lemma round_robin_visits_each_once_witness :
  ∃ sels x s',
    LB.acquire_n Run.fac
      (S (length (LB.healthy_from 0
                    (LB.pool_of "Dabby Consultant"
                       (Run.fresh_balancer LB.ROUND_ROBIN)))))
      "Dabby Consultant" 0%Q (Run.fresh_balancer LB.ROUND_ROBIN) =
      (Ok (sels ++ [x]), s') ∧
    sels ≡ₚ map fst (LB.healthy_from 0
                       (LB.pool_of "Dabby Consultant"
                          (Run.fresh_balancer LB.ROUND_ROBIN))) ∧
    NoDup sels ∧
    head sels = Some x ∧
    map fst (LB.healthy_from 0 (LB.pool_of "Dabby Consultant" s')) =
    map fst (LB.healthy_from 0
               (LB.pool_of "Dabby Consultant"
                  (Run.fresh_balancer LB.ROUND_ROBIN))).
Proof.
  apply (round_robin_visits_each_once Run.fac "Dabby Consultant" 0%Q
           (Run.fresh_balancer LB.ROUND_ROBIN)).
  - reflexivity.
  - vm_compute. discriminate.
Defined.

Lemma pool_size_bounds_witness :
  LB.pools_nonempty (Run.fresh_balancer LB.ROUND_ROBIN) ∧
  (∀ t p,
     alookup t
       (LB.agent_pools
          (LB.lb_run Run.fac
             [LB.OpScaleDown "Dabby Consultant" 7; LB.OpAutoScale 0%Q]
             (Run.fresh_balancer LB.ROUND_ROBIN))) = Some p →
     (1 ≤ length p)%nat) ∧
  (∀ t,
     forallb LB.shrinks_or_auto
       [LB.OpScaleDown "Dabby Consultant" 7; LB.OpAutoScale 0%Q] = true →
     (length (LB.pool_of t (Run.fresh_balancer LB.ROUND_ROBIN)) ≤ 5)%nat →
     (length
        (LB.pool_of t
           (LB.lb_run Run.fac
              [LB.OpScaleDown "Dabby Consultant" 7; LB.OpAutoScale 0%Q]
              (Run.fresh_balancer LB.ROUND_ROBIN))) ≤ 5)%nat).
Proof.
  assert (LB.pools_nonempty (Run.fresh_balancer LB.ROUND_ROBIN)) as Hne.
  { intros t p. vm_compute.
    repeat match goal with
           | |- context [if ?c then _ else _] => destruct c
           end; intros [= <-]; discriminate. }
  split; [exact Hne|].
  exact (pool_size_bounds Run.fac
           [LB.OpScaleDown "Dabby Consultant" 7; LB.OpAutoScale 0%Q]
           (Run.fresh_balancer LB.ROUND_ROBIN) Hne).
Defined.

(** C5 as stated fails: [scale_up] has no ceiling. *)
Lemma scale_up_exceeds_five :
  length (LB.pool_of "Dabby Consultant" (Run.fresh_balancer LB.ROUND_ROBIN))
  = 2%nat ∧
  length (LB.pool_of "Dabby Consultant"
            (LB.lb_run Run.fac [LB.OpScaleUp "Dabby Consultant" 4 0%Q]
               (Run.fresh_balancer LB.ROUND_ROBIN))) = 6%nat.
Proof. split; vm_compute; reflexivity. Qed.

Lemma cursor_after_get_agent_witness :
  LB.counter_of "Tax Agent"
    (LB.get_agent Run.fac "Tax Agent" 0%Q
       (Run.fresh_balancer LB.WEIGHTED_ROUND_ROBIN)).2 =
  LB.counter_of "Tax Agent" (Run.fresh_balancer LB.WEIGHTED_ROUND_ROBIN) + 1.
Proof.
  apply (cursor_after_get_agent Run.fac "Tax Agent" "agent:Tax Agent" 0%Q
           (Run.fresh_balancer LB.WEIGHTED_ROUND_ROBIN)).
  - reflexivity.
  - reflexivity.
  - vm_compute. reflexivity.
Defined.

(** C8 as stated fails on both counts.  Under weighted round-robin the
    stored cursor is not reduced: two calls on a pool of total weight 2 leave
    it at 2.  Under round-robin the modulus is the number of healthy
    instances, not the size of the pool: with one of two instances
    unhealthy the cursor stays 0. *)
Lemma cursor_not_as_claimed :
  let s0 := Run.fresh_balancer LB.WEIGHTED_ROUND_ROBIN in
  let s1 := (LB.get_agent Run.fac "Tax Agent" 0%Q s0).2 in
  let s2 := (LB.get_agent Run.fac "Tax Agent" 0%Q s1).2 in
  let u := Run.one_unhealthy in
  let u1 := (LB.get_agent Run.fac "Dabby Consultant" 0%Q u).2 in
  (LB.total_weight (LB.healthy_from 0 (LB.pool_of "Tax Agent" s1)) = 2 ∧
   LB.counter_of "Tax Agent" s1 = 1 ∧
   LB.counter_of "Tax Agent" s2 = 2 ∧
   LB.counter_of "Tax Agent" s2 ≠ (LB.counter_of "Tax Agent" s1 + 1) mod 2) ∧
  (length (LB.pool_of "Dabby Consultant" u) = 2%nat ∧
   LB.counter_of "Dabby Consultant" u = 0 ∧
   LB.counter_of "Dabby Consultant" u1 = 0 ∧
   LB.counter_of "Dabby Consultant" u1 ≠
   (LB.counter_of "Dabby Consultant" u + 1) mod 2).
Proof. vm_compute. repeat split; discriminate. Qed.

(** * Facts about the scheduler *)

Section SchedulerFacts.

Context {Agent : Type}.
Variable fromisoformat : string → option Z.
Variable isoformat : Z → string.
Variable year_str : Z → string.

Import Sched.

Local Abbreviation W := (World Agent).
Local Abbreviation schedule_task := (Sched.schedule_task fromisoformat isoformat).
Local Abbreviation _execute_task := (Sched._execute_task isoformat year_str).
Local Abbreviation fire_job := (Sched.fire_job isoformat year_str).
Local Abbreviation cancel_task := (Sched.cancel_task isoformat).
Local Abbreviation reschedule_task :=
  (Sched.reschedule_task fromisoformat isoformat).
Local Abbreviation step :=
  (Sched.step (Agent := Agent) fromisoformat isoformat year_str).
Local Abbreviation reachable :=
  (Sched.reachable (Agent := Agent) fromisoformat isoformat year_str).

(** C10.  [_execute_task] on an id that is not in [self.tasks] returns
    without touching anything. *)
Theorem execute_unknown_id (w : W) id (s : TaskScheduler) :
  tasks s !! id = None → _execute_task w id s = s.
Proof. intros Hid. unfold Sched._execute_task. by rewrite Hid. Qed.

(** C9.  [schedule_task] returns the id drawn by [uuid4] and the record is
    stored under it; when [add_job] raises, the record is there all the same,
    with status [failed] and the message of the exception, and no job is
    registered by the call. *)
Theorem schedule_task_stores (w : W) tt0 sid at0 st ps (s : TaskScheduler) :
  (schedule_task w tt0 sid at0 st ps s).1 = uuid4 w ∧
  ∃ ti,
    get_task_status (schedule_task w tt0 sid at0 st ps s).1
      (schedule_task w tt0 sid at0 st ps s).2 = Some ti ∧
    task_id ti = uuid4 w ∧
    match add_job_error w with
    | Some e =>
        status ti = failed ∧ error ti = Some e ∧
        jobs (schedule_task w tt0 sid at0 st ps s).2 = jobs s
    | None =>
        status ti = scheduled ∧ error ti = None ∧
        is_Some (jobs (schedule_task w tt0 sid at0 st ps s).2 !! uuid4 w)
    end.
Proof.
  unfold Sched.schedule_task, get_task_status.
  destruct (if truthy st then _ else _) as [d k].
  destruct (add_job_error w) as [e|]; simpl.
  - split; [done|]. eexists. rewrite lookup_insert_eq. by split_and!.
  - split; [done|]. eexists. rewrite !lookup_insert_eq. by split_and!.
Qed.


(** C6, as the code has it.  [cancel_task] answers [True] exactly when the
    job exists, is [scheduled] and its timer is still pending (so that
    [remove_job] does not raise); it then marks the job [cancelled]; in every
    other case it answers [False] and the state is untouched.
    [reschedule_task] answers [True] exactly when the job exists, is
    [scheduled], the time parses, the timer is still pending and [add_job]
    does not raise; when it answers [False] no job record has changed. *)
Theorem cancel_reschedule_outcomes (w : W) id (s : TaskScheduler) :
  ((cancel_task w id s).1 = true ↔
   ∃ ti, tasks s !! id = Some ti ∧ status ti = scheduled ∧
         is_Some (jobs s !! id)) ∧
  ((cancel_task w id s).1 = true →
   status <$> tasks (cancel_task w id s).2 !! id = Some cancelled) ∧
  ((cancel_task w id s).1 = false → (cancel_task w id s).2 = s) ∧
  (∀ str,
     ((reschedule_task w id str s).1 = true ↔
      ∃ ti, tasks s !! id = Some ti ∧ status ti = scheduled ∧
            is_Some (fromisoformat (replace_Z str)) ∧
            is_Some (jobs s !! id) ∧ add_job_error w = None) ∧
     ((reschedule_task w id str s).1 = false →
      tasks (reschedule_task w id str s).2 = tasks s)).
Proof.
  unfold Sched.cancel_task, Sched.reschedule_task.
  destruct (tasks s !! id) as [ti|] eqn:Hti.
  2:{ split_and!; try done; [split; [done|by intros (? & ? & _)]|].
      intros str. split; [|done]. split; [done|by intros (? & ? & _)]. }
  destruct (status ti) eqn:Hst.
  2-5: split_and!; try done;
       [split; [done|intros (? & [= <-] & ? & _); congruence]|];
       intros str; (split; [|done]);
       (split; [done|intros (? & [= <-] & ? & _); congruence]).
  destruct (jobs s !! id) as [j|] eqn:Hj.
  - split_and!; simpl.
    + split; [eauto 10|done].
    + intros _. by rewrite lookup_insert_eq.
    + done.
    + intros str. destruct (fromisoformat (replace_Z str)) as [d|] eqn:Hp.
      * destruct (add_job_error w) as [e|] eqn:He; simpl.
        -- split; [|done]. split; [done|by intros (? & _ & _ & _ & _ & ?)].
        -- split; [|done]. split; [eauto 10|done].
      * simpl. split; [|done].
        split; [done|intros (? & _ & _ & [? ?] & _); done].
  - split_and!; simpl; try done.
    + split; [done|intros (? & _ & _ & [? ?]); done].
    + intros str. destruct (fromisoformat (replace_Z str)); simpl;
        (split; [|done]);
        (split; [done|intros (? & _ & _ & _ & [? ?] & _); done]).
Qed.

(** *** Status histories *)

Lemma writes_of_app id h1 h2 :
  writes_of id (h1 ++ h2) = writes_of id h1 ++ writes_of id h2.
Proof. unfold writes_of. by rewrite List.filter_app, map_app. Qed.

Lemma writes_of_cons_eq id a h :
  writes_of id ((id, a) :: h) = a :: writes_of id h.
Proof. unfold writes_of. simpl. by rewrite String.eqb_refl. Qed.

Lemma writes_of_cons_ne id id' a h :
  id ≠ id' → writes_of id' ((id, a) :: h) = writes_of id' h.
Proof.
  intros Hne. unfold writes_of. simpl.
  destruct (String.eqb id id') eqn:E; [|done].
  apply String.eqb_eq in E. congruence.
Qed.

Lemma writes_of_nil id : writes_of id [] = [].
Proof. reflexivity. Qed.

Lemma chain_snoc R h b :
  chain R (h ++ [b]) =
  chain R h && match last h with Some a => R a b | None => true end.
Proof.
  induction h as [|a h IH]; simpl; [done|].
  destruct h as [|a' h]; simpl in *.
  - by rewrite andb_true_r.
  - rewrite IH. by rewrite andb_assoc.
Qed.

(** A history that ends in [scheduled] stays valid when the life cycle
    continues from there. *)
Lemma valid_history_extend h a b :
  valid_history h → last h = Some scheduled →
  lifecycle scheduled a = true → lifecycle a b = true →
  valid_history (h ++ [a; b]).
Proof.
  intros [->|Hc] Hl Ha Hb; [done|]. right.
  change (h ++ [a; b]) with (h ++ [a] ++ [b]). rewrite app_assoc.
  by rewrite !chain_snoc, Hc, Hl, last_snoc, Ha, Hb.
Qed.

Lemma valid_history_snoc h a :
  valid_history h → last h = Some scheduled →
  lifecycle scheduled a = true → valid_history (h ++ [a]).
Proof.
  intros [->|Hc] Hl Ha; [done|]. right. by rewrite chain_snoc, Hc, Hl, Ha.
Qed.

(** Rewriting the history of [id'] after writes on [id]. *)
Ltac same_id :=
  rewrite ?lookup_insert_eq, ?writes_of_app, ?writes_of_cons_eq,
    ?writes_of_nil.
Ltac other_id Hne :=
  rewrite ?lookup_insert_ne by done;
  rewrite ?writes_of_app, ?(writes_of_cons_ne _ _ _ _ Hne), ?writes_of_nil,
    ?app_nil_r.

Lemma schedule_task_consistent (w : W) tt0 sid at0 st ps (s : TaskScheduler) :
  tasks s !! uuid4 w = None →
  consistent s → consistent (schedule_task w tt0 sid at0 st ps s).2.
Proof.
  intros Hfresh [Hj Hh Hv]. unfold Sched.schedule_task.
  destruct (if truthy st then _ else _) as [d k].
  pose proof (Hh (uuid4 w)) as Hnil. rewrite Hfresh in Hnil.
  destruct (add_job_error w) as [e|]; simpl; split; simpl; intros id.
  - intros Hin. destruct (Hj id Hin) as (ti & Hti & Hs).
    assert (uuid4 w ≠ id) by congruence.
    exists ti. by rewrite lookup_insert_ne.
  - destruct (decide (uuid4 w = id)) as [<-|Hne].
    + same_id. by rewrite Hnil.
    + other_id Hne. apply Hh.
  - destruct (decide (uuid4 w = id)) as [<-|Hne].
    + same_id. rewrite Hnil. by left.
    + other_id Hne. apply Hv.
  - destruct (decide (uuid4 w = id)) as [<-|Hne].
    + intros _. eexists. by rewrite lookup_insert_eq.
    + rewrite !lookup_insert_ne by done. apply Hj.
  - destruct (decide (uuid4 w = id)) as [<-|Hne].
    + same_id. by rewrite Hnil.
    + other_id Hne. apply Hh.
  - destruct (decide (uuid4 w = id)) as [<-|Hne].
    + same_id. rewrite Hnil. by right.
    + other_id Hne. apply Hv.
Qed.

Lemma _execute_task_consistent (w : W) id (s : TaskScheduler) :
  (∀ ti, tasks s !! id = Some ti → status ti = scheduled) →
  jobs s !! id = None →
  consistent s → consistent (_execute_task w id s).
Proof.
  intros Hsched Hnojob [Hj Hh Hv]. unfold Sched._execute_task.
  destruct (tasks s !! id) as [ti|] eqn:Hti; [|done].
  specialize (Hsched ti eq_refl).
  pose proof (Hh id) as Hlast. rewrite Hti, Hsched in Hlast.
  destruct (run_handler _ _ _) as [[r|e] k]; split; simpl; intros id'.
  - intros Hin. destruct (decide (id = id')) as [<-|Hne].
    + rewrite Hnojob in Hin. by destruct Hin.
    + rewrite lookup_insert_ne by done. by apply Hj.
  - destruct (decide (id = id')) as [<-|Hne].
    + same_id. by rewrite last_app.
    + other_id Hne. apply Hh.
  - destruct (decide (id = id')) as [<-|Hne].
    + same_id. by apply valid_history_extend.
    + other_id Hne. apply Hv.
  - intros Hin. destruct (decide (id = id')) as [<-|Hne].
    + rewrite Hnojob in Hin. by destruct Hin.
    + rewrite lookup_insert_ne by done. by apply Hj.
  - destruct (decide (id = id')) as [<-|Hne].
    + same_id. by rewrite last_app.
    + other_id Hne. apply Hh.
  - destruct (decide (id = id')) as [<-|Hne].
    + same_id. by apply valid_history_extend.
    + other_id Hne. apply Hv.
Qed.

Lemma fire_job_consistent (w : W) id (s : TaskScheduler) :
  consistent s → consistent (fire_job w id s).
Proof.
  intros Hs. unfold Sched.fire_job.
  destruct (jobs s !! id) as [j|] eqn:Hjob; [|done].
  destruct Hs as [Hj Hh Hv].
  destruct (Hj id) as (ti & Hti & Hst); [by rewrite Hjob|].
  apply _execute_task_consistent; simpl.
  - intros ti' Hti'. congruence.
  - apply lookup_delete_eq.
  - split; simpl; [|done..]. intros id' Hin. apply Hj.
    destruct (decide (id = id')) as [<-|Hne].
    + rewrite lookup_delete_eq in Hin. by destruct Hin.
    + by rewrite lookup_delete_ne in Hin.
Qed.

Lemma cancel_task_consistent (w : W) id (s : TaskScheduler) :
  consistent s → consistent (cancel_task w id s).2.
Proof.
  intros [Hj Hh Hv]. unfold Sched.cancel_task.
  destruct (tasks s !! id) as [ti|] eqn:Hti; [|done].
  destruct (status ti) eqn:Hst; try done.
  destruct (jobs s !! id) as [j|] eqn:Hjob; [|done].
  pose proof (Hh id) as Hlast. rewrite Hti, Hst in Hlast.
  split; simpl; intros id'.
  - intros Hin. destruct (decide (id = id')) as [<-|Hne].
    + rewrite lookup_delete_eq in Hin. by destruct Hin.
    + rewrite lookup_delete_ne in Hin by done.
      rewrite lookup_insert_ne by done. by apply Hj.
  - destruct (decide (id = id')) as [<-|Hne].
    + same_id. by rewrite last_snoc.
    + other_id Hne. apply Hh.
  - destruct (decide (id = id')) as [<-|Hne].
    + same_id. by apply valid_history_snoc.
    + other_id Hne. apply Hv.
Qed.

Lemma reschedule_task_consistent (w : W) id str (s : TaskScheduler) :
  consistent s → consistent (reschedule_task w id str s).2.
Proof.
  intros [Hj Hh Hv]. unfold Sched.reschedule_task.
  destruct (tasks s !! id) as [ti|] eqn:Hti; [|done].
  destruct (status ti) eqn:Hst; try done.
  destruct (fromisoformat (replace_Z str)) as [d|]; [|done].
  destruct (jobs s !! id) as [j|] eqn:Hjob; [|done].
  destruct (add_job_error w) as [e|]; split; simpl; try done; intros id'.
  - intros Hin. destruct (decide (id = id')) as [<-|Hne].
    + rewrite lookup_delete_eq in Hin. by destruct Hin.
    + rewrite lookup_delete_ne in Hin by done. by apply Hj.
  - intros Hin. destruct (decide (id = id')) as [<-|Hne].
    + eexists. by rewrite lookup_insert_eq.
    + rewrite lookup_insert_ne, lookup_delete_ne in Hin by done.
      rewrite lookup_insert_ne by done. by apply Hj.
  - destruct (decide (id = id')) as [<-|Hne].
    + rewrite lookup_insert_eq. simpl. pose proof (Hh id) as Hlast.
      by rewrite Hti, Hst in Hlast.
    + rewrite lookup_insert_ne by done. apply Hh.
Qed.

Lemma reachable_consistent (s : TaskScheduler) :
  reachable s → consistent s.
Proof.
  induction 1 as [|o s Hr IH Hf].
  - split; simpl; intros id; [|done|by right].
    rewrite lookup_empty. by intros [? ?].
  - destruct o; simpl in *.
    + by apply schedule_task_consistent.
    + by apply fire_job_consistent.
    + by apply cancel_task_consistent.
    + by apply reschedule_task_consistent.
Qed.

(** C2, as the code has it.  In every state reached by [schedule_task] (with
    fresh ids), timer firings, [cancel_task] and [reschedule_task], the
    statuses written to a job's record, in order, either follow the life
    cycle scheduled, running, then completed or failed, or scheduled then
    cancelled, with nothing written after completed, failed or cancelled; or
    they are exactly scheduled then failed, the history of a job whose timer
    could not be registered.  The last status written is the job's current
    status, and a pending timer belongs to a scheduled job. *)
Theorem status_history (s : TaskScheduler) :
  reachable s →
  ∀ id,
    (writes_of id (history s) = [scheduled; failed] ∨
     chain lifecycle (writes_of id (history s)) = true) ∧
    (∀ ti, tasks s !! id = Some ti →
           last (writes_of id (history s)) = Some (status ti)) ∧
    (is_Some (jobs s !! id) →
     ∃ ti, tasks s !! id = Some ti ∧ status ti = scheduled).
Proof.
  intros Hr id. destruct (reachable_consistent s Hr) as [Hj Hh Hv].
  split_and!.
  - apply Hv.
  - intros ti Hti. specialize (Hh id). by rewrite Hti in Hh.
  - apply Hj.
Qed.

End SchedulerFacts.

(** ** The scheduler on concrete runs *)

Lemma execute_unknown_id_witness :
  Sched._execute_task Run.iso Run.year (Run.calm "job-2") "job-9" Run.one_job
  = Run.one_job.
Proof.
  apply (execute_unknown_id Run.iso Run.year (Run.calm "job-2") "job-9"
           Run.one_job).
  vm_compute. reflexivity.
Defined.


Lemma status_history_witness :
  Sched.reachable (Agent := string) Run.parse Run.iso Run.year Run.one_job ∧
  (Sched.writes_of "job-1" (Sched.history Run.one_job)
     = [Sched.scheduled; Sched.failed] ∨
   Sched.chain Sched.lifecycle
     (Sched.writes_of "job-1" (Sched.history Run.one_job)) = true).
Proof.
  assert (Sched.reachable (Agent := string) Run.parse Run.iso Run.year Run.one_job) as Hr.
  { apply (Sched.reachable_step Run.parse Run.iso Run.year
             (Sched.OpSchedule (Run.calm "job-1") "consultation" "session"
                "Tax Agent" None None) Sched.init).
    - apply Sched.reachable_init.
    - vm_compute. reflexivity. }
  split; [exact Hr|].
  apply (status_history Run.parse Run.iso Run.year Run.one_job Hr "job-1").
Defined.

(** C2 as stated fails: a [schedule_task] call whose [add_job] raises leaves
    a job that is [failed] and has never been [running]. *)
Lemma failed_without_running :
  let s := Run.sched_step
             (Sched.OpSchedule (Run.faulty "job-1") "consultation" "session"
                "Tax Agent" None None) Sched.init in
  Sched.status <$> Sched.tasks s !! "job-1" = Some Sched.failed ∧
  Sched.writes_of "job-1" (Sched.history s)
  = [Sched.scheduled; Sched.failed] ∧
  Sched.running ∉ Sched.writes_of "job-1" (Sched.history s).
Proof.
  vm_compute. split_and!; [reflexivity..|].
  intros Hin. repeat (apply elem_of_cons in Hin as [Hin|Hin]; [discriminate|]).
  by apply elem_of_nil in Hin.
Qed.

(** [_execute_task] itself does not look at the current status: called on a
    cancelled job it runs it.  The timer engine never makes such a call,
    since cancelling removes the timer. *)
Example execute_has_no_guard :
  let s := (Sched.cancel_task Run.iso (Run.calm "x") "job-1" Run.one_job).2 in
  Sched.status <$> Sched.tasks s !! "job-1" = Some Sched.cancelled ∧
  Sched.status <$>
    Sched.tasks (Sched._execute_task Run.iso Run.year (Run.calm "x") "job-1" s)
      !! "job-1" = Some Sched.completed ∧
  Sched.fire_job Run.iso Run.year (Run.calm "x") "job-1" s = s.
Proof. vm_compute. split_and!; reflexivity. Qed.

(** C6 as stated fails: the job exists, is [scheduled] and the new time
    parses, yet [reschedule_task] answers [False] because [add_job] raises;
    the old timer is gone by then, so [cancel_task] on the still [scheduled]
    job answers [False] as well. *)
Lemma reschedule_false_though_scheduled :
  let r := Sched.reschedule_task Run.parse Run.iso (Run.faulty "x") "job-1"
             "2030-01-01T00:00:00Z" Run.one_job in
  Sched.status <$> Sched.tasks Run.one_job !! "job-1" = Some Sched.scheduled ∧
  Run.parse (replace_Z "2030-01-01T00:00:00Z") = Some 1893456000000000 ∧
  r.1 = false ∧
  Sched.status <$> Sched.tasks r.2 !! "job-1" = Some Sched.scheduled ∧
  (Sched.cancel_task Run.iso (Run.calm "x") "job-1" r.2).1 = false.
Proof. vm_compute. split_and!; reflexivity. Qed.

(** * More about the load balancer *)

Section LoadBalancerMore.

Context {Agent float : Type} `{FloatOps float}.
Variable f_add : float → float → float.
Variable factory_get_agent : string → option Agent.

Import LB Ops.

Local Abbreviation LBS := (LoadBalancer Agent float).
Local Abbreviation Inst := (AgentInstance Agent float).
Local Abbreviation get_agent_instance := (LB.get_agent_instance factory_get_agent).
Local Abbreviation get_agent := (LB.get_agent factory_get_agent).
Local Abbreviation _create_agent_instance :=
  (LB._create_agent_instance factory_get_agent).
Local Abbreviation add_agent_instance :=
  (LB.add_agent_instance factory_get_agent).
Local Abbreviation scale_up := (LB.scale_up factory_get_agent).
Local Abbreviation auto_scale := (LB.auto_scale factory_get_agent).
Local Abbreviation acquire_n := (LB.acquire_n factory_get_agent).
Local Abbreviation release_agent := (Ops.release_agent f_add).
Local Abbreviation call_step := (Ops.call_step f_add factory_get_agent).
Local Abbreviation call_run := (Ops.call_run f_add factory_get_agent).

(** [remove_first_id] takes out the first instance that carries the id. *)
Lemma remove_first_id_found id (l1 l2 : list Inst) x :
  Forall (λ y, agent_id y ≠ id) l1 → agent_id x = id →
  remove_first_id id (l1 ++ x :: l2) = Some (l1 ++ l2).
Proof.
  intros Hl1 Hx. induction Hl1 as [|y l1 Hy Hl1 IH]; simpl.
  - apply String.eqb_eq in Hx. by rewrite Hx.
  - apply String.eqb_neq in Hy. by rewrite Hy, IH.
Qed.

Lemma remove_first_id_inv id (l l' : list Inst) :
  remove_first_id id l = Some l' →
  ∃ l1 x l2, l = l1 ++ x :: l2 ∧ agent_id x = id ∧
             Forall (λ y, agent_id y ≠ id) l1 ∧ l' = l1 ++ l2.
Proof.
  revert l'. induction l as [|x l IH]; intros l'; simpl; [done|].
  destruct (String.eqb (agent_id x) id) eqn:E.
  - apply String.eqb_eq in E. intros [= <-]. by exists [], x, l.
  - apply String.eqb_neq in E.
    destruct (remove_first_id id l) as [r|]; [|done].
    intros [= <-]. destruct (IH r eq_refl) as (l1 & y & l2 & -> & Hy & Hl1 & ->).
    exists (x :: l1), y, l2. split_and!; try done. by constructor.
Qed.

Lemma remove_first_id_None id (l : list Inst) :
  remove_first_id id l = None ↔ Forall (λ y, agent_id y ≠ id) l.
Proof.
  induction l as [|x l IH]; simpl; [done|].
  destruct (String.eqb (agent_id x) id) eqn:E.
  - apply String.eqb_eq in E. split; [done|]. by inversion 1.
  - apply String.eqb_neq in E.
    destruct (remove_first_id id l) as [r|].
    + split; [done|]. inversion 1; subst.
      assert (Some r = None) by by apply IH. done.
    + split; [|done]. intros _. constructor; [done|]. by apply IH.
Qed.

(** *** Properties of instances kept by every method *)

Section PoolsAll.

Variable P : Inst → Prop.
Hypothesis P_new : ∀ t a now (s : LBS), P (new_instance t a now s).
Hypothesis P_touch : ∀ now x, P x → P (touch now x).
Hypothesis P_weight : ∀ w x, P x → P (with_weight w x).
Hypothesis P_check : ∀ probe x, P x → P (_health_check_instance probe x).
Hypothesis P_released : ∀ rt x, P x → P (released f_add rt x).

Lemma pools_all_set_pool t p (s : LBS) :
  pools_all P s → Forall P p → pools_all P (set_pool t p s).
Proof.
  intros Hs Hp t' p'. unfold set_pool; simpl. rewrite alookup_aset.
  case_decide; [by intros [= <-]|apply Hs].
Qed.

Lemma pools_all_pool_of t (s : LBS) : pools_all P s → Forall P (pool_of t s).
Proof.
  intros Hs. unfold pool_of.
  destruct (alookup t (agent_pools s)) as [p|] eqn:Hp; simpl; [by eapply Hs|done].
Qed.

Lemma pools_all_eq (s s' : LBS) :
  agent_pools s' = agent_pools s → pools_all P s → pools_all P s'.
Proof. unfold pools_all. by intros ->. Qed.

Lemma pools_all_alter t f i (s : LBS) :
  (∀ x, P x → P (f x)) → pools_all P s →
  pools_all P (set_pool t (alter f i (pool_of t s)) s).
Proof.
  intros Hf Hs. apply pools_all_set_pool; [done|].
  apply Forall_alter; [by apply pools_all_pool_of|]. intros x _. apply Hf.
Qed.

Lemma create_all t now :
  triple (pools_all P) (_create_agent_instance t now)
    (λ _, pools_all P) (pools_all P).
Proof.
  intros s Hs. unfold LB._create_agent_instance.
  destruct (factory_get_agent t); [|done].
  apply pools_all_set_pool; [done|].
  apply Forall_app. split; [by apply pools_all_pool_of|].
  by apply Forall_singleton.
Qed.

Lemma add_all t w now :
  triple (pools_all P) (add_agent_instance t w now)
    (λ _, pools_all P) (pools_all P).
Proof.
  eapply triple_bind; [apply create_all|]. intros created.
  eapply (triple_bind _ _ _ (λ _, pools_all P));
    [|intros ?; by apply triple_ret].
  apply triple_modify. intros s Hs. apply pools_all_alter; [|done].
  intros x. apply P_weight.
Qed.

Lemma scale_up_all t n now :
  triple (pools_all P) (scale_up t n now) (λ _, pools_all P) (pools_all P).
Proof.
  apply triple_repeatM.
  eapply triple_bind; [apply add_all|]. intros ?. by apply triple_ret.
Qed.

Lemma remove_all t id :
  triple (pools_all P) (remove_agent_instance t id)
    (λ _, pools_all P) (pools_all P).
Proof.
  intros s Hs. unfold remove_agent_instance.
  destruct (alookup t (agent_pools s)) as [instances|] eqn:Hp; [|done].
  destruct (remove_first_id id instances) as [instances'|] eqn:Hr; [|done].
  apply pools_all_set_pool; [done|].
  apply remove_first_id_inv in Hr as (l1 & x & l2 & -> & _ & _ & ->).
  specialize (Hs _ _ Hp). apply Forall_app in Hs as [H1 H2].
  apply Forall_app. split; [done|]. by inversion H2.
Qed.

Lemma scale_down_all t n :
  triple (pools_all P) (scale_down t n) (λ _, pools_all P) (pools_all P).
Proof.
  eapply triple_bind; [apply triple_get|]. intros s0.
  destruct (alookup t (agent_pools s0)) as [instances|];
    [|apply triple_ret; by intros s [_ ?]].
  destruct (_ <=? n); [apply triple_ret; by intros s [_ ?]|].
  eapply triple_conseq; [| |apply triple_forM]; [by intros s [_ ?]|done|].
  intros i. destruct (_ !! i); [|by apply triple_ret].
  eapply triple_bind; [apply remove_all|]. intros ?. by apply triple_ret.
Qed.

Lemma auto_scale_all now :
  triple (pools_all P) (auto_scale now) (λ _, pools_all P) (pools_all P).
Proof.
  eapply triple_bind; [apply triple_get|]. intros s0.
  eapply triple_conseq; [| |apply triple_forM]; [by intros s [_ ?]|done|].
  intros t. eapply triple_bind; [apply triple_get|]. intros s1.
  cbv zeta. destruct (pool_of t s1); [apply triple_ret; by intros s [_ ?]|].
  repeat match goal with
         | |- context [if ?c then _ else _] => destruct c
         end;
    try (apply triple_ret; by intros s [_ ?]).
  - eapply triple_conseq; [| |apply scale_up_all]; [by intros s [_ ?]|done].
  - eapply triple_conseq; [| |apply scale_down_all]; [by intros s [_ ?]|done].
Qed.

Lemma get_agent_all t now :
  triple (pools_all P) (get_agent t now) (λ _, pools_all P) (pools_all P).
Proof.
  eapply (triple_bind _ _ _ (λ _, pools_all P));
    [|intros ?; by apply triple_ret].
  eapply triple_bind; [apply triple_get|]. intros s0.
  eapply (triple_bind _ _ _ (λ _, pools_all P)).
  { destruct (alookup t (agent_pools s0)) as [[|x p]|].
    - eapply triple_bind.
      + eapply triple_conseq; [| |apply create_all]; [by intros s [_ ?]|done].
      + intros ?. by apply triple_ret.
    - apply triple_ret. by intros s [_ ?].
    - eapply triple_bind.
      + eapply triple_conseq; [| |apply create_all]; [by intros s [_ ?]|done].
      + intros ?. by apply triple_ret. }
  intros ?. eapply triple_bind; [apply triple_get|]. intros s1.
  eapply (triple_bind _ _ _ (λ _, pools_all P)).
  { destruct (healthy_from 0 (pool_of t s1)).
    - eapply triple_bind.
      + eapply triple_conseq; [| |apply create_all]; [by intros s [_ ?]|done].
      + intros ?. by apply triple_ret.
    - apply triple_ret. by intros s [_ ?]. }
  intros instances.
  eapply (triple_bind _ _ _ (λ _, pools_all P)).
  { intros s Hs. pose proof (select_instance_pools instances t s) as Heq.
    destruct (_select_instance instances t s) as [[sel|e] s']; simpl in Heq;
      by eapply pools_all_eq. }
  intros selected.
  eapply (triple_bind _ _ _ (λ _, pools_all P));
    [|intros ?; by apply triple_ret].
  apply triple_modify. intros s Hs. apply pools_all_alter; [|done].
  intros x. apply P_touch.
Qed.

Lemma release_all t rt (s : LBS) :
  pools_all P s → pools_all P (release_agent t rt s).2.
Proof.
  intros Hs. unfold Ops.release_agent.
  destruct (alookup t (agent_pools s)) as [instances|] eqn:Hp; [|done].
  destruct (py_max_index _ _ _) as [i|]; [|done]. simpl.
  apply pools_all_set_pool; [done|].
  apply Forall_alter; [by eapply Hs|]. intros x _. apply P_released.
Qed.

Lemma set_agent_weight_all t w (s : LBS) :
  pools_all P s → pools_all P (set_agent_weight t w s).2.
Proof.
  intros Hs t' p'. simpl.
  destruct (alookup t (agent_pools s)) as [instances|] eqn:Hp; [|apply Hs].
  rewrite alookup_aset. case_decide; [|apply Hs].
  intros [= <-]. specialize (Hs _ _ Hp).
  apply Forall_forall. intros y Hy.
  apply list_elem_of_In, in_map_iff in Hy as (x & <- & Hx).
  apply P_weight. rewrite Forall_forall in Hs. by apply Hs, list_elem_of_In.
Qed.

Lemma alookup_map_values {V W : Type} (g : string → V → W) k
  (l : list (string * V)) :
  alookup k (map (λ kv, (kv.1, g kv.1 kv.2)) l) = g k <$> alookup k l.
Proof.
  induction l as [|[k' v] l IH]; simpl; [done|].
  destruct (String.eqb k k') eqn:E; [|done].
  apply String.eqb_eq in E. by subst.
Qed.

Lemma health_check_pass_all probe (s : LBS) :
  pools_all P s → pools_all P (health_check_pass probe s).2.
Proof.
  intros Hs t p. simpl.
  rewrite (alookup_map_values
             (λ k v, imap (λ i x, _health_check_instance (probe k i) x) v)).
  destruct (alookup t (agent_pools s)) as [instances|] eqn:Hp; [|done].
  intros [= <-]. specialize (Hs _ _ Hp).
  apply Forall_lookup. intros i y Hy.
  rewrite list_lookup_imap in Hy.
  destruct (instances !! i) as [x|] eqn:Hx; [|done]. injection Hy as <-.
  apply P_check. by eapply Forall_lookup_1.
Qed.

Lemma call_step_all (c : call) (s : LBS) :
  pools_all P s → pools_all P (call_step c s).
Proof.
  intros Hs. destruct c; simpl.
  - by apply (triple_final (pools_all P)); [apply get_agent_all|].
  - by apply release_all.
  - by apply (triple_final (pools_all P)); [apply add_all|].
  - by apply (triple_final (pools_all P)); [apply remove_all|].
  - by apply (triple_final (pools_all P)); [apply scale_up_all|].
  - by apply (triple_final (pools_all P)); [apply scale_down_all|].
  - by apply (triple_final (pools_all P)); [apply auto_scale_all|].
  - done.
  - by apply set_agent_weight_all.
  - by apply health_check_pass_all.
Qed.

Lemma call_run_all (cs : list call) (s : LBS) :
  pools_all P s → pools_all P (call_run cs s).
Proof.
  revert s. induction cs as [|c cs IH]; intros s Hs; simpl; [done|].
  apply IH. by apply call_step_all.
Qed.

Lemma new_LoadBalancer_all a now :
  pools_all P (LB.new_LoadBalancer factory_get_agent a now).2.
Proof.
  unfold LB.new_LoadBalancer, LB._initialize_agent_pools.
  apply (triple_final (pools_all P)); [|by intros t p].
  apply triple_forM. intros t. apply triple_repeatM.
  eapply triple_bind; [apply create_all|]. intros ?. by apply triple_ret.
Qed.

End PoolsAll.

(** X1.  Along every sequence of calls of the methods of the class, returning
    or raising, every instance keeps
    [0 <= active_connections <= total_requests]. *)
Theorem metrics_coherent (cs : list (call (float := float))) (s : LBS) :
  pools_all coherent s → pools_all coherent (call_run cs s).
Proof.
  apply call_run_all; unfold coherent.
  - intros; simpl; lia.
  - intros now x; simpl; lia.
  - intros w x; simpl; lia.
  - intros probe x Hx. unfold _health_check_instance.
    destruct probe as [rt|]; [|done].
    destruct (f_lt _ rt); destruct (_ <? _); simpl; lia.
  - intros rt x; simpl; lia.
Qed.

(** X2.  Along every sequence of calls, [health_status] is one of "healthy",
    "unhealthy" and "overloaded". *)
Theorem health_status_known (cs : list (call (float := float))) (s : LBS) :
  pools_all known_health s → pools_all known_health (call_run cs s).
Proof.
  apply call_run_all; unfold known_health.
  - intros; simpl; auto.
  - intros now x; simpl; auto.
  - intros w x; simpl; auto.
  - intros probe x Hx. unfold _health_check_instance.
    destruct probe as [rt|]; [|simpl; auto].
    destruct (f_lt _ rt); destruct (_ <? _); simpl; auto.
  - intros rt x; simpl; auto.
Qed.

(** *** What a successful [get_agent] has done *)

Lemma aset_aset {V : Type} k (v v' : V) l : aset k v' (aset k v l) = aset k v' l.
Proof.
  induction l as [|[k0 v0] l IH]; simpl.
  - by rewrite String.eqb_refl.
  - destruct (String.eqb k k0) eqn:E; simpl.
    + by rewrite String.eqb_refl.
    + by rewrite E, IH.
Qed.

Lemma counter_of_set_counter_ne t t' c (s : LBS) :
  t ≠ t' → counter_of t' (set_counter t c s) = counter_of t' s.
Proof.
  intros Hne. unfold counter_of, set_counter; simpl.
  by rewrite lookup_insert_ne.
Qed.

Lemma select_instance_frame (l : list (nat * Inst)) t (s : LBS) :
  let r := _select_instance l t s in
  agent_pools r.2 = agent_pools s ∧ algorithm r.2 = algorithm s ∧
  agent_weights r.2 = agent_weights s ∧
  (∀ t', t ≠ t' → counter_of t' r.2 = counter_of t' s) ∧
  (∀ x, r.1 = Ok x → x ∈ l) ∧
  (algorithm s = LEAST_CONNECTIONS ∨ algorithm s = RESPONSE_TIME → r.2 = s).
Proof.
  unfold _select_instance, _round_robin_select, _least_connections_select,
    _weighted_round_robin_select, _response_time_select, raise, ret.
  destruct (algorithm s) eqn:Ha; simpl;
    repeat match goal with
           | |- context [if ?c then _ else _] => destruct c
           | |- context [match ?o with Some _ => _ | None => _ end] =>
               let E := fresh "E" in destruct o eqn:E
           | |- context [match ?o with [] => _ | _ :: _ => _ end] =>
               destruct o
           end; simpl; split_and!; try done;
    try (by intros [|]);
    try (intros t' Hne; by apply counter_of_set_counter_ne);
    intros x [= <-];
    eauto using list_elem_of_lookup_2, py_min_in, wrr_walk_in.
  set_solver.
Qed.

Lemma get_agent_instance_ok t now (s : LBS) i x s1 :
  get_agent_instance t now s = (Ok (i, x), s1) →
  base_pool factory_get_agent t now s !! i = Some x ∧
  is_healthy x = true ∧
  agent_pools s1 =
    aset t (alter (touch now) i (base_pool factory_get_agent t now s))
      (agent_pools s) ∧
  (healthy_from 0 (pool_of t s) ≠ [] →
     (i, x) ∈ healthy_from 0 (pool_of t s)) ∧
  (healthy_from 0 (pool_of t s) = [] → i = length (pool_of t s)).
Proof.
  intros Hget. unfold base_pool.
  destruct (healthy_ne_pool_ne t s) as [Hh|Hh].
  - destruct (factory_get_agent t) as [a|] eqn:Hf;
      [|by rewrite get_agent_instance_raises in Hget].
    rewrite (get_agent_instance_fallback _ _ a) in Hget by done. rewrite Hh.
    set (inst := new_instance t a now s) in *.
    set (s0 := set_pool t (pool_of t s ++ [inst]) s) in *.
    pose proof (select_instance_frame [(length (pool_of t s), inst)] t s0)
      as (Hp & _ & _ & _ & Hin & _).
    destruct (_select_instance _ t s0) as [[sel|e] s']; simpl in *; [|done].
    injection Hget as -> <-.
    specialize (Hin _ eq_refl). apply list_elem_of_singleton in Hin.
    injection Hin as -> ->. split_and!; try done.
    + by rewrite list_lookup_middle.
    + simpl.
      assert (pool_of t s' = pool_of t s ++ [inst]) as ->.
      { unfold pool_of at 1. rewrite Hp. unfold s0. simpl.
        by rewrite alookup_aset_eq. }
      rewrite Hp. unfold s0. simpl. apply aset_aset.
  - rewrite get_agent_instance_healthy in Hget by done.
    pose proof (select_instance_frame (healthy_from 0 (pool_of t s)) t s)
      as (Hp & _ & _ & _ & Hin & _).
    destruct (_select_instance _ t s) as [[sel|e] s']; simpl in *; [|done].
    injection Hget as -> <-. specialize (Hin _ eq_refl).
    pose proof (healthy_from_lookup _ _ _ _ Hin) as (_ & Hl & Hx).
    rewrite Nat.sub_0_r in Hl.
    assert (match healthy_from 0 (pool_of t s) with
            | [] => match factory_get_agent t with
                    | Some a => pool_of t s ++ [new_instance t a now s]
                    | None => pool_of t s
                    end
            | _ :: _ => pool_of t s
            end = pool_of t s) as ->
      by (destruct (healthy_from 0 (pool_of t s)); [done|done]).
    split_and!; try done.
    simpl. rewrite Hp. f_equal. f_equal. unfold pool_of. by rewrite Hp.
Qed.

(** *** [get_agent] leaves everything else alone *)

Lemma same_instance_refl (x : Inst) : same_instance x x.
Proof. by repeat split. Qed.

Lemma same_instance_touch now (x x' : Inst) :
  same_instance x x' → same_instance x (touch now x').
Proof. intros Hx. exact Hx. Qed.

Lemma only_pool_refl t (s : LBS) : only_pool t s s.
Proof.
  split; try done. intros i x Hx. exists x. split; [done|].
  apply same_instance_refl.
Qed.

Lemma only_pool_eq t (s0 s s' : LBS) :
  agent_pools s' = agent_pools s → algorithm s' = algorithm s →
  agent_weights s' = agent_weights s →
  (∀ t', t ≠ t' → counter_of t' s' = counter_of t' s) →
  only_pool t s0 s → only_pool t s0 s'.
Proof.
  intros Hp Ha Hw Hc [? ? ? ? Hpool]. split.
  - congruence.
  - congruence.
  - intros t' Hne. rewrite Hp. auto.
  - intros t' Hne. rewrite Hc by done. auto.
  - intros i x Hx. unfold pool_of. rewrite Hp. by apply Hpool.
Qed.

Lemma only_pool_set_pool t p (s0 s : LBS) :
  (∀ i x, pool_of t s !! i = Some x →
          ∃ x', p !! i = Some x' ∧ same_instance x x') →
  only_pool t s0 s → only_pool t s0 (set_pool t p s).
Proof.
  intros Hp [? ? ? ? Hpool]. split; simpl; try done.
  - intros t' Hne. rewrite alookup_aset_ne by done. auto.
  - intros i x Hx. rewrite pool_of_set_pool_eq.
    destruct (Hpool i x Hx) as (x1 & Hx1 & Hs1).
    destruct (Hp i x1 Hx1) as (x2 & Hx2 & Hs2).
    exists x2. split; [done|].
    destruct Hs1 as (? & ? & ? & ? & ? & ? & ?).
    destruct Hs2 as (? & ? & ? & ? & ? & ? & ?).
    repeat split; congruence.
Qed.

Lemma create_only_pool t now (s0 : LBS) :
  triple (only_pool t s0) (_create_agent_instance t now)
    (λ _, only_pool t s0) (only_pool t s0).
Proof.
  intros s Hs. unfold LB._create_agent_instance.
  destruct (factory_get_agent t); [|done].
  apply only_pool_set_pool; [|done]. intros i x Hx. exists x.
  split; [by apply lookup_app_l_Some|apply same_instance_refl].
Qed.

Lemma get_agent_only_pool t now (s0 : LBS) :
  triple (only_pool t s0) (get_agent t now)
    (λ _, only_pool t s0) (only_pool t s0).
Proof.
  eapply (triple_bind _ _ _ (λ _, only_pool t s0));
    [|intros ?; by apply triple_ret].
  eapply triple_bind; [apply triple_get|]. intros s1.
  eapply (triple_bind _ _ _ (λ _, only_pool t s0)).
  { destruct (alookup t (agent_pools s1)) as [[|x p]|].
    - eapply triple_bind.
      + eapply triple_conseq; [| |apply create_only_pool];
          [by intros s [_ ?]|done].
      + intros ?. by apply triple_ret.
    - apply triple_ret. by intros s [_ ?].
    - eapply triple_bind.
      + eapply triple_conseq; [| |apply create_only_pool];
          [by intros s [_ ?]|done].
      + intros ?. by apply triple_ret. }
  intros ?. eapply triple_bind; [apply triple_get|]. intros s2.
  eapply (triple_bind _ _ _ (λ _, only_pool t s0)).
  { destruct (healthy_from 0 (pool_of t s2)).
    - eapply triple_bind.
      + eapply triple_conseq; [| |apply create_only_pool];
          [by intros s [_ ?]|done].
      + intros ?. by apply triple_ret.
    - apply triple_ret. by intros s [_ ?]. }
  intros instances.
  eapply (triple_bind _ _ _ (λ _, only_pool t s0)).
  { intros s Hs.
    pose proof (select_instance_frame instances t s) as (Hp & Ha & Hw & Hc & _).
    destruct (_select_instance instances t s) as [[sel|e] s']; simpl in *;
      by eapply only_pool_eq. }
  intros selected.
  eapply (triple_bind _ _ _ (λ _, only_pool t s0));
    [|intros ?; by apply triple_ret].
  apply triple_modify. intros s Hs. apply only_pool_set_pool; [|done].
  intros i x Hx. rewrite list_lookup_alter.
  case_decide; subst; rewrite Hx; simpl; eexists; (split; [done|]).
  - apply same_instance_touch, same_instance_refl.
  - apply same_instance_refl.
Qed.

(** X3.  Whatever its outcome, [get_agent] for [t] changes neither the
    algorithm nor the configured weights, nor the pool or the cursor of any
    other type; in the pool of [t] every instance stays at its position with
    the same id, agent, weight and health status, and at most one instance
    is appended. *)
Theorem get_agent_leaves_rest t now (s : LBS) :
  only_pool t s (get_agent t now s).2 ∧
  (length (pool_of t s) ≤ length (pool_of t (get_agent t now s).2)
   ≤ S (length (pool_of t s)))%nat.
Proof.
  split.
  - apply (triple_final (only_pool t s)); [apply get_agent_only_pool|].
    apply only_pool_refl.
  - rewrite get_agent_unfold.
    destruct (get_agent_instance t now s) as [[[i x]|e] s1] eqn:Hget; simpl.
    + apply get_agent_instance_ok in Hget as (Hi & _ & Hp & _).
      unfold pool_of at 2 3. rewrite Hp, alookup_aset_eq. simpl.
      rewrite length_alter. unfold base_pool.
      destruct (healthy_from 0 (pool_of t s)); [|lia].
      destruct (factory_get_agent t); rewrite ?length_app; simpl; lia.
    + destruct (healthy_ne_pool_ne t s) as [Hh|Hh].
      * destruct (factory_get_agent t) as [a|] eqn:Hf.
        -- rewrite (get_agent_instance_fallback _ _ a) in Hget by done.
           pose proof (select_instance_frame
                         [(length (pool_of t s), new_instance t a now s)] t
                         (set_pool t (pool_of t s ++ [new_instance t a now s]) s))
             as (Hp & _).
           destruct (_select_instance _ t _) as [[sel|e'] s']; simpl in *;
             [done|]. injection Hget as _ <-.
           unfold pool_of at 2 3. rewrite Hp. simpl.
           rewrite alookup_aset_eq. simpl. rewrite length_app. simpl. lia.
        -- rewrite get_agent_instance_raises in Hget by done.
           injection Hget as _ <-. lia.
      * rewrite get_agent_instance_healthy in Hget by done.
        pose proof (select_instance_frame (healthy_from 0 (pool_of t s)) t s)
          as (Hp & _).
        destruct (_select_instance _ t s) as [[sel|e'] s']; simpl in *;
          [done|]. injection Hget as _ <-.
        unfold pool_of. rewrite Hp. lia.
Qed.

(** *** Least connections *)

Lemma min_from_spec {A : Type} (key : A → Z) best (l : list A) :
  let r := min_from Z.ltb key best l in
  (r = best ∧ Forall (λ y, key best ≤ key y) l) ∨
  (∃ l1 l2, l = l1 ++ r :: l2 ∧ key r < key best ∧
            Forall (λ y, key r < key y) l1 ∧ Forall (λ y, key r ≤ key y) l2).
Proof.
  revert best. induction l as [|x l IH]; intros best; simpl.
  - left. by split.
  - destruct (key x <? key best) eqn:E.
    + apply Z.ltb_lt in E.
      destruct (IH x) as [[Hr Hall]|(l1 & l2 & Hl & Hlt & H1 & H2)].
      * right. exists [], l. rewrite Hr. by split_and!.
      * right. exists (x :: l1), l2. split_and!;
          [simpl; by f_equal|lia|by constructor|done].
    + apply Z.ltb_ge in E.
      destruct (IH best) as [[Hr Hall]|(l1 & l2 & Hl & Hlt & H1 & H2)].
      * left. split; [done|]. by constructor.
      * right. exists (x :: l1), l2. split_and!;
          [simpl; by f_equal|done|constructor; [lia|done]|done].
Qed.

Lemma py_min_spec {A : Type} (key : A → Z) (l : list A) r :
  py_min Z.ltb key l = Some r →
  ∃ l1 l2, l = l1 ++ r :: l2 ∧
           Forall (λ y, key r < key y) l1 ∧ Forall (λ y, key r ≤ key y) l2.
Proof.
  destruct l as [|x l]; simpl; [done|]. intros [= <-].
  destruct (min_from_spec key x l) as [[-> Hall]|(l1 & l2 & Hl & Hlt & H1 & H2)].
  - exists [], l. by split_and!.
  - exists (x :: l1), l2. split_and!; try done.
    + simpl. by f_equal.
    + by constructor.
Qed.

Lemma least_connections_selects t now (s : LBS) :
  algorithm s = LEAST_CONNECTIONS →
  healthy_from 0 (pool_of t s) ≠ [] →
  ∃ i x s1 l1 l2,
    get_agent_instance t now s = (Ok (i, x), s1) ∧
    healthy_from 0 (pool_of t s) = l1 ++ (i, x) :: l2 ∧
    Forall (λ p, active_connections x < active_connections p.2) l1 ∧
    Forall (λ p, active_connections x ≤ active_connections p.2) l2.
Proof.
  intros Ha Hne. rewrite get_agent_instance_healthy by done.
  unfold _select_instance. rewrite Ha. unfold _least_connections_select.
  destruct (py_min _ _ _) as [[i x]|] eqn:Hm;
    [|by destruct (healthy_from 0 (pool_of t s))].
  apply (py_min_spec (λ p : nat * Inst, active_connections p.2)) in Hm
    as (l1 & l2 & Hl & H1 & H2).
  by exists i, x, (set_pool t (alter (touch now) i (pool_of t s)) s), l1, l2.
Qed.

(** X4.  Under least-connections, on a pool with a healthy instance,
    [get_agent] returns and selects the first healthy instance, in pool
    order, among those with the fewest active connections. *)
Theorem least_connections_first_minimum t now (s : LBS) :
  algorithm s = LEAST_CONNECTIONS →
  healthy_from 0 (pool_of t s) ≠ [] →
  ∃ i x s1 l1 l2,
    get_agent_instance t now s = (Ok (i, x), s1) ∧
    healthy_from 0 (pool_of t s) = l1 ++ (i, x) :: l2 ∧
    Forall (λ p, active_connections x < active_connections p.2) l1 ∧
    Forall (λ p, active_connections x ≤ active_connections p.2) l2.
Proof. apply least_connections_selects. Qed.

Lemma healthy_from_alter (f : Inst → Inst) i k (pool : list Inst) :
  (∀ x, is_healthy (f x) = is_healthy x) →
  healthy_from k (alter f i pool) =
  map (λ p, if Nat.eqb p.1 (k + i) then (p.1, f p.2) else p)
    (healthy_from k pool).
Proof.
  intros Hf. revert i k. induction pool as [|x pool IH]; intros i k; [done|].
  destruct i as [|i].
  - change (alter f 0%nat (x :: pool)) with (f x :: pool). simpl. rewrite Hf.
    assert (map (λ p : nat * Inst,
                   if Nat.eqb p.1 (k + 0) then (p.1, f p.2) else p)
              (healthy_from (S k) pool) = healthy_from (S k) pool) as Hrest.
    { pose proof (healthy_from_ge pool (S k)) as Hge.
      induction (healthy_from (S k) pool) as [|p l IHl]; simpl; [done|].
      simpl in Hge. inversion Hge; subst. rewrite IHl by done.
      destruct (Nat.eqb p.1 (k + 0)) eqn:E; [|done].
      apply Nat.eqb_eq in E. lia. }
    destruct (is_healthy x); simpl; rewrite Hrest; [|done].
    by rewrite Nat.add_0_r, Nat.eqb_refl.
  - change (alter f (S i) (x :: pool)) with (x :: alter f i pool). simpl.
    rewrite (IH i (S k)).
    replace (S k + i)%nat with (k + S i)%nat by lia.
    destruct (is_healthy x); simpl; [|done].
    destruct (Nat.eqb k (k + S i)) eqn:E; [|done].
    apply Nat.eqb_eq in E. lia.
Qed.

Lemma map_touch_at now i x (l1 l2 : list (nat * Inst)) :
  NoDup (map fst (l1 ++ (i, x) :: l2)) →
  map (λ p : nat * Inst, if Nat.eqb p.1 i then (p.1, touch now p.2) else p)
    (l1 ++ (i, x) :: l2) = l1 ++ (i, touch now x) :: l2.
Proof.
  intros Hnd. rewrite map_app in Hnd. simpl in Hnd.
  apply NoDup_app in Hnd as (_ & H1 & Hnd). apply NoDup_cons in Hnd as [H2 _].
  assert (∀ l : list (nat * Inst), i ∉ map fst l →
            map (λ p : nat * Inst,
                   if Nat.eqb p.1 i then (p.1, touch now p.2) else p) l = l)
    as Hid.
  { induction l as [|p l IHl]; simpl; [done|]. intros Hnot.
    rewrite IHl by set_solver.
    destruct (Nat.eqb p.1 i) eqn:E; [|done].
    apply Nat.eqb_eq in E. set_solver. }
  rewrite map_app. simpl. rewrite Nat.eqb_refl, !Hid; [done|done|].
  intros Hin. apply (H1 i); [done|set_solver].
Qed.

Lemma least_connections_step t now (s : LBS) :
  algorithm s = LEAST_CONNECTIONS →
  healthy_from 0 (pool_of t s) ≠ [] →
  balanced (healthy_from 0 (pool_of t s)) →
  ∃ sel s1,
    get_agent_instance t now s = (Ok sel, s1) ∧
    algorithm s1 = LEAST_CONNECTIONS ∧
    healthy_from 0 (pool_of t s1) ≠ [] ∧
    balanced (healthy_from 0 (pool_of t s1)).
Proof.
  intros Ha Hne [m Hm].
  destruct (least_connections_selects t now s Ha Hne)
    as (i & x & s1 & l1 & l2 & Hget & Hl & H1 & H2).
  exists (i, x), s1.
  pose proof Hget as Hok. apply get_agent_instance_ok in Hok as (_ & _ & Hp & _).
  assert (base_pool factory_get_agent t now s = pool_of t s) as Hbase.
  { unfold base_pool. by destruct (healthy_from 0 (pool_of t s)). }
  rewrite Hbase in Hp.
  assert (healthy_from 0 (pool_of t s1) = l1 ++ (i, touch now x) :: l2) as Hh1.
  { unfold pool_of at 1. rewrite Hp, alookup_aset_eq. simpl.
    rewrite healthy_from_alter by done. simpl. rewrite Hl.
    apply map_touch_at. rewrite <- Hl. apply healthy_from_NoDup. }
  split_and!.
  - done.
  - rewrite get_agent_instance_healthy in Hget by done.
    pose proof (select_instance_frame (healthy_from 0 (pool_of t s)) t s)
      as (_ & Halg & _).
    destruct (_select_instance _ t s) as [[sel|e] s']; simpl in *; [|done].
    injection Hget as _ <-. simpl. congruence.
  - rewrite Hh1. by destruct l1.
  - rewrite Hh1. rewrite Hl in Hm.
    apply Forall_app in Hm as [Hm1 Hm2].
    apply Forall_cons in Hm2 as [Hx Hm2]. simpl in Hx.
    destruct (decide (active_connections x = m)) as [Heq|Hneq].
    + exists m. apply Forall_app. split; [done|].
      constructor; [simpl; lia|done].
    + exists (m + 1). apply Forall_app. split.
      * rewrite Forall_forall in H1, Hm1 |- *. intros p Hp1.
        specialize (H1 p Hp1). specialize (Hm1 p Hp1). simpl in H1, Hm1 |- *.
        lia.
      * constructor; [simpl; lia|].
        rewrite Forall_forall in H2, Hm2 |- *. intros p Hp2.
        specialize (H2 p Hp2). specialize (Hm2 p Hp2). simpl in H2, Hm2 |- *.
        lia.
Qed.

(** X5.  Under least-connections, when the active connections of the healthy
    instances differ by at most one, any number of consecutive [get_agent]
    calls return and leave them differing by at most one. *)
Theorem least_connections_balanced t now k (s : LBS) :
  algorithm s = LEAST_CONNECTIONS →
  healthy_from 0 (pool_of t s) ≠ [] →
  balanced (healthy_from 0 (pool_of t s)) →
  ∃ sels s',
    acquire_n k t now s = (Ok sels, s') ∧ length sels = k ∧
    balanced (healthy_from 0 (pool_of t s')).
Proof.
  revert s. induction k as [|k IH]; intros s Ha Hne Hb.
  - by exists [], s.
  - destruct (least_connections_step t now s Ha Hne Hb)
      as (sel & s1 & Hget & Ha1 & Hne1 & Hb1).
    destruct (IH s1 Ha1 Hne1 Hb1) as (sels & s' & Hacq & Hlen & Hb').
    exists (sel.1 :: sels), s'. split_and!; [|simpl; by f_equal|done].
    simpl. unfold bind at 1. rewrite Hget. unfold bind at 1. by rewrite Hacq.
Qed.

(** *** [release_agent] *)

Lemma max_index_from_spec {A K : Type} (lt : K → K → bool) (key : A → K)
  (l : list A) bi b k :
  l !! bi = Some b → (bi < k)%nat →
  (∀ j y, (bi < j < k)%nat → l !! j = Some y → lt (key b) (key y) = false) →
  ∃ x, l !! max_index_from lt key bi b k (drop k l) = Some x ∧
       ∀ j y, (max_index_from lt key bi b k (drop k l) < j)%nat →
              l !! j = Some y → lt (key x) (key y) = false.
Proof.
  remember (drop k l) as r eqn:Hr. revert bi b k Hr.
  induction r as [|y r IH]; intros bi b k Hr Hb Hlt Hbetween; simpl.
  - exists b. split; [done|]. intros j z Hj Hz.
    destruct (decide (j < k)%nat); [by eapply Hbetween|].
    assert (drop k l !! (j - k)%nat = Some z) as Hd
      by (rewrite lookup_drop; by replace (k + (j - k))%nat with j by lia).
    by rewrite <- Hr in Hd.
  - assert (l !! k = Some y) as Hk.
    { pose proof (lookup_drop l k 0) as Hd. rewrite <- Hr in Hd. simpl in Hd.
      by rewrite Nat.add_0_r in Hd. }
    assert (r = drop (S k) l) as Hr'.
    { rewrite (drop_S l y k Hk) in Hr. by injection Hr. }
    destruct (lt (key b) (key y)) eqn:E.
    + apply IH; [done|done|lia|]. intros j z Hj. lia.
    + apply IH; [done|done|lia|]. intros j z Hj Hz.
      destruct (decide (j = k)) as [->|]; [congruence|].
      apply (Hbetween j); [lia|done].
Qed.

(** X6.  [release_agent] never raises and never changes the size of a pool.
    On an unknown type or an empty pool it does nothing; otherwise it updates
    exactly one instance, one that no later instance of the pool has been
    used after: its active connections are decremented, but not below 0, and
    the response time is added to its total. *)
Theorem release_agent_effect t rt (s : LBS) :
  (release_agent t rt s).1 = Ok tt ∧
  (pool_of t s = [] → (release_agent t rt s).2 = s) ∧
  (pool_of t s ≠ [] →
   ∃ i x,
     pool_of t s !! i = Some x ∧
     (∀ j y, (i < j)%nat → pool_of t s !! j = Some y →
             f_lt (last_used x) (last_used y) = false) ∧
     (release_agent t rt s).2 =
       set_pool t (<[i := released f_add rt x]> (pool_of t s)) s ∧
     active_connections (released f_add rt x)
       = Z.max 0 (active_connections x - 1)).
Proof.
  unfold Ops.release_agent, pool_of.
  destruct (alookup t (agent_pools s)) as [[|b r]|] eqn:Hp; simpl;
    split_and!; try done.
  intros _.
  destruct (max_index_from_spec f_lt last_used (b :: r) 0 b 1)
    as (x & Hx & Hlater); [done|lia|intros; lia|].
  change (drop 1 (b :: r)) with r in Hx, Hlater.
  exists (max_index_from f_lt last_used 0 b 1 r), x.
  split_and!; try done.
  f_equal. f_equal. apply list_eq. intros j.
  rewrite list_lookup_alter, list_lookup_insert.
  case_decide; subst.
  - rewrite Hx. simpl. rewrite decide_True; [done|].
    split; [done|]. pose proof (lookup_lt_Some _ _ _ Hx). simpl in *. lia.
  - rewrite decide_False; [done|]. by intros [? _].
Qed.

Lemma max_index_from_stays {A K : Type} (lt : K → K → bool) (key : A → K)
  bi b k (r : list A) :
  Forall (λ y, lt (key b) (key y) = false) r →
  max_index_from lt key bi b k r = bi.
Proof.
  intros Hr. revert k. induction Hr as [|y r Hy Hr IH]; intros k; simpl; [done|].
  by rewrite Hy.
Qed.

Lemma max_index_from_finds {A K : Type} (lt : K → K → bool) (key : A → K)
  bi b k (r : list A) m x :
  r !! m = Some x → lt (key b) (key x) = true →
  (∀ j y, r !! j = Some y → j ≠ m → lt (key y) (key x) = true) →
  Forall (λ y, lt (key x) (key y) = false) r →
  max_index_from lt key bi b k r = (k + m)%nat.
Proof.
  revert bi b k m. induction r as [|y r IH]; intros bi b k m Hm Hb Hless Hge;
    [done|].
  apply Forall_cons in Hge as [Hy Hge]. destruct m as [|m]; simpl in *.
  - injection Hm as ->. rewrite Hb, Nat.add_0_r.
    by apply max_index_from_stays.
  - replace (k + S m)%nat with (S k + m)%nat by lia.
    destruct (lt (key b) (key y)) eqn:E.
    + apply IH; [done| |intros j z Hz Hj; apply (Hless (S j)); [done|lia]|done].
      by apply (Hless 0%nat).
    + apply IH; [done|done|intros j z Hz Hj; apply (Hless (S j)); [done|lia]|done].
Qed.

Lemma py_max_index_unique {A K : Type} (lt : K → K → bool) (key : A → K)
  (l : list A) i x :
  l !! i = Some x →
  (∀ j y, l !! j = Some y → j ≠ i → lt (key y) (key x) = true) →
  Forall (λ y, lt (key x) (key y) = false) l →
  py_max_index lt key l = Some i.
Proof.
  intros Hi Hless Hge. destruct l as [|b r]; [done|]. simpl. f_equal.
  apply Forall_cons in Hge as [_ Hge]. destruct i as [|m]; simpl in *.
  - injection Hi as ->. by apply max_index_from_stays.
  - apply (max_index_from_finds lt key 0%nat b 1%nat r m x); try done.
    + by apply (Hless 0%nat).
    + intros j y Hy Hj. apply (Hless (S j)); [done|lia].
Qed.

(** X7.  When [get_agent] has selected an instance at a clock reading later
    than every earlier use of the pool, the next [release_agent] for that
    type finds this very instance: its active connections are back to what
    they were when it was selected, and no other instance is touched. *)
Theorem acquire_then_release t now rt (s : LBS) i x s1 :
  get_agent_instance t now s = (Ok (i, x), s1) →
  (∀ y, y ∈ base_pool factory_get_agent t now s →
        f_lt (last_used y) now = true ∧ f_lt now (last_used y) = false) →
  f_lt now now = false →
  0 ≤ active_connections x →
  release_agent t rt s1 =
    (Ok tt,
     set_pool t
       (<[i := released f_add rt (touch now x)]>
          (base_pool factory_get_agent t now s)) s1) ∧
  active_connections (released f_add rt (touch now x)) = active_connections x.
Proof.
  intros Hget Hclock Hirr Hac.
  apply get_agent_instance_ok in Hget as (Hi & _ & Hp & _).
  set (base := base_pool factory_get_agent t now s) in *.
  split; [|simpl; lia].
  unfold Ops.release_agent. rewrite Hp, alookup_aset_eq.
  assert (alter (touch now) i base !! i = Some (touch now x)) as Hix
    by (by rewrite list_lookup_alter_eq, Hi).
  rewrite (py_max_index_unique f_lt last_used _ i (touch now x) Hix).
  - f_equal. f_equal. apply list_eq. intros j.
    rewrite list_lookup_alter, list_lookup_insert.
    case_decide; subst.
    + rewrite Hix. simpl. rewrite decide_True; [done|].
      split; [done|]. by eapply lookup_lt_Some.
    + rewrite decide_False by (by intros [? _]).
      by rewrite list_lookup_alter_ne.
  - intros j y Hy Hj. rewrite list_lookup_alter_ne in Hy by done. simpl.
    apply Hclock. by eapply list_elem_of_lookup_2.
  - apply Forall_lookup. intros j y Hy. simpl.
    rewrite list_lookup_alter in Hy. case_decide; subst.
    + rewrite Hi in Hy. by injection Hy as <-.
    + apply Hclock. by eapply list_elem_of_lookup_2.
Qed.

(** *** Adding and removing instances *)

(** X8.  [remove_agent_instance] never raises.  It answers [True] exactly
    when an instance of the pool carries the id, and then takes out the first
    such instance and nothing else; otherwise it answers [False] and the
    state is untouched. *)
Theorem remove_agent_instance_effect t id (s : LBS) :
  ((remove_agent_instance t id s).1 = Ok true ∨
   (remove_agent_instance t id s).1 = Ok false) ∧
  ((remove_agent_instance t id s).1 = Ok true ↔
   ∃ x, x ∈ pool_of t s ∧ agent_id x = id) ∧
  ((remove_agent_instance t id s).1 = Ok true →
   ∃ l1 x l2,
     pool_of t s = l1 ++ x :: l2 ∧ agent_id x = id ∧
     Forall (λ y, agent_id y ≠ id) l1 ∧
     (remove_agent_instance t id s).2 = set_pool t (l1 ++ l2) s) ∧
  ((remove_agent_instance t id s).1 = Ok false →
   (remove_agent_instance t id s).2 = s).
Proof.
  unfold remove_agent_instance, pool_of.
  destruct (alookup t (agent_pools s)) as [instances|] eqn:Hp; simpl.
  - destruct (remove_first_id id instances) as [instances'|] eqn:Hr; simpl.
    + apply remove_first_id_inv in Hr as (l1 & x & l2 & -> & Hx & Hl1 & ->).
      split_and!; try done; [auto| |by exists l1, x, l2].
      split; [|done]. intros _. exists x. split; [set_solver|done].
    + apply remove_first_id_None in Hr. split_and!; try done; [auto|].
      split; [done|]. intros (x & Hx & Hid).
      rewrite Forall_forall in Hr. by apply Hr in Hx.
  - split_and!; try done; [auto|]. split; [done|].
    intros (x & Hx & _). by apply elem_of_nil in Hx.
Qed.

Lemma set_pool_set_pool t p q (s : LBS) :
  set_pool t p (set_pool t q s) = set_pool t p s.
Proof. unfold set_pool; simpl. by rewrite aset_aset. Qed.

Lemma add_agent_instance_ok t w now a (s : LBS) :
  factory_get_agent t = Some a →
  add_agent_instance t w now s =
  (Ok (agent_id (new_instance t a now s)),
   set_pool t (pool_of t s ++ [with_weight w (new_instance t a now s)]) s).
Proof.
  intros Hf. unfold LB.add_agent_instance, LB._create_agent_instance, bind,
    modify, ret. rewrite Hf. simpl.
  rewrite pool_of_set_pool_eq, set_pool_set_pool. f_equal. f_equal.
  replace (length (pool_of t s)) with (length (pool_of t s) + 0)%nat by lia.
  by rewrite alter_app_r.
Qed.

Lemma add_agent_instance_raises t w now (s : LBS) :
  factory_get_agent t = None →
  add_agent_instance t w now s = (Raise AgentFactoryError, s).
Proof.
  intros Hf. unfold LB.add_agent_instance, LB._create_agent_instance, bind.
  by rewrite Hf.
Qed.

Lemma scale_up_ok t a now k (s : LBS) :
  factory_get_agent t = Some a →
  ∃ news s',
    repeatM k (bind (add_agent_instance t 1 now) (λ _, ret tt)) s
      = (Ok tt, s') ∧
    pool_of t s' = pool_of t s ++ news ∧ length news = k ∧
    Forall (λ x, weight x = 1 ∧ health_status x = "healthy" ∧
                 active_connections x = 0 ∧ total_requests x = 0 ∧
                 agent x = a ∧ agent_type x = t) news ∧
    (∀ t', t ≠ t' → alookup t' (agent_pools s') = alookup t' (agent_pools s)) ∧
    algorithm s' = algorithm s ∧ agent_weights s' = agent_weights s ∧
    round_robin_counters s' = round_robin_counters s.
Proof.
  intros Hf. revert s. induction k as [|k IH]; intros s.
  - exists [], s. rewrite app_nil_r. by split_and!.
  - set (x1 := with_weight 1 (new_instance t a now s)).
    destruct (IH (set_pool t (pool_of t s ++ [x1]) s))
      as (news & s' & Hrun & Hpool & Hlen & Hall & Hother & Ha & Hw & Hc).
    exists (x1 :: news), s'. split_and!; try done.
    + simpl. unfold bind at 1. unfold bind at 1.
      rewrite (add_agent_instance_ok t 1 now a s Hf). unfold ret at 1.
      exact Hrun.
    + rewrite Hpool, pool_of_set_pool_eq, <- app_assoc. done.
    + simpl. by f_equal.
    + constructor; [|done]. by repeat split.
    + intros t' Hne. rewrite Hother by done. simpl.
      by rewrite alookup_aset_ne.
Qed.

(** X9.  For a type the factory can create, [scale_up] with a count [n]
    appends exactly [n] fresh instances to the pool, healthy, idle and of
    weight 1 whatever weight is configured for the type, and changes nothing
    else; with a count of 0 or less it does nothing.  For a type the factory
    cannot create and a positive count it raises and the state is as
    before. *)
Theorem scale_up_effect t n now (s : LBS) :
  (∀ a, factory_get_agent t = Some a →
     ∃ news s',
       scale_up t n now s = (Ok tt, s') ∧
       pool_of t s' = pool_of t s ++ news ∧ length news = Z.to_nat n ∧
       Forall (λ x, weight x = 1 ∧ health_status x = "healthy" ∧
                    active_connections x = 0 ∧ total_requests x = 0 ∧
                    agent x = a ∧ agent_type x = t) news ∧
       (∀ t', t ≠ t' →
              alookup t' (agent_pools s') = alookup t' (agent_pools s)) ∧
       algorithm s' = algorithm s ∧ agent_weights s' = agent_weights s ∧
       round_robin_counters s' = round_robin_counters s) ∧
  (n ≤ 0 → scale_up t n now s = (Ok tt, s)) ∧
  (factory_get_agent t = None → 0 < n →
   scale_up t n now s = (Raise AgentFactoryError, s)).
Proof.
  split_and!.
  - intros a Hf. by apply scale_up_ok.
  - intros Hn. unfold LB.scale_up. by replace (Z.to_nat n) with 0%nat by lia.
  - intros Hf Hn. unfold LB.scale_up.
    destruct (Z.to_nat n) as [|k] eqn:Hk; [lia|]. simpl.
    unfold bind at 1. unfold bind at 1.
    by rewrite add_agent_instance_raises.
Qed.

(** [sorted(l, key)] is a rearrangement of [l] in which no element is
    followed by one with a smaller key. *)
Lemma insert_sorted_Permutation {A : Type} (key : A → Z) x (l : list A) :
  insert_sorted key x l ≡ₚ x :: l.
Proof.
  induction l as [|y l IH]; simpl; [done|].
  destruct (key x <=? key y); [done|]. rewrite IH. apply Permutation_swap.
Qed.

Lemma py_sorted_Permutation {A : Type} (key : A → Z) (l : list A) :
  py_sorted key l ≡ₚ l.
Proof.
  induction l as [|x l IH]; simpl; [done|].
  by rewrite insert_sorted_Permutation, IH.
Qed.

Lemma insert_sorted_sorted {A : Type} (key : A → Z) x (l : list A) :
  StronglySorted (λ a b, key a ≤ key b) l →
  StronglySorted (λ a b, key a ≤ key b) (insert_sorted key x l).
Proof.
  induction 1 as [|y l Hs IH Hy]; simpl.
  - repeat constructor.
  - destruct (key x <=? key y) eqn:E.
    + apply Z.leb_le in E. constructor; [by constructor|].
      constructor; [done|]. eapply Forall_impl; [exact Hy|]. simpl. lia.
    + apply Z.leb_gt in E. constructor; [done|].
      rewrite insert_sorted_Permutation. constructor; [lia|done].
Qed.

Lemma py_sorted_sorted {A : Type} (key : A → Z) (l : list A) :
  StronglySorted (λ a b, key a ≤ key b) (py_sorted key l).
Proof.
  induction l as [|x l IH]; simpl; [constructor|].
  by apply insert_sorted_sorted.
Qed.

Lemma sorted_take_drop {A : Type} (key : A → Z) (l : list A) k :
  StronglySorted (λ a b, key a ≤ key b) l →
  Forall (λ x, Forall (λ y, key x ≤ key y) (drop k l)) (take k l).
Proof.
  intros Hs. revert k. induction Hs as [|x l Hs IH Hx]; intros k.
  - by rewrite take_nil.
  - destruct k as [|k]; simpl; [constructor|].
    constructor; [|apply IH].
    by apply Forall_drop.
Qed.

Lemma aset_id {V : Type} k (v : V) l :
  alookup k l = Some v → aset k v l = l.
Proof.
  induction l as [|[k0 v0] l IH]; simpl; [done|].
  destruct (String.eqb k k0) eqn:E.
  - apply String.eqb_eq in E. by intros [= ->]; subst.
  - intros Hl. by rewrite IH.
Qed.

Lemma set_pool_id t (s : LBS) :
  is_Some (alookup t (agent_pools s)) → set_pool t (pool_of t s) s = s.
Proof.
  intros [p Hp]. unfold set_pool, pool_of. rewrite Hp. simpl.
  rewrite aset_id by done. by destruct s.
Qed.

Lemma remove_loop_exact t (sorted : list Inst) m :
  ∀ j (s : LBS),
    (j + m ≤ length sorted)%nat →
    is_Some (alookup t (agent_pools s)) →
    map agent_id (take m (drop j sorted)) ⊆+ map agent_id (pool_of t s) →
    ∃ p',
      forM (seq j m)
        (λ i, match sorted !! i with
              | Some x =>
                  bind (remove_agent_instance t (agent_id x)) (λ _, ret tt)
              | None => ret tt
              end) s = (Ok tt, set_pool t p' s) ∧
      map agent_id (pool_of t s) ≡ₚ
        map agent_id (take m (drop j sorted)) ++ map agent_id p' ∧
      sublist p' (pool_of t s).
Proof.
  induction m as [|m IH]; intros j s Hlen Hin Hsub.
  - exists (pool_of t s). simpl. rewrite set_pool_id by done. by split_and!.
  - destruct (sorted !! j) as [x|] eqn:Hx;
      [|apply lookup_ge_None in Hx; lia].
    rewrite (drop_S _ _ _ Hx) in Hsub |- *. simpl in Hsub |- *.
    apply submseteq_cons_l in Hsub as (k' & Hk' & Hsub).
    assert (agent_id x ∈ map agent_id (pool_of t s)) as Hmem
      by (rewrite Hk'; set_solver).
    destruct Hin as [pool Hpool].
    assert (pool_of t s = pool) as Hpo by (unfold pool_of; by rewrite Hpool).
    rewrite Hpo in *.
    destruct (remove_first_id (agent_id x) pool) as [p1|] eqn:Hr.
    2:{ apply remove_first_id_None in Hr. rewrite Forall_forall in Hr.
        apply list_elem_of_fmap in Hmem as (y & Hy & Hyin).
        by apply Hr in Hyin. }
    pose proof Hr as Hinv.
    apply remove_first_id_inv in Hinv as (l1 & y & l2 & -> & Hy & _ & ->).
    assert (map agent_id (l1 ++ y :: l2)
              ≡ₚ agent_id x :: map agent_id (l1 ++ l2)) as Hperm.
    { rewrite !map_app. simpl. rewrite Hy. by rewrite Permutation_middle. }
    destruct (IH (S j) (set_pool t (l1 ++ l2) s)) as (p' & Hrun & Hp' & Hs').
    + lia.
    + simpl. rewrite alookup_aset_eq. eauto.
    + rewrite pool_of_set_pool_eq.
      rewrite Hperm in Hk'. apply Permutation_cons_inv in Hk'.
      by rewrite Hk'.
    + rewrite pool_of_set_pool_eq in Hp', Hs'.
      rewrite set_pool_set_pool in Hrun.
      exists p'. split_and!.
      * unfold bind at 1. rewrite Hx. unfold bind at 1.
        unfold remove_agent_instance at 1. rewrite Hpool, Hr.
        unfold ret at 1. exact Hrun.
      * rewrite Hperm, Hp'. done.
      * etrans; [exact Hs'|]. apply sublist_app; [done|].
        by apply sublist_cons.
Qed.

(** X10.  [scale_down] never raises.  Asked to remove as many instances as
    the pool has, or more, or none, it changes nothing.  Asked to remove
    fewer, it removes exactly that many: what is left is the pool without
    [n] of its instances, still in order, and the ids removed are those of
    the [n] instances with the fewest active connections (ties in pool
    order). *)
Theorem scale_down_effect t n (s : LBS) :
  (n ≤ 0 ∨ Z.of_nat (length (pool_of t s)) ≤ n →
   scale_down t n s = (Ok tt, s)) ∧
  (0 < n < Z.of_nat (length (pool_of t s)) →
   ∃ p',
     scale_down t n s = (Ok tt, set_pool t p' s) ∧
     sublist p' (pool_of t s) ∧
     length p' = (length (pool_of t s) - Z.to_nat n)%nat ∧
     map agent_id (pool_of t s) ≡ₚ
       map agent_id
         (take (Z.to_nat n) (py_sorted active_connections (pool_of t s)))
       ++ map agent_id p' ∧
     py_sorted active_connections (pool_of t s) ≡ₚ pool_of t s ∧
     Forall (λ x, Forall (λ y, active_connections x ≤ active_connections y)
                    (drop (Z.to_nat n)
                       (py_sorted active_connections (pool_of t s))))
       (take (Z.to_nat n) (py_sorted active_connections (pool_of t s)))).
Proof.
  unfold scale_down, bind, get_state, pool_of.
  destruct (alookup t (agent_pools s)) as [pool|] eqn:Hp; simpl.
  2:{ split; [done|]. lia. }
  split.
  - intros [Hn|Hn].
    + destruct (_ <=? n); [done|]. by replace (Z.to_nat n) with 0%nat by lia.
    + apply Z.leb_le in Hn. by rewrite Hn.
  - intros [Hn1 Hn2].
    destruct (Z.of_nat (length pool) <=? n) eqn:E; [apply Z.leb_le in E; lia|].
    set (sorted := py_sorted active_connections pool).
    assert (length sorted = length pool) as Hlen
      by (unfold sorted; by rewrite py_sorted_Permutation).
    destruct (remove_loop_exact t sorted (Z.to_nat n) 0 s)
      as (p' & Hrun & Hperm & Hsub).
    + lia.
    + by rewrite Hp.
    + unfold pool_of. rewrite Hp. simpl. rewrite drop_0.
      etrans; [apply fmap_submseteq, submseteq_take|].
      unfold sorted. by rewrite py_sorted_Permutation.
    + unfold pool_of in Hperm, Hsub. rewrite Hp in Hperm, Hsub.
      simpl in Hperm, Hsub. rewrite drop_0 in Hperm.
      exists p'. split_and!; try done.
      * apply (f_equal length) in Hperm || apply Permutation_length in Hperm.
        rewrite length_app, !length_map, length_take in Hperm. lia.
      * apply py_sorted_Permutation.
      * apply sorted_take_drop, py_sorted_sorted.
Qed.

(** A property that holds of every instance listed in the dict holds of
    every pool a lookup returns. *)
Lemma pools_all_Forall (P : Inst → Prop) (s : LBS) :
  Forall (λ kv, Forall P kv.2) (agent_pools s) → pools_all P s.
Proof.
  intros Hall t p. induction Hall as [|[k v] l Hkv Hall IH]; simpl; [done|].
  destruct (String.eqb t k); [by intros [= <-]|done].
Qed.

(** *** Weights *)

Lemma healthy_from_map (f : Inst → Inst) k (pool : list Inst) :
  (∀ x, is_healthy (f x) = is_healthy x) →
  healthy_from k (map f pool) = map (λ p, (p.1, f p.2)) (healthy_from k pool).
Proof.
  intros Hf. revert k. induction pool as [|x pool IH]; intros k; simpl; [done|].
  rewrite Hf, IH. by destruct (is_healthy x).
Qed.

Lemma total_weight_uniform w (l : list (nat * Inst)) :
  total_weight (map (λ p, (p.1, with_weight w p.2)) l)
  = w * Z.of_nat (length l).
Proof.
  unfold total_weight. induction l as [|p l IH]; simpl; [lia|].
  rewrite IH. lia.
Qed.

(** X11.  [set_agent_weight] never raises.  It gives the weight to every
    instance of the type, whatever weight [add_agent_instance] gave them, and
    to every instance created for the type afterwards; nothing else changes.
    The candidates of [get_agent] then weigh the weight times their number in
    total. *)
Theorem set_agent_weight_effect t w (s : LBS) :
  ∃ s',
    set_agent_weight t w s = (Ok tt, s') ∧
    pool_of t s' = map (with_weight w) (pool_of t s) ∧
    Forall (λ x, weight x = w) (pool_of t s') ∧
    agent_weights s' !! t = Some w ∧
    algorithm s' = algorithm s ∧
    round_robin_counters s' = round_robin_counters s ∧
    (∀ t', t ≠ t' →
           alookup t' (agent_pools s') = alookup t' (agent_pools s) ∧
           agent_weights s' !! t' = agent_weights s !! t') ∧
    (∀ now a, factory_get_agent t = Some a →
              ∃ i x s'', _create_agent_instance t now s' = (Ok (i, x), s'') ∧
                         weight x = w) ∧
    total_weight (healthy_from 0 (pool_of t s')) =
      w * Z.of_nat (length (healthy_from 0 (pool_of t s))).
Proof.
  eexists. split; [reflexivity|]. simpl.
  assert (pool_of t
            {| algorithm := algorithm s;
               agent_pools :=
                 match alookup t (agent_pools s) with
                 | Some instances =>
                     aset t (map (with_weight w) instances) (agent_pools s)
                 | None => agent_pools s
                 end;
               round_robin_counters := round_robin_counters s;
               agent_weights := <[t:=w]> (agent_weights s) |}
          = map (with_weight w) (pool_of t s)) as Hp.
  { unfold pool_of. simpl.
    destruct (alookup t (agent_pools s)) as [p|] eqn:E; simpl.
    - by rewrite alookup_aset_eq.
    - by rewrite E. }
  rewrite Hp. split_and!; try done.
  - apply Forall_forall. intros y Hy.
    by apply list_elem_of_fmap in Hy as (x & -> & _).
  - by rewrite lookup_insert_eq.
  - intros t' Hne. split; [|by rewrite lookup_insert_ne].
    destruct (alookup t (agent_pools s)); [|done].
    by rewrite alookup_aset_ne.
  - intros now a Hf. unfold LB._create_agent_instance. rewrite Hf.
    eexists _, _, _. split; [reflexivity|]. simpl.
    by rewrite lookup_insert_eq.
  - rewrite healthy_from_map by done. apply total_weight_uniform.
Qed.

(** *** Health checks *)

Lemma health_check_healthy probe (x : Inst) :
  is_healthy (_health_check_instance probe x) = true →
  active_connections x ≤ max_connections_per_agent.
Proof.
  unfold _health_check_instance, is_healthy.
  destruct probe as [rt|]; [|done].
  destruct (f_lt _ _); simpl; destruct (_ <? active_connections x) eqn:E;
    simpl; try done.
  intros _. by apply Z.ltb_ge in E.
Qed.

Lemma health_check_connections probe (x : Inst) :
  active_connections (_health_check_instance probe x) = active_connections x.
Proof.
  unfold _health_check_instance. destruct probe as [rt|]; [|done].
  destruct (f_lt _ _); simpl; by destruct (_ <? _).
Qed.

(** X12.  [_health_check_instance] writes the health status and nothing
    else.  The status is "overloaded" exactly when the probe returns and the
    instance has more than 10 active connections (even when the probe was
    slow); "unhealthy" exactly when the probe raises, or is slower than 30
    seconds with at most 10 active connections; "healthy" exactly when the
    probe returns within 30 seconds with at most 10 active connections.  The
    previous status plays no part. *)
Theorem health_check_classifies probe (x : Inst) :
  (∃ h, _health_check_instance probe x = with_health h x) ∧
  (health_status (_health_check_instance probe x) = "overloaded" ↔
   probe ≠ None ∧ max_connections_per_agent < active_connections x) ∧
  (health_status (_health_check_instance probe x) = "unhealthy" ↔
   probe = None ∨
   (active_connections x ≤ max_connections_per_agent ∧
    ∃ rt, probe = Some rt ∧ f_lt max_response_time rt = true)) ∧
  (health_status (_health_check_instance probe x) = "healthy" ↔
   active_connections x ≤ max_connections_per_agent ∧
   ∃ rt, probe = Some rt ∧ f_lt max_response_time rt = false).
Proof.
  unfold _health_check_instance.
  destruct probe as [rt|]; simpl.
  2:{ split_and!; [by eexists| | |]; split; try done; auto.
      - by intros [? _].
      - by intros (_ & ? & ? & _). }
  destruct (f_lt max_response_time rt) eqn:Hrt; simpl;
    destruct (max_connections_per_agent <? active_connections x) eqn:E; simpl;
    (apply Z.ltb_lt in E || apply Z.ltb_ge in E);
    (split_and!; [by eexists| | |]); split; try done.
  all: try (intros [? ?]; lia).
  all: try (intros [?|(? & ?)]; [done|lia]).
  all: try (intros _; right; split; [done|]; by exists rt).
  all: try (intros [?|(_ & ? & [= <-] & ?)]; congruence).
  all: try (intros (_ & ? & [= <-] & ?); congruence).
  all: try (intros _; split; [done|]; by exists rt).
Qed.

(** X13.  A [get_agent] call that follows a health-check pass and returns
    has selected an instance marked "healthy" that had at most 10 active
    connections when selected. *)
Theorem health_pass_then_get_agent probe t now (s : LBS) i x s1 :
  get_agent_instance t now (health_check_pass probe s).2 = (Ok (i, x), s1) →
  health_status x = "healthy" ∧
  active_connections x ≤ max_connections_per_agent.
Proof.
  intros Hget. apply get_agent_instance_ok in Hget as (Hi & Hh & _).
  split; [by apply String.eqb_eq|].
  set (s' := (health_check_pass probe s).2) in *.
  assert (Forall (λ y, is_healthy y = true →
                       active_connections y ≤ max_connections_per_agent)
            (pool_of t s')) as Hpool.
  { unfold pool_of, s'. simpl.
    rewrite (alookup_map_values
               (λ k v, imap (λ i x, _health_check_instance (probe k i) x) v)).
    destruct (alookup t (agent_pools s)) as [p|]; simpl; [|done].
    apply Forall_lookup. intros j y Hy. rewrite list_lookup_imap in Hy.
    destruct (p !! j) as [z|]; [|done]. injection Hy as <-.
    intros Hz. apply health_check_healthy in Hz.
    by rewrite health_check_connections. }
  unfold base_pool in Hi.
  assert (x ∈ pool_of t s' ∨ active_connections x = 0) as [Hx|Hx].
  { destruct (healthy_from 0 (pool_of t s')), (factory_get_agent t);
      try (left; by eapply list_elem_of_lookup_2).
    apply lookup_app_Some in Hi as [Hi|[_ Hi]];
      [left; by eapply list_elem_of_lookup_2|right].
    apply list_lookup_singleton_Some in Hi as [_ <-]. done. }
  - rewrite Forall_forall in Hpool. by apply Hpool.
  - rewrite Hx. done.
Qed.

(** *** Instance ids *)

Lemma append_inj_r (t a b : string) : t +:+ a = t +:+ b → a = b.
Proof. induction t as [|c t IH]; simpl; [done|]. intros [= Heq]. auto. Qed.

Lemma to_uint_nonnil n : Nat.to_uint n ≠ Decimal.Nil.
Proof.
  pose proof (Unsigned.to_of (Nat.to_uint n)) as Hn.
  rewrite Unsigned.of_to in Hn. rewrite Hn. unfold Decimal.unorm.
  by destruct (Decimal.nzhead _).
Qed.

Lemma string_of_nat_inj n m : string_of_nat n = string_of_nat m → n = m.
Proof.
  unfold string_of_nat. intros Heq.
  apply (f_equal NilZero.uint_of_string) in Heq.
  rewrite !NilZero.usu in Heq by apply to_uint_nonnil.
  injection Heq as Heq. apply (f_equal Nat.of_uint) in Heq.
  by rewrite !Unsigned.of_to in Heq.
Qed.

Lemma instance_id_inj t n m : instance_id t n = instance_id t m → n = m.
Proof.
  unfold instance_id. intros Heq.
  by apply append_inj_r, append_inj_r, string_of_nat_inj in Heq.
Qed.

Lemma NoDup_instance_ids t k n : NoDup (map (instance_id t) (seq k n)).
Proof.
  apply NoDup_fmap_2; [|apply NoDup_seq].
  intros a b. apply instance_id_inj.
Qed.

Lemma numbered_eq (s s' : LBS) :
  agent_pools s' = agent_pools s → numbered s → numbered s'.
Proof.
  intros Heq Hs t. unfold pool_of. rewrite Heq. apply Hs.
Qed.

Lemma numbered_set_pool t p (s : LBS) :
  map agent_id p = map agent_id (pool_of t s) →
  numbered s → numbered (set_pool t p s).
Proof.
  intros Hp Hs t'. destruct (decide (t = t')) as [<-|Hne].
  - rewrite pool_of_set_pool_eq, Hp, Hs.
    apply (f_equal length) in Hp. rewrite !length_map in Hp. by rewrite Hp.
  - rewrite pool_of_set_pool_ne by done. apply Hs.
Qed.

Lemma map_agent_id_alter (f : Inst → Inst) i (l : list Inst) :
  (∀ x, agent_id (f x) = agent_id x) →
  map agent_id (alter f i l) = map agent_id l.
Proof.
  intros Hf. apply list_eq. intros j.
  rewrite !list_lookup_fmap, list_lookup_alter.
  case_decide; [|done]. subst. destruct (l !! _); simpl; [|done].
  by rewrite Hf.
Qed.

Lemma numbered_alter t (f : Inst → Inst) i (s : LBS) :
  (∀ x, agent_id (f x) = agent_id x) →
  numbered s → numbered (set_pool t (alter f i (pool_of t s)) s).
Proof. intros Hf. apply numbered_set_pool. by apply map_agent_id_alter. Qed.

Lemma create_numbered t now :
  triple numbered (_create_agent_instance t now) (λ _, numbered) numbered.
Proof.
  intros s Hs. unfold LB._create_agent_instance.
  destruct (factory_get_agent t) as [a|]; [|done].
  intros t'. destruct (decide (t = t')) as [<-|Hne].
  - rewrite pool_of_set_pool_eq, map_app, length_app, Hs. simpl.
    by rewrite Nat.add_1_r, seq_S, map_app.
  - rewrite pool_of_set_pool_ne by done. apply Hs.
Qed.

Lemma get_agent_numbered t now :
  triple numbered (get_agent t now) (λ _, numbered) numbered.
Proof.
  eapply (triple_bind _ _ _ (λ _, numbered));
    [|intros ?; by apply triple_ret].
  eapply triple_bind; [apply triple_get|]. intros s0.
  eapply (triple_bind _ _ _ (λ _, numbered)).
  { destruct (alookup t (agent_pools s0)) as [[|x p]|].
    - eapply triple_bind.
      + eapply triple_conseq; [| |apply create_numbered];
          [by intros s [_ ?]|done].
      + intros ?. by apply triple_ret.
    - apply triple_ret. by intros s [_ ?].
    - eapply triple_bind.
      + eapply triple_conseq; [| |apply create_numbered];
          [by intros s [_ ?]|done].
      + intros ?. by apply triple_ret. }
  intros ?. eapply triple_bind; [apply triple_get|]. intros s1.
  eapply (triple_bind _ _ _ (λ _, numbered)).
  { destruct (healthy_from 0 (pool_of t s1)).
    - eapply triple_bind.
      + eapply triple_conseq; [| |apply create_numbered];
          [by intros s [_ ?]|done].
      + intros ?. by apply triple_ret.
    - apply triple_ret. by intros s [_ ?]. }
  intros instances.
  eapply (triple_bind _ _ _ (λ _, numbered)).
  { intros s Hs. pose proof (select_instance_pools instances t s) as Heq.
    destruct (_select_instance instances t s) as [[sel|e] s']; simpl in Heq;
      by eapply numbered_eq. }
  intros selected.
  eapply (triple_bind _ _ _ (λ _, numbered));
    [|intros ?; by apply triple_ret].
  apply triple_modify. intros s Hs. by apply numbered_alter.
Qed.

Lemma add_numbered t w now :
  triple numbered (add_agent_instance t w now) (λ _, numbered) numbered.
Proof.
  eapply triple_bind; [apply create_numbered|]. intros created.
  eapply (triple_bind _ _ _ (λ _, numbered));
    [|intros ?; by apply triple_ret].
  apply triple_modify. intros s Hs. by apply numbered_alter.
Qed.

Lemma call_step_numbered (c : call) (s : LBS) :
  removes c = false → numbered s → numbered (call_step c s).
Proof.
  intros Hc Hs. destruct c; simpl; try done.
  - by apply (triple_final numbered); [apply get_agent_numbered|].
  - unfold Ops.release_agent.
    destruct (alookup t (agent_pools s)) as [instances|] eqn:Hp; [|done].
    destruct (py_max_index _ _ _) as [i|]; [|done]. simpl.
    assert (instances = pool_of t s) as ->
      by (unfold pool_of; by rewrite Hp).
    by apply numbered_alter.
  - by apply (triple_final numbered); [apply add_numbered|].
  - apply (triple_final numbered); [|done]. apply triple_repeatM.
    eapply triple_bind; [apply add_numbered|]. intros ?. by apply triple_ret.
  - destruct (alookup t (agent_pools s)) as [instances|] eqn:Hp;
      [|by eapply numbered_eq].
    assert (instances = pool_of t s) as ->
      by (unfold pool_of; by rewrite Hp).
    apply (numbered_eq (set_pool t (map (with_weight w) (pool_of t s)) s));
      [done|].
    apply numbered_set_pool; [|done].
    rewrite map_map. by apply map_ext.
  - intros t. unfold pool_of. simpl.
    rewrite (alookup_map_values
               (λ k v, imap (λ i x, _health_check_instance (probe k i) x) v)).
    specialize (Hs t). unfold pool_of in Hs.
    destruct (alookup t (agent_pools s)) as [p|]; simpl in *; [|done].
    rewrite length_imap, <- Hs. apply list_eq. intros j.
    rewrite !list_lookup_fmap, list_lookup_imap.
    destruct (p !! j) as [x|]; simpl; [|done]. f_equal.
    unfold _health_check_instance. destruct (probe t j); [|done].
    destruct (f_lt _ _); simpl; by destruct (_ <? _).
Qed.

(** X14.  Starting from pools whose ids are numbered in pool order, as the
    constructor leaves them, every sequence of calls that does not use
    [remove_agent_instance], [scale_down] or [auto_scale] keeps them
    numbered: within a pool no two instances share an id. *)
Theorem ids_distinct_without_removal (cs : list (call (float := float)))
    (s : LBS) :
  numbered s → Forall (λ c, removes c = false) cs →
  numbered (call_run cs s) ∧
  ∀ t, NoDup (map agent_id (pool_of t (call_run cs s))).
Proof.
  intros Hs Hcs.
  assert (numbered (call_run cs s)) as Hn.
  { revert s Hs. induction Hcs as [|c cs Hc Hcs IH]; intros s Hs; [done|].
    simpl. apply IH. by apply call_step_numbered. }
  split; [done|]. intros t. rewrite Hn. apply NoDup_instance_ids.
Qed.

(** X15.  Ids are reused after a removal.  In a pool of [n] instances
    numbered in pool order, removing any instance but the last and then
    adding one (for a type the factory can create) gives the new instance the
    id of the last one, ["<type>_<n-1>"]: the pool then holds two instances
    with that id. *)
Theorem id_reused_after_removal t k w now a (s : LBS) :
  factory_get_agent t = Some a →
  numbered s →
  (S k < length (pool_of t s))%nat →
  ∃ s1 s2,
    remove_agent_instance t (instance_id t k) s = (Ok true, s1) ∧
    add_agent_instance t w now s1 =
      (Ok (instance_id t (length (pool_of t s) - 1)), s2) ∧
    map agent_id (pool_of t s2) =
      map (instance_id t)
        (seq 0 k ++ seq (S k) (length (pool_of t s) - S k))
      ++ [instance_id t (length (pool_of t s) - 1)] ∧
    ¬ NoDup (map agent_id (pool_of t s2)).
Proof.
  intros Hf Hs Hk. specialize (Hs t).
  unfold pool_of in Hs, Hk |- *.
  destruct (alookup t (agent_pools s)) as [p|] eqn:Hp; simpl in *; [|lia].
  set (n := length p) in *.
  destruct (lookup_lt_is_Some_2 p k) as [x Hx]; [lia|].
  assert (∀ j y, p !! j = Some y → agent_id y = instance_id t j) as Hid.
  { intros j y Hy. apply (f_equal (λ l, l !! j)) in Hs.
    rewrite !list_lookup_fmap, Hy in Hs. simpl in Hs.
    rewrite lookup_seq_lt in Hs by (apply lookup_lt_Some in Hy; lia).
    simpl in Hs. by injection Hs. }
  assert (remove_first_id (instance_id t k) p
          = Some (take k p ++ drop (S k) p)) as Hr.
  { rewrite <- (take_drop_middle p k x Hx) at 1.
    apply remove_first_id_found; [|by apply Hid].
    apply Forall_lookup. intros j y Hy.
    assert (j < k)%nat
      by (apply lookup_lt_Some in Hy; rewrite length_take in Hy; lia).
    rewrite lookup_take_lt in Hy by done. rewrite (Hid _ _ Hy).
    intros Heq%instance_id_inj. lia. }
  set (p1 := take k p ++ drop (S k) p) in *.
  assert (length p1 = (n - 1)%nat) as Hlen.
  { unfold p1. rewrite length_app, length_take, length_drop. lia. }
  assert (map agent_id p1
          = map (instance_id t) (seq 0 k ++ seq (S k) (n - S k))) as Hids.
  { unfold p1. rewrite !map_app. f_equal.
    - rewrite <- firstn_map, Hs, firstn_map. f_equal.
      rewrite take_seq. f_equal. lia.
    - rewrite <- skipn_map, Hs, skipn_map. f_equal.
      by rewrite drop_seq. }
  exists (set_pool t p1 s),
    (set_pool t (p1 ++ [with_weight w (new_instance t a now (set_pool t p1 s))])
       s).
  assert (add_agent_instance t w now (set_pool t p1 s) =
          (Ok (instance_id t (n - 1)),
           set_pool t
             (p1 ++ [with_weight w (new_instance t a now (set_pool t p1 s))])
             s)) as Hadd.
  { rewrite (add_agent_instance_ok _ _ _ a) by done.
    rewrite pool_of_set_pool_eq, set_pool_set_pool. simpl.
    rewrite pool_of_set_pool_eq, Hlen. done. }
  split_and!.
  - unfold remove_agent_instance. by rewrite Hp, Hr.
  - exact Hadd.
  - change (default [] (alookup t (agent_pools ?s'))) with (pool_of t s').
    rewrite pool_of_set_pool_eq, map_app, Hids. simpl.
    by rewrite pool_of_set_pool_eq, Hlen.
  - change (default [] (alookup t (agent_pools ?s'))) with (pool_of t s').
    rewrite pool_of_set_pool_eq, map_app, Hids. simpl.
    rewrite pool_of_set_pool_eq, Hlen.
    intros Hnd. apply NoDup_app in Hnd as (_ & Hnd & _).
    apply (Hnd (instance_id t (n - 1))); [|by apply list_elem_of_singleton].
    apply list_elem_of_fmap. exists (n - 1)%nat. split; [done|].
    apply elem_of_app. right. apply elem_of_seq. lia.
Qed.

(** *** [get_stats] *)

Local Abbreviation type_stats := (Ops.type_stats f_add).
Local Abbreviation get_stats := (Ops.get_stats f_add).

Lemma fold_left_add {A : Type} (f : A → Z) (l : list A) a :
  fold_left (λ acc x, acc + f x) l a = a + sum_Z f l.
Proof.
  unfold sum_Z. revert a. induction l as [|x l IH]; intros a; simpl; [lia|].
  rewrite (IH (a + f x)), (IH (0 + f x)). lia.
Qed.

Lemma sum_Z_cons {A : Type} (f : A → Z) x (l : list A) :
  sum_Z f (x :: l) = f x + sum_Z f l.
Proof. unfold sum_Z at 1. simpl. by rewrite fold_left_add. Qed.

Lemma sum_Z_app {A : Type} (f : A → Z) (l1 l2 : list A) :
  sum_Z f (l1 ++ l2) = sum_Z f l1 + sum_Z f l2.
Proof.
  induction l1 as [|x l1 IH]; simpl; [done|].
  rewrite !sum_Z_cons, IH. lia.
Qed.

Lemma sum_Z_map {A B : Type} (g : A → B) (f : B → Z) (l : list A) :
  sum_Z f (map g l) = sum_Z (λ x, f (g x)) l.
Proof.
  induction l as [|x l IH]; simpl; [done|]. by rewrite !sum_Z_cons, IH.
Qed.

Lemma sum_Z_le {A : Type} (f g : A → Z) (l : list A) :
  Forall (λ x, f x ≤ g x) l → sum_Z f l ≤ sum_Z g l.
Proof.
  induction 1 as [|x l Hx Hl IH]; [done|]. rewrite !sum_Z_cons. lia.
Qed.

Lemma sum_Z_alter {A : Type} (f : A → Z) (g : A → A) i (l : list A) x :
  l !! i = Some x → sum_Z f (alter g i l) = sum_Z f l - f x + f (g x).
Proof.
  revert i. induction l as [|y l IH]; intros i Hi; [done|].
  destruct i as [|i].
  - injection Hi as ->. change (alter g 0%nat (x :: l)) with (g x :: l).
    rewrite !sum_Z_cons. lia.
  - change (alter g (S i) (y :: l)) with (y :: alter g i l).
    rewrite !sum_Z_cons, (IH i) by done. lia.
Qed.

Lemma length_filter_healthy k (p : list Inst) :
  length (List.filter is_healthy p) = length (healthy_from k p).
Proof.
  revert k. induction p as [|x p IH]; intros k; simpl; [done|].
  destruct (is_healthy x); simpl; by rewrite (IH (S k)).
Qed.

Lemma alookup_get_stats t (s : LBS) :
  alookup t (get_stats s) = type_stats <$> alookup t (agent_pools s).
Proof.
  unfold Ops.get_stats.
  apply (alookup_map_values (λ _ (v : list Inst), type_stats v)).
Qed.

(** X16.  [get_stats] reports the pools in the order of the dict.  For each
    type, the count of healthy instances is the number of candidates
    [get_agent] would select from and never exceeds the instance count; the
    totals are the sums of the per-instance figures reported beside them;
    and when every instance has
    [0 <= active_connections <= total_requests], so have the totals. *)
Theorem get_stats_summary t (s : LBS) :
  map fst (get_stats s) = map fst (agent_pools s) ∧
  alookup t (get_stats s) = type_stats <$> alookup t (agent_pools s) ∧
  ∀ st, alookup t (get_stats s) = Some st →
    instance_count st = length (pool_of t s) ∧
    healthy_instances st = length (healthy_from 0 (pool_of t s)) ∧
    (healthy_instances st ≤ instance_count st)%nat ∧
    length (ts_instances st) = instance_count st ∧
    ts_total_connections st = sum_Z is_active_connections (ts_instances st) ∧
    ts_total_requests st = sum_Z is_total_requests (ts_instances st) ∧
    (pools_all coherent s →
     0 ≤ ts_total_connections st ≤ ts_total_requests st).
Proof.
  split_and!.
  - unfold Ops.get_stats. rewrite map_map. by apply map_ext.
  - apply alookup_get_stats.
  - intros st. rewrite alookup_get_stats. unfold pool_of.
    destruct (alookup t (agent_pools s)) as [p|] eqn:Hp; [|done].
    intros [= <-]. simpl. split_and!.
    + done.
    + apply length_filter_healthy.
    + apply List.filter_length_le.
    + by rewrite length_map.
    + by rewrite sum_Z_map.
    + by rewrite sum_Z_map.
    + intros Hs. specialize (Hs _ _ Hp). split.
      * etrans; [|apply (sum_Z_le (λ _, 0))].
        -- clear. induction p as [|x p IH]; [done|]. rewrite sum_Z_cons. lia.
        -- eapply Forall_impl; [exact Hs|]. intros x [? ?]. done.
      * apply sum_Z_le. eapply Forall_impl; [exact Hs|]. by intros x [? ?].
Qed.

(** X17.  A [get_agent] call that returns adds exactly one to the total
    requests and one to the total connections [get_stats] reports for the
    type, and leaves the statistics of every other type as they were. *)
Theorem get_agent_counted t now (s : LBS) i x s1 :
  get_agent_instance t now s = (Ok (i, x), s1) →
  ∃ st1,
    alookup t (get_stats s1) = Some st1 ∧
    ts_total_requests st1 = sum_Z total_requests (pool_of t s) + 1 ∧
    ts_total_connections st1 = sum_Z active_connections (pool_of t s) + 1 ∧
    (length (pool_of t s) ≤ instance_count st1 ≤ S (length (pool_of t s)))%nat ∧
    ∀ t', t ≠ t' → alookup t' (get_stats s1) = alookup t' (get_stats s).
Proof.
  intros Hget. apply get_agent_instance_ok in Hget as (Hi & _ & Hp & _).
  set (base := base_pool factory_get_agent t now s) in *.
  assert (sum_Z total_requests base = sum_Z total_requests (pool_of t s) ∧
          sum_Z active_connections base
            = sum_Z active_connections (pool_of t s) ∧
          (length (pool_of t s) ≤ length base ≤ S (length (pool_of t s)))%nat)
    as (Hreq & Hcon & Hlen).
  { unfold base, base_pool.
    destruct (healthy_from 0 (pool_of t s)), (factory_get_agent t);
      rewrite ?sum_Z_app, ?sum_Z_cons, ?length_app;
      change (sum_Z ?f (@nil Inst)) with 0; simpl; lia. }
  exists (type_stats (alter (touch now) i base)).
  rewrite !alookup_get_stats, Hp, alookup_aset_eq. simpl. split_and!.
  - done.
  - rewrite (sum_Z_alter _ _ _ _ x) by done. simpl. lia.
  - rewrite (sum_Z_alter _ _ _ _ x) by done. simpl. lia.
  - rewrite length_alter. lia.
  - rewrite length_alter. lia.
  - intros t' Hne. rewrite !alookup_get_stats, Hp.
    by rewrite alookup_aset_ne.
Qed.

(** *** [auto_scale] *)

Lemma map_fst_aset {V : Type} k (v v' : V) l :
  alookup k l = Some v → map fst (aset k v' l) = map fst l.
Proof.
  induction l as [|[k0 v0] l IH]; simpl; [done|].
  destruct (String.eqb k k0) eqn:E.
  - apply String.eqb_eq in E. by subst.
  - intros Hl. simpl. by rewrite IH.
Qed.

Lemma pool_of_alookup t (s s' : LBS) :
  alookup t (agent_pools s') = alookup t (agent_pools s) →
  pool_of t s' = pool_of t s.
Proof. unfold pool_of. by intros ->. Qed.

Lemma pool_ne_lookup t (s : LBS) :
  pool_of t s ≠ [] → alookup t (agent_pools s) = Some (pool_of t s).
Proof. unfold pool_of. by destruct (alookup t (agent_pools s)). Qed.

Lemma scale_down_removes t n (s : LBS) :
  0 < n < Z.of_nat (length (pool_of t s)) →
  ∃ p', scale_down t n s = (Ok tt, set_pool t p' s) ∧
        length p' = (length (pool_of t s) - Z.to_nat n)%nat.
Proof.
  intros [Hn1 Hn2].
  assert (pool_of t s ≠ []) as Hne by (destruct (pool_of t s); simpl in *; [lia|done]).
  apply pool_ne_lookup in Hne.
  unfold scale_down, bind, get_state. rewrite Hne.
  destruct (_ <=? n) eqn:E; [apply Z.leb_le in E; lia|].
  set (sorted := py_sorted active_connections (pool_of t s)).
  assert (length sorted = length (pool_of t s)) as Hlen
    by (unfold sorted; by rewrite py_sorted_Permutation).
  destruct (remove_loop_exact t sorted (Z.to_nat n) 0 s)
    as (p' & Hrun & Hperm & Hsub).
  - lia.
  - by rewrite Hne.
  - rewrite drop_0. etrans; [apply fmap_submseteq, submseteq_take|].
    unfold sorted. by rewrite py_sorted_Permutation.
  - exists p'. split; [done|].
    apply Permutation_length in Hperm. rewrite drop_0 in Hperm.
    rewrite length_app, !length_map, length_take in Hperm. lia.
Qed.

Lemma auto_scale_pool_cases now t (s : LBS) :
  LB.auto_scale_pool factory_get_agent now t s =
  match pool_of t s with
  | [] => (Ok tt, s)
  | _ :: _ =>
      if load_high (pool_of t s)
      then if Z.of_nat (length (pool_of t s)) <? 5
           then scale_up t 1 now s else (Ok tt, s)
      else if load_low (pool_of t s) && (1 <? Z.of_nat (length (pool_of t s)))
           then scale_down t 1 s else (Ok tt, s)
  end.
Proof.
  unfold LB.auto_scale_pool, bind, get_state, load_high, load_low.
  destruct (pool_of t s) as [|x p]; [done|]. cbv zeta.
  repeat match goal with
         | |- context [if ?c then _ else _] => destruct c
         end; done.
Qed.

Lemma auto_scale_pool_spec now t (s : LBS) :
  ∃ o s',
    LB.auto_scale_pool factory_get_agent now t s = (o, s') ∧
    (o = Ok tt ∨ o = Raise AgentFactoryError) ∧
    map fst (agent_pools s') = map fst (agent_pools s) ∧
    (∀ t', t ≠ t' → alookup t' (agent_pools s') = alookup t' (agent_pools s)) ∧
    scaled_by_one (pool_of t s) (length (pool_of t s')) ∧
    (o = Ok tt → scaled_as_needed (pool_of t s) (length (pool_of t s'))).
Proof.
  assert (∀ s0 : LBS,
            pool_of t s0 = pool_of t s ∧
            map fst (agent_pools s0) = map fst (agent_pools s) ∧
            (∀ t', t ≠ t' →
                   alookup t' (agent_pools s0) = alookup t' (agent_pools s)) →
            scaled_as_needed (pool_of t s) (length (pool_of t s)) →
            ∃ o s',
              (Ok tt, s0) = (o, s') ∧
              (o = Ok tt ∨ o = Raise AgentFactoryError) ∧
              map fst (agent_pools s') = map fst (agent_pools s) ∧
              (∀ t', t ≠ t' →
                     alookup t' (agent_pools s') = alookup t' (agent_pools s)) ∧
              scaled_by_one (pool_of t s) (length (pool_of t s')) ∧
              (o = Ok tt →
               scaled_as_needed (pool_of t s) (length (pool_of t s'))))
    as Hsame.
  { intros s0 (Hp0 & Hk0 & Hf0) HB. exists (Ok tt), s0. rewrite Hp0.
    split_and!; [done|by left|done|done|by left|done]. }
  rewrite auto_scale_pool_cases.
  destruct (pool_of t s) as [|x p] eqn:Hp.
  { apply Hsame; [done|]. by intros ?. }
  rewrite <- Hp in Hsame |- *.
  assert (pool_of t s ≠ []) as Hne by (by rewrite Hp).
  pose proof (pool_ne_lookup _ _ Hne) as Hlook.
  destruct (load_high (pool_of t s)) eqn:Hhigh.
  - destruct (_ <? 5) eqn:E; [apply Z.ltb_lt in E|apply Z.ltb_ge in E].
    2:{ apply Hsame; [done|]. intros _. rewrite Hhigh. split; [lia|done]. }
    unfold LB.scale_up. simpl Z.to_nat. simpl repeatM.
    unfold bind at 1. unfold bind at 1.
    destruct (factory_get_agent t) as [a|] eqn:Hf.
    + rewrite (add_agent_instance_ok _ _ _ a) by done. unfold ret.
      eexists _, _. split; [reflexivity|].
      rewrite pool_of_set_pool_eq, length_app. simpl.
      split_and!.
      * by left.
      * by erewrite map_fst_aset.
      * intros t' Hne'. by rewrite alookup_aset_ne.
      * right. left. rewrite Hhigh. split_and!; [lia|done|lia].
      * intros _ _. rewrite Hhigh. split; [|done]. intros _ _. lia.
    + rewrite add_agent_instance_raises by done.
      eexists _, _. split; [reflexivity|].
      split_and!; [by right|done|done|by left|done].
  - destruct (load_low (pool_of t s)) eqn:Hlow; simpl.
    2:{ apply Hsame; [done|]. intros _. by rewrite Hhigh, Hlow. }
    destruct (1 <? _) eqn:E; [apply Z.ltb_lt in E|apply Z.ltb_ge in E].
    2:{ apply Hsame; [done|]. intros _. rewrite Hhigh, Hlow.
        split; [done|]. lia. }
    destruct (scale_down_removes t 1 s) as (p' & Hrun & Hlen); [lia|].
    rewrite Hrun. eexists _, _. split; [reflexivity|].
    rewrite pool_of_set_pool_eq.
    split_and!.
    + by left.
    + simpl. by erewrite map_fst_aset.
    + intros t' Hne'. simpl. by rewrite alookup_aset_ne.
    + right. right. rewrite Hhigh, Hlow. split_and!; [lia|done|done|lia].
    + intros _ _. rewrite Hhigh, Hlow. split; [done|]. intros _ _ _. lia.
Qed.

Lemma auto_scale_loop now (l : list string) :
  NoDup l →
  ∀ s : LBS,
  ∃ o s',
    forM l (LB.auto_scale_pool factory_get_agent now) s = (o, s') ∧
    (o = Ok tt ∨ o = Raise AgentFactoryError) ∧
    map fst (agent_pools s') = map fst (agent_pools s) ∧
    (∀ t, t ∉ l → alookup t (agent_pools s') = alookup t (agent_pools s)) ∧
    (∀ t, scaled_by_one (pool_of t s) (length (pool_of t s'))) ∧
    (o = Ok tt →
     ∀ t, t ∈ l → scaled_as_needed (pool_of t s) (length (pool_of t s'))).
Proof.
  induction 1 as [|t0 l Hnot Hnd IH]; intros s.
  { exists (Ok tt), s. split_and!; [done|by left|done|done| |].
    - intros t. by left.
    - intros _ t Ht. by apply elem_of_nil in Ht. }
  destruct (auto_scale_pool_spec now t0 s)
    as (o1 & s1 & Hrun1 & Ho1 & Hk1 & Hf1 & HA1 & HB1).
  simpl. unfold bind at 1. rewrite Hrun1.
  destruct Ho1 as [-> | ->].
  2:{ exists (Raise AgentFactoryError), s1.
      split_and!; [done|by right|done| | |done].
      - intros t Ht. apply Hf1. apply not_elem_of_cons in Ht as [? _].
        congruence.
      - intros t. destruct (decide (t0 = t)) as [<-|Hne]; [done|].
        left. rewrite (pool_of_alookup t s s1); [done|]. by apply Hf1. }
  destruct (IH s1) as (o & s' & Hrun & Ho & Hk & Hf & HA & HB).
  exists o, s'. split_and!; [done|done|congruence| | |].
  - intros t Ht. apply not_elem_of_cons in Ht as [Hne Ht].
    rewrite Hf by done. apply Hf1. congruence.
  - intros t. destruct (decide (t0 = t)) as [<-|Hne].
    + rewrite (pool_of_alookup t0 s1 s'); [done|]. by apply Hf.
    + rewrite <- (pool_of_alookup t s s1); [apply HA|]. by apply Hf1.
  - intros Ho' t Ht. destruct (decide (t0 = t)) as [<-|Hne].
    + rewrite (pool_of_alookup t0 s1 s'); [by apply HB1|]. by apply Hf.
    + rewrite <- (pool_of_alookup t s s1); [|by apply Hf1].
      apply HB; [done|]. apply elem_of_cons in Ht as [->|Ht]; done.
Qed.

(** X18.  [auto_scale] changes the size of every pool by at most one, and
    creates or deletes no pool.  A pool grows only when its average load is
    above 70% of 10 connections and it has fewer than 5 instances, and
    shrinks only when its average load is below 30% and it has more than one
    instance.  The only exception it can raise is the factory's; when it
    returns, every pool that met one of the two conditions has been
    resized. *)
Theorem auto_scale_effect now (s : LBS) :
  NoDup (map fst (agent_pools s)) →
  ∃ o s',
    auto_scale now s = (o, s') ∧
    (o = Ok tt ∨ o = Raise AgentFactoryError) ∧
    map fst (agent_pools s') = map fst (agent_pools s) ∧
    (∀ t, scaled_by_one (pool_of t s) (length (pool_of t s'))) ∧
    (o = Ok tt →
     ∀ t, scaled_as_needed (pool_of t s) (length (pool_of t s'))).
Proof.
  intros Hnd.
  destruct (auto_scale_loop now _ Hnd s) as (o & s' & Hrun & Ho & Hk & _ & HA & HB).
  exists o, s'. split_and!; [done|done|done|done|].
  intros Hok t Hne.
  apply (HB Hok); [|done].
  apply pool_ne_lookup in Hne. clear -Hne.
  induction (agent_pools s) as [|[k v] l IH]; simpl in Hne |- *; [done|].
  destruct (String.eqb t k) eqn:E.
  - apply String.eqb_eq in E. subst. apply list_elem_of_here.
  - apply list_elem_of_further. by apply IH.
Qed.

(** *** The constructor *)

Lemma new_LoadBalancer_numbered alg now :
  numbered (LB.new_LoadBalancer factory_get_agent alg now).2.
Proof.
  unfold LB.new_LoadBalancer, LB._initialize_agent_pools.
  apply (triple_final numbered); [|done].
  apply triple_forM. intros t. apply triple_repeatM.
  eapply triple_bind; [apply create_numbered|]. intros ?. by apply triple_ret.
Qed.

(** X19.  With a factory that can create the three worker types, the
    constructor returns with three pools in this order: two consultants of
    weight 3, one auditor and one tax agent of weight 2, with ids numbered
    from 0.  Every instance is healthy, created at the clock reading, with no
    request served; the algorithm is the one passed and every cursor is
    unset. *)
Theorem constructor_state alg now a1 a2 a3 :
  factory_get_agent "Dabby Consultant" = Some a1 →
  factory_get_agent "Auditor Agent" = Some a2 →
  factory_get_agent "Tax Agent" = Some a3 →
  ∃ s : LBS,
    LB.new_LoadBalancer factory_get_agent alg now = (Ok tt, s) ∧
    map (λ kv, (kv.1, map (λ x, (agent_id x, weight x, agent x)) kv.2))
      (agent_pools s) =
      [("Dabby Consultant",
        [("Dabby Consultant_0", 3, a1); ("Dabby Consultant_1", 3, a1)]);
       ("Auditor Agent", [("Auditor Agent_0", 2, a2)]);
       ("Tax Agent", [("Tax Agent_0", 2, a3)])] ∧
    algorithm s = alg ∧ round_robin_counters s = ∅ ∧
    numbered s ∧
    pools_all (λ x, health_status x = "healthy" ∧ active_connections x = 0 ∧
                    total_requests x = 0 ∧ created_at x = now) s.
Proof.
  intros H1 H2 H3.
  pose proof (new_LoadBalancer_numbered alg now) as Hnum. revert Hnum.
  unfold LB.new_LoadBalancer, LB._initialize_agent_pools. simpl forM.
  unfold bind, ret, LB._create_agent_instance.
  rewrite H1, H2, H3. cbv beta iota zeta. intros Hnum.
  eexists. split; [reflexivity|]. split_and!.
  - vm_compute. reflexivity.
  - reflexivity.
  - reflexivity.
  - exact Hnum.
  - apply pools_all_Forall. vm_compute.
    repeat (constructor; [repeat (constructor; [done|]); constructor|]).
    constructor.
Qed.

(** *** Response time *)

Lemma min_from_minimal {A K : Type} (lt : K → K → bool) (key : A → K)
    (l : list A) :
  (∀ a, lt a a = false) →
  (∀ a b c, lt a b = true → lt b c = true → lt a c = true) →
  ∀ best seen,
    best ∈ seen →
    Forall (λ y, lt (key y) (key best) = false) seen →
    min_from lt key best l ∈ seen ++ l ∧
    Forall (λ y, lt (key y) (key (min_from lt key best l)) = false)
      (seen ++ l).
Proof.
  intros Hirr Htrans. induction l as [|x l IH]; intros best seen Hin Hseen.
  - simpl. rewrite app_nil_r. by split.
  - simpl. replace (seen ++ x :: l) with ((seen ++ [x]) ++ l)
      by (by rewrite <- app_assoc).
    destruct (lt (key x) (key best)) eqn:E; apply IH.
    + apply elem_of_app. right. by apply list_elem_of_singleton.
    + apply Forall_app. split; [|by constructor].
      eapply Forall_impl; [exact Hseen|]. intros y Hy. simpl in Hy.
      destruct (lt (key y) (key x)) eqn:Hyx; [|done].
      by rewrite (Htrans _ _ _ Hyx E) in Hy.
    + apply elem_of_app. by left.
    + apply Forall_app. split; [done|]. by constructor.
Qed.

(** X26.  Under RESPONSE_TIME, on a pool with a healthy instance, and with a
    comparison of floats that is irreflexive and transitive, [get_agent]
    returns and selects a healthy instance such that no healthy instance has
    a strictly smaller average response time; an instance that has served
    no request counts as 0. *)
Theorem response_time_selects_minimum t now (s : LBS) :
  (∀ a, f_lt a a = false) →
  (∀ a b c, f_lt a b = true → f_lt b c = true → f_lt a c = true) →
  algorithm s = RESPONSE_TIME →
  healthy_from 0 (pool_of t s) ≠ [] →
  ∃ i x s1,
    get_agent_instance t now s = (Ok (i, x), s1) ∧
    (i, x) ∈ healthy_from 0 (pool_of t s) ∧
    Forall (λ p, f_lt (avg_response_time p.2) (avg_response_time x) = false)
      (healthy_from 0 (pool_of t s)) ∧
    (total_requests x = 0 → avg_response_time x = f_of_Z 0).
Proof.
  intros Hirr Htrans Ha Hne. rewrite get_agent_instance_healthy by done.
  unfold _select_instance. rewrite Ha. unfold _response_time_select.
  destruct (healthy_from 0 (pool_of t s)) as [|b l] eqn:Hl; [done|].
  simpl py_min. unfold ret, LB.finish.
  destruct (min_from_minimal f_lt (λ p : nat * Inst, avg_response_time p.2) l
              Hirr Htrans b [b]) as (Hin & Hmin).
  { by apply list_elem_of_singleton. }
  { constructor; [apply Hirr|constructor]. }
  set (r := min_from f_lt (λ p : nat * Inst, avg_response_time p.2) b l) in *.
  exists r.1, r.2, (set_pool t (alter (touch now) r.1 (pool_of t s)) s).
  split_and!.
  - unfold py_min. fold r. simpl. by rewrite <- surjective_pairing.
  - rewrite <- surjective_pairing. exact Hin.
  - exact Hmin.
  - intros H0. unfold avg_response_time. by rewrite H0.
Qed.

End LoadBalancerMore.

(** ** The added facts on concrete pools *)

Lemma metrics_coherent_witness :
  Ops.pools_all Ops.coherent (Run.fresh_balancer LB.ROUND_ROBIN) ∧
  Ops.pools_all Ops.coherent
    (Ops.call_run Qplus Run.fac
       [Ops.CallGetAgent "Tax Agent" 1%Q; Ops.CallRelease "Tax Agent" 2%Q;
        Ops.CallRelease "Tax Agent" 2%Q; Ops.CallScaleDown "Tax Agent" 1]
       (Run.fresh_balancer LB.ROUND_ROBIN)).
Proof.
  assert (Ops.pools_all Ops.coherent (Run.fresh_balancer LB.ROUND_ROBIN)) as Hs.
  { apply pools_all_Forall. unfold Ops.coherent.
    repeat (constructor; [repeat (constructor; [simpl; lia|]); constructor|]).
    constructor. }
  split; [exact Hs|].
  exact (metrics_coherent Qplus Run.fac _ _ Hs).
Defined.

Lemma health_status_known_witness :
  Ops.pools_all Ops.known_health Run.one_unhealthy ∧
  Ops.pools_all Ops.known_health
    (Ops.call_run Qplus Run.fac
       [Ops.CallGetAgent "Dabby Consultant" 1%Q;
        Ops.CallHealthPass (λ _ _, Some 31%Q)]
       Run.one_unhealthy).
Proof.
  assert (Ops.pools_all Ops.known_health Run.one_unhealthy) as Hs.
  { apply pools_all_Forall. unfold Ops.known_health.
    repeat (constructor;
            [repeat (constructor; [simpl; auto|]); constructor|]).
    constructor. }
  split; [exact Hs|].
  exact (health_status_known Qplus Run.fac _ _ Hs).
Defined.

Lemma least_connections_first_minimum_witness :
  LB.algorithm (Run.fresh_balancer LB.LEAST_CONNECTIONS) = LB.LEAST_CONNECTIONS ∧
  ∃ i x s1 l1 l2,
    LB.get_agent_instance Run.fac "Dabby Consultant" 1%Q
      (Run.fresh_balancer LB.LEAST_CONNECTIONS) = (Ok (i, x), s1) ∧
    LB.healthy_from 0
      (LB.pool_of "Dabby Consultant" (Run.fresh_balancer LB.LEAST_CONNECTIONS))
    = l1 ++ (i, x) :: l2 ∧
    Forall (λ p, LB.active_connections x < LB.active_connections p.2) l1 ∧
    Forall (λ p, LB.active_connections x ≤ LB.active_connections p.2) l2.
Proof.
  split; [reflexivity|].
  apply (least_connections_first_minimum Run.fac "Dabby Consultant" 1%Q
           (Run.fresh_balancer LB.LEAST_CONNECTIONS)).
  - reflexivity.
  - vm_compute. discriminate.
Defined.

Lemma least_connections_balanced_witness :
  Ops.balanced
    (LB.healthy_from 0
       (LB.pool_of "Dabby Consultant"
          (Run.fresh_balancer LB.LEAST_CONNECTIONS))) ∧
  ∃ sels s',
    LB.acquire_n Run.fac 5 "Dabby Consultant" 1%Q
      (Run.fresh_balancer LB.LEAST_CONNECTIONS) = (Ok sels, s') ∧
    length sels = 5%nat ∧
    Ops.balanced (LB.healthy_from 0 (LB.pool_of "Dabby Consultant" s')).
Proof.
  assert (Ops.balanced
            (LB.healthy_from 0
               (LB.pool_of "Dabby Consultant"
                  (Run.fresh_balancer LB.LEAST_CONNECTIONS)))) as Hb.
  { exists 0. repeat (constructor; [simpl; lia|]). constructor. }
  split; [exact Hb|].
  apply (least_connections_balanced Qplus Run.fac "Dabby Consultant" 1%Q 5
           (Run.fresh_balancer LB.LEAST_CONNECTIONS)).
  - reflexivity.
  - vm_compute. discriminate.
  - exact Hb.
Defined.

Lemma acquire_then_release_witness :
  ∃ i x s1,
    LB.get_agent_instance Run.fac "Tax Agent" 5%Q
      (Run.fresh_balancer LB.ROUND_ROBIN) = (Ok (i, x), s1) ∧
    Ops.release_agent Qplus "Tax Agent" 2%Q s1 =
      (Ok tt,
       LB.set_pool "Tax Agent"
         (<[i := Ops.released Qplus 2%Q (LB.touch 5%Q x)]>
            (Ops.base_pool Run.fac "Tax Agent" 5%Q
               (Run.fresh_balancer LB.ROUND_ROBIN))) s1) ∧
    LB.active_connections (Ops.released Qplus 2%Q (LB.touch 5%Q x))
    = LB.active_connections x.
Proof.
  destruct (LB.get_agent_instance Run.fac "Tax Agent" 5%Q
              (Run.fresh_balancer LB.ROUND_ROBIN)) as [[[i x]|e] s1] eqn:Hget;
    [|vm_compute in Hget; discriminate].
  exists i, x, s1. split; [reflexivity|].
  apply (acquire_then_release Qplus Run.fac "Tax Agent" 5%Q 2%Q
           (Run.fresh_balancer LB.ROUND_ROBIN) i x s1 Hget).
  - apply Forall_forall. vm_compute.
    repeat (constructor; [split; reflexivity|]). constructor.
  - reflexivity.
  - vm_compute in Hget. injection Hget as _ <- _. simpl. lia.
Defined.

Lemma health_pass_then_get_agent_witness :
  ∃ i x s1,
    LB.get_agent_instance Run.fac "Tax Agent" 1%Q
      (LB.health_check_pass (λ _ _, Some 0%Q)
         (LB.acquire_n Run.fac 11 "Tax Agent" 0%Q
            (Run.fresh_balancer LB.ROUND_ROBIN)).2).2 = (Ok (i, x), s1) ∧
    LB.health_status x = "healthy" ∧
    LB.active_connections x ≤ LB.max_connections_per_agent.
Proof.
  destruct (LB.get_agent_instance Run.fac "Tax Agent" 1%Q
              (LB.health_check_pass (λ _ _, Some 0%Q)
                 (LB.acquire_n Run.fac 11 "Tax Agent" 0%Q
                    (Run.fresh_balancer LB.ROUND_ROBIN)).2).2)
    as [[[i x]|e] s1] eqn:Hget; [|vm_compute in Hget; discriminate].
  exists i, x, s1. split; [reflexivity|].
  exact (health_pass_then_get_agent Run.fac _ _ _ _ _ _ _ Hget).
Defined.

Lemma ids_distinct_without_removal_witness :
  Ops.numbered (Run.fresh_balancer LB.ROUND_ROBIN) ∧
  Forall (λ c, Ops.removes c = false)
    [Ops.CallScaleUp "Tax Agent" 2 1%Q; Ops.CallGetAgent "Ghost" 2%Q;
     Ops.CallSetWeight "Tax Agent" 5; Ops.CallRelease "Tax Agent" 1%Q] ∧
  Ops.numbered
    (Ops.call_run Qplus Run.fac
       [Ops.CallScaleUp "Tax Agent" 2 1%Q; Ops.CallGetAgent "Ghost" 2%Q;
        Ops.CallSetWeight "Tax Agent" 5; Ops.CallRelease "Tax Agent" 1%Q]
       (Run.fresh_balancer LB.ROUND_ROBIN)) ∧
  ∀ t, NoDup (map LB.agent_id
                (LB.pool_of t
                   (Ops.call_run Qplus Run.fac
                      [Ops.CallScaleUp "Tax Agent" 2 1%Q;
                       Ops.CallGetAgent "Ghost" 2%Q;
                       Ops.CallSetWeight "Tax Agent" 5;
                       Ops.CallRelease "Tax Agent" 1%Q]
                      (Run.fresh_balancer LB.ROUND_ROBIN)))).
Proof.
  assert (Ops.numbered (Run.fresh_balancer LB.ROUND_ROBIN)) as Hs
    by apply new_LoadBalancer_numbered.
  assert (Forall (λ c : Ops.call (float := Q), Ops.removes c = false)
            [Ops.CallScaleUp "Tax Agent" 2 1%Q; Ops.CallGetAgent "Ghost" 2%Q;
             Ops.CallSetWeight "Tax Agent" 5; Ops.CallRelease "Tax Agent" 1%Q])
    as Hcs by (repeat constructor).
  split; [exact Hs|]. split; [exact Hcs|].
  exact (ids_distinct_without_removal Qplus Run.fac _ _ Hs Hcs).
Defined.

Lemma id_reused_after_removal_witness :
  Run.fac "Dabby Consultant" = Some "agent:Dabby Consultant" ∧
  (1 < length (LB.pool_of "Dabby Consultant"
                 (Run.fresh_balancer LB.ROUND_ROBIN)))%nat ∧
  ∃ s1 s2,
    LB.remove_agent_instance "Dabby Consultant"
      (Ops.instance_id "Dabby Consultant" 0)
      (Run.fresh_balancer LB.ROUND_ROBIN) = (Ok true, s1) ∧
    LB.add_agent_instance Run.fac "Dabby Consultant" 1 1%Q s1 =
      (Ok (Ops.instance_id "Dabby Consultant"
             (length (LB.pool_of "Dabby Consultant"
                        (Run.fresh_balancer LB.ROUND_ROBIN)) - 1)), s2) ∧
    map LB.agent_id (LB.pool_of "Dabby Consultant" s2) =
      map (Ops.instance_id "Dabby Consultant")
        (seq 0 0 ++
         seq 1 (length (LB.pool_of "Dabby Consultant"
                          (Run.fresh_balancer LB.ROUND_ROBIN)) - 1))
      ++ [Ops.instance_id "Dabby Consultant"
            (length (LB.pool_of "Dabby Consultant"
                       (Run.fresh_balancer LB.ROUND_ROBIN)) - 1)] ∧
    ¬ NoDup (map LB.agent_id (LB.pool_of "Dabby Consultant" s2)).
Proof.
  split; [reflexivity|]. split; [vm_compute; lia|].
  apply (id_reused_after_removal Run.fac "Dabby Consultant" 0 1 1%Q
           "agent:Dabby Consultant" (Run.fresh_balancer LB.ROUND_ROBIN)).
  - reflexivity.
  - apply new_LoadBalancer_numbered.
  - vm_compute. lia.
Defined.

Lemma get_agent_counted_witness :
  ∃ i x s1 st1,
    LB.get_agent_instance Run.fac "Tax Agent" 5%Q Run.one_unhealthy
      = (Ok (i, x), s1) ∧
    alookup "Tax Agent" (Ops.get_stats Qplus s1) = Some st1 ∧
    Ops.ts_total_requests st1 =
      Ops.sum_Z LB.total_requests (LB.pool_of "Tax Agent" Run.one_unhealthy)
      + 1 ∧
    Ops.ts_total_connections st1 =
      Ops.sum_Z LB.active_connections
        (LB.pool_of "Tax Agent" Run.one_unhealthy) + 1.
Proof.
  destruct (LB.get_agent_instance Run.fac "Tax Agent" 5%Q Run.one_unhealthy)
    as [[[i x]|e] s1] eqn:Hget; [|vm_compute in Hget; discriminate].
  destruct (get_agent_counted Qplus Run.fac "Tax Agent" 5%Q Run.one_unhealthy
              i x s1 Hget) as (st1 & Hst & Hreq & Hcon & _).
  exists i, x, s1, st1. split; [reflexivity|]. by split_and!.
Defined.

Lemma auto_scale_effect_witness :
  NoDup (map fst (LB.agent_pools
                    (LB.acquire_n Run.fac 8 "Tax Agent" 0%Q
                       (Run.fresh_balancer LB.ROUND_ROBIN)).2)) ∧
  ∃ o s',
    LB.auto_scale Run.fac 1%Q
      (LB.acquire_n Run.fac 8 "Tax Agent" 0%Q
         (Run.fresh_balancer LB.ROUND_ROBIN)).2 = (o, s') ∧
    (∀ t, Ops.scaled_by_one
            (LB.pool_of t
               (LB.acquire_n Run.fac 8 "Tax Agent" 0%Q
                  (Run.fresh_balancer LB.ROUND_ROBIN)).2)
            (length (LB.pool_of t s'))).
Proof.
  assert (NoDup (map fst (LB.agent_pools
                            (LB.acquire_n Run.fac 8 "Tax Agent" 0%Q
                               (Run.fresh_balancer LB.ROUND_ROBIN)).2)))
    as Hnd.
  { apply (bool_decide_unpack _). vm_compute. exact I. }
  split; [exact Hnd|].
  destruct (auto_scale_effect Run.fac 1%Q _ Hnd)
    as (o & s' & Hrun & _ & _ & HA & _).
  exists o, s'. split; [exact Hrun|exact HA].
Defined.

Lemma constructor_state_witness :
  Run.fac "Dabby Consultant" = Some "agent:Dabby Consultant" ∧
  ∃ s,
    LB.new_LoadBalancer Run.fac LB.RESPONSE_TIME 7%Q = (Ok tt, s) ∧
    LB.algorithm s = LB.RESPONSE_TIME ∧ Ops.numbered s.
Proof.
  split; [reflexivity|].
  destruct (constructor_state Run.fac LB.RESPONSE_TIME 7%Q
              "agent:Dabby Consultant" "agent:Auditor Agent" "agent:Tax Agent")
    as (s & Hnew & _ & Ha & _ & Hn & _); [reflexivity..|].
  by exists s.
Defined.

(** The comparison of the exact floats is a strict order. *)
Lemma exact_lt_irrefl (a : Q) : f_lt a a = false.
Proof.
  simpl. apply negb_false_iff. apply Qle_bool_iff. apply Qle_refl.
Qed.

Lemma exact_lt_trans (a b c : Q) :
  f_lt a b = true → f_lt b c = true → f_lt a c = true.
Proof.
  simpl. rewrite !negb_true_iff. intros Hab Hbc.
  destruct (Qle_bool c a) eqn:Hca; [|done].
  apply Qle_bool_iff in Hca.
  assert (¬ (b <= a)%Q) as Hab' by (rewrite <- Qle_bool_iff; congruence).
  assert (¬ (c <= b)%Q) as Hbc' by (rewrite <- Qle_bool_iff; congruence).
  apply Qnot_le_lt in Hab', Hbc'.
  exfalso. apply (Qlt_irrefl a).
  eapply Qlt_le_trans; [exact Hab'|].
  eapply Qle_trans; [apply Qlt_le_weak; exact Hbc'|exact Hca].
Qed.

Lemma response_time_selects_minimum_witness :
  LB.algorithm (Run.fresh_balancer LB.RESPONSE_TIME) = LB.RESPONSE_TIME ∧
  ∃ i x s1,
    LB.get_agent_instance Run.fac "Dabby Consultant" 1%Q
      (Run.fresh_balancer LB.RESPONSE_TIME) = (Ok (i, x), s1) ∧
    Forall (λ p, f_lt (LB.avg_response_time p.2) (LB.avg_response_time x)
                 = false)
      (LB.healthy_from 0
         (LB.pool_of "Dabby Consultant"
            (Run.fresh_balancer LB.RESPONSE_TIME))).
Proof.
  split; [reflexivity|].
  destruct (response_time_selects_minimum Run.fac "Dabby Consultant" 1%Q
              (Run.fresh_balancer LB.RESPONSE_TIME)
              exact_lt_irrefl exact_lt_trans)
    as (i & x & s1 & Hget & _ & Hmin & _).
  - reflexivity.
  - vm_compute. discriminate.
  - by exists i, x, s1.
Defined.

(** * More about the scheduler *)

Section SchedulerMore.

Context {Agent : Type}.
Variable fromisoformat : string → option Z.
Variable isoformat : Z → string.
Variable year_str : Z → string.

Import Sched Records.

Local Abbreviation W := (World Agent).
Local Abbreviation schedule_task := (Sched.schedule_task fromisoformat isoformat).
Local Abbreviation _execute_task := (Sched._execute_task isoformat year_str).
Local Abbreviation fire_job := (Sched.fire_job isoformat year_str).
Local Abbreviation cancel_task := (Sched.cancel_task isoformat).
Local Abbreviation reschedule_task :=
  (Sched.reschedule_task fromisoformat isoformat).
Local Abbreviation step :=
  (Sched.step (Agent := Agent) fromisoformat isoformat year_str).
Local Abbreviation reachable :=
  (Sched.reachable (Agent := Agent) fromisoformat isoformat year_str).

(** *** What each operation does to the records and the timers *)

Lemma _execute_task_jobs (w : W) id (s : TaskScheduler) :
  jobs (_execute_task w id s) = jobs s.
Proof.
  unfold Sched._execute_task. destruct (tasks s !! id) as [ti|]; [|done].
  by destruct (run_handler _ _ _) as [[r|e] k].
Qed.

Lemma _execute_task_other (w : W) id id' (s : TaskScheduler) :
  id ≠ id' → tasks (_execute_task w id s) !! id' = tasks s !! id'.
Proof.
  intros Hne. unfold Sched._execute_task.
  destruct (tasks s !! id) as [ti|]; [|done].
  destruct (run_handler _ _ _) as [[r|e] k]; simpl;
    by rewrite lookup_insert_ne.
Qed.

Lemma fire_job_other (w : W) id id' (s : TaskScheduler) :
  id ≠ id' → tasks (fire_job w id s) !! id' = tasks s !! id'.
Proof.
  intros Hne. unfold Sched.fire_job. destruct (jobs s !! id); [|done].
  by rewrite _execute_task_other.
Qed.

Lemma fire_job_jobs (w : W) id (s : TaskScheduler) :
  jobs (fire_job w id s) !! id = None.
Proof.
  unfold Sched.fire_job. destruct (jobs s !! id) eqn:Hj; [|done].
  rewrite _execute_task_jobs. simpl. apply lookup_delete_eq.
Qed.

Lemma cancel_task_no_job (w : W) id (s : TaskScheduler) :
  jobs s !! id = None → cancel_task w id s = (false, s).
Proof.
  intros Hj. unfold Sched.cancel_task.
  destruct (tasks s !! id) as [ti|]; [|done].
  destruct (status ti); try done. by rewrite Hj.
Qed.

Lemma reschedule_task_no_job (w : W) id str (s : TaskScheduler) :
  jobs s !! id = None → reschedule_task w id str s = (false, s).
Proof.
  intros Hj. unfold Sched.reschedule_task.
  destruct (tasks s !! id) as [ti|]; [|done].
  destruct (status ti); try done.
  destruct (fromisoformat _); [|done]. by rewrite Hj.
Qed.

(** X20.  In every state the scheduler reaches, each record is stored under
    its own [task_id] and its optional keys agree with its status: none for a
    scheduled job; a result and both time stamps of the run for a completed
    one; an error for a failed one, with [started_at] and [failed_at] either
    both present or both absent; [cancelled_at] and no trace of a run for a
    cancelled one.  No record is left [running]. *)
Theorem records_well_formed (s : TaskScheduler) :
  reachable s → well_formed s.
Proof.
  induction 1 as [|o s Hr IH Hf]; [by intros id ti|].
  pose proof (reachable_consistent _ _ _ s Hr) as [Hj _ _].
  intros id' ti'. destruct o as [w tt0 sid at0 st ps|w id|w id|w id str];
    simpl in Hf |- *.
  - unfold Sched.schedule_task.
    destruct (if truthy st then _ else _) as [d k].
    destruct (add_job_error w) as [e|]; simpl;
      (destruct (decide (uuid4 w = id')) as [<-|Hne];
       [rewrite lookup_insert_eq; intros [= <-]; by split_and!; eauto
       |rewrite lookup_insert_ne by done; apply IH]).
  - unfold Sched.fire_job. destruct (jobs s !! id) as [j|] eqn:Hjob; [|apply IH].
    destruct (Hj id) as (ti & Hti & Hst); [by rewrite Hjob|].
    destruct (IH _ _ Hti) as (Hid & Hset). unfold settled in Hset.
    rewrite Hst in Hset. destruct Hset as (He & Hres & Hsa & Hca & Hfa & Hcn).
    unfold Sched._execute_task. simpl. rewrite Hti.
    destruct (run_handler _ _ _) as [[r|e] k]; simpl;
      (destruct (decide (id = id')) as [<-|Hne];
       [rewrite lookup_insert_eq; intros [= <-]; unfold settled; simpl;
        split_and!; eauto; done
       |rewrite lookup_insert_ne by done; apply IH]).
  - unfold Sched.cancel_task. destruct (tasks s !! id) as [ti|] eqn:Hti; [|apply IH].
    destruct (IH _ _ Hti) as (Hid & Hset). unfold settled in Hset.
    destruct (status ti) eqn:Hst; try apply IH.
    destruct Hset as (He & Hres & Hsa & Hca & Hfa & Hcn).
    destruct (jobs s !! id); [|apply IH]. simpl.
    destruct (decide (id = id')) as [<-|Hne];
      [rewrite lookup_insert_eq; intros [= <-]; unfold settled; simpl;
       split_and!; eauto
      |rewrite lookup_insert_ne by done; apply IH].
  - unfold Sched.reschedule_task.
    destruct (tasks s !! id) as [ti|] eqn:Hti; [|apply IH].
    destruct (IH _ _ Hti) as (Hid & Hset). unfold settled in Hset.
    destruct (status ti) eqn:Hst; try apply IH.
    destruct (fromisoformat _); [|apply IH].
    destruct (jobs s !! id); [|apply IH].
    destruct (add_job_error w); [apply IH|]. simpl.
    destruct (decide (id = id')) as [<-|Hne];
      [rewrite lookup_insert_eq; intros [= <-]; by split
      |rewrite lookup_insert_ne by done; apply IH].
Qed.

(** X21.  Once a job has left [scheduled], no operation changes its record:
    in a reachable state, a record whose status is not [scheduled] is the
    same after any further [schedule_task], timer firing, [cancel_task] or
    [reschedule_task], on whatever id. *)
Theorem settled_record_frozen (s : TaskScheduler) id ti o :
  reachable s → fresh o s →
  tasks s !! id = Some ti → status ti ≠ scheduled →
  tasks (step o s) !! id = Some ti.
Proof.
  intros Hr Hf Hti Hst.
  pose proof (reachable_consistent _ _ _ s Hr) as [Hj _ _].
  assert (jobs s !! id = None) as Hnojob.
  { destruct (jobs s !! id) as [j|] eqn:Hjob; [|done].
    destruct (Hj id) as (ti' & Hti' & Hst'); [by rewrite Hjob|]. congruence. }
  destruct o as [w tt0 sid at0 st ps|w id0|w id0|w id0 str]; simpl in Hf |- *.
  - unfold Sched.schedule_task.
    destruct (if truthy st then _ else _) as [d k].
    assert (uuid4 w ≠ id) by congruence.
    destruct (add_job_error w); simpl; by rewrite lookup_insert_ne.
  - destruct (decide (id0 = id)) as [->|Hne].
    + unfold Sched.fire_job. by rewrite Hnojob.
    + by rewrite fire_job_other.
  - destruct (decide (id0 = id)) as [->|Hne].
    + by rewrite cancel_task_no_job.
    + unfold Sched.cancel_task. destruct (tasks s !! id0) as [ti0|]; [|done].
      destruct (status ti0); try done. destruct (jobs s !! id0); [|done].
      simpl. by rewrite lookup_insert_ne.
  - destruct (decide (id0 = id)) as [->|Hne].
    + by rewrite reschedule_task_no_job.
    + unfold Sched.reschedule_task.
      destruct (tasks s !! id0) as [ti0|]; [|done].
      destruct (status ti0); try done. destruct (fromisoformat _); [|done].
      destruct (jobs s !! id0); [|done].
      destruct (add_job_error w); [done|]. simpl. by rewrite lookup_insert_ne.
Qed.


(** X23.  A job fires at most once: firing a timer a second time changes
    nothing, and after a timer has fired [cancel_task] and [reschedule_task]
    answer [False] for that id and change nothing, whatever the job's
    status. *)
Theorem fired_once (w w' : W) id (s : TaskScheduler) :
  fire_job w id (fire_job w' id s) = fire_job w' id s ∧
  cancel_task w id (fire_job w' id s) = (false, fire_job w' id s) ∧
  ∀ str, reschedule_task w id str (fire_job w' id s)
         = (false, fire_job w' id s).
Proof.
  pose proof (fire_job_jobs w' id s) as Hj. split_and!.
  - unfold Sched.fire_job at 1. by rewrite Hj.
  - by apply cancel_task_no_job.
  - intros str. by apply reschedule_task_no_job.
Qed.

(** X24.  Scheduling a job and cancelling it gives the timers back: after a
    [schedule_task] whose timer was registered, in a reachable state and
    with a fresh id, [cancel_task] answers [True], the job is [cancelled],
    the pending timers are those from before the job was scheduled, and a
    second [cancel_task], a [reschedule_task] or a late timer for that id
    change nothing. *)
Theorem schedule_then_cancel (w w1 w2 : W) tt0 sid at0 st ps
    (s : TaskScheduler) :
  reachable s → tasks s !! uuid4 w = None → add_job_error w = None →
  ∃ s2,
    cancel_task w1 (uuid4 w) (schedule_task w tt0 sid at0 st ps s).2
      = (true, s2) ∧
    jobs s2 = jobs s ∧
    status <$> tasks s2 !! uuid4 w = Some cancelled ∧
    cancelled_at <$> tasks s2 !! uuid4 w = Some (Some (isoformat (now w1 0))) ∧
    cancel_task w2 (uuid4 w) s2 = (false, s2) ∧
    fire_job w2 (uuid4 w) s2 = s2 ∧
    ∀ str, reschedule_task w2 (uuid4 w) str s2 = (false, s2).
Proof.
  intros Hr Hfresh Hadd.
  pose proof (reachable_consistent _ _ _ s Hr) as [Hj _ _].
  assert (jobs s !! uuid4 w = None) as Hnojob.
  { destruct (jobs s !! uuid4 w) as [j|] eqn:Hjob; [|done].
    destruct (Hj (uuid4 w)) as (ti' & Hti' & _); [by rewrite Hjob|].
    congruence. }
  unfold Sched.schedule_task.
  destruct (if truthy st then _ else _) as [d k]. rewrite Hadd. simpl.
  unfold Sched.cancel_task at 1. simpl. rewrite !lookup_insert_eq. simpl.
  eexists. split; [reflexivity|]. simpl.
  assert (delete (uuid4 w)
            (<[uuid4 w := {| run_date := d;
                             name := tt0 +:+ "_" +:+ at0 +:+ "_" +:+ sid |}]>
               (jobs s)) = jobs s) as Hdel
    by (by rewrite delete_insert_eq, delete_id).
  rewrite Hdel. split_and!.
  - done.
  - by rewrite lookup_insert_eq.
  - by rewrite lookup_insert_eq.
  - by apply cancel_task_no_job.
  - unfold Sched.fire_job. simpl. by rewrite Hnojob.
  - intros str. by apply reschedule_task_no_job.
Qed.

(** X25.  Rescheduling a job that was just scheduled succeeds when the new
    time parses and the timer engine accepts the timer.  The record keeps its
    status, its creation time and every other key; [scheduled_for] becomes
    the new time and [rescheduled_at] the clock reading.  The timer is
    replaced by one at the new time whose name is ["Task_<id>"], not the
    name ["<type>_<agent>_<session>"] given by [schedule_task]. *)
Theorem schedule_then_reschedule (w w1 : W) tt0 sid at0 st ps str d
    (s : TaskScheduler) :
  add_job_error w = None → add_job_error w1 = None →
  fromisoformat (replace_Z str) = Some d →
  ∃ ti s2 ti2,
    tasks (schedule_task w tt0 sid at0 st ps s).2 !! uuid4 w = Some ti ∧
    name <$> jobs (schedule_task w tt0 sid at0 st ps s).2 !! uuid4 w
      = Some (tt0 +:+ "_" +:+ at0 +:+ "_" +:+ sid) ∧
    reschedule_task w1 (uuid4 w) str (schedule_task w tt0 sid at0 st ps s).2
      = (true, s2) ∧
    tasks s2 !! uuid4 w = Some ti2 ∧
    jobs s2 !! uuid4 w = Some (mkJob d ("Task_" +:+ uuid4 w)) ∧
    status ti2 = scheduled ∧
    scheduled_for ti2 = isoformat d ∧
    rescheduled_at ti2 = Some (isoformat (now w1 0)) ∧
    created_at ti2 = created_at ti ∧ parameters ti2 = parameters ti ∧
    task_type ti2 = tt0 ∧ session_id ti2 = sid ∧ agent_type ti2 = at0 ∧
    history s2 = history (schedule_task w tt0 sid at0 st ps s).2 ∧
    (∀ id', uuid4 w ≠ id' →
            tasks s2 !! id' = tasks s !! id' ∧ jobs s2 !! id' = jobs s !! id').
Proof.
  intros Hadd Hadd1 Hparse.
  unfold Sched.schedule_task.
  destruct (if truthy st then _ else _) as [d0 k]. rewrite Hadd. simpl.
  unfold Sched.reschedule_task. simpl.
  rewrite !lookup_insert_eq. simpl. rewrite Hparse, Hadd1.
  eexists _, _, _. split; [reflexivity|]. split; [reflexivity|].
  split; [reflexivity|]. simpl. rewrite !lookup_insert_eq.
  split_and!; try done.
  intros id' Hne.
  by rewrite !lookup_insert_ne, ?lookup_delete_ne, ?lookup_insert_ne.
Qed.

End SchedulerMore.

(** ** The added facts on concrete runs of the scheduler *)

Lemma reachable_cancelled_job :
  Sched.reachable (Agent := string) Run.parse Run.iso Run.year
    Run.cancelled_job.
Proof.
  apply (Sched.reachable_step Run.parse Run.iso Run.year
           (Sched.OpCancel (Run.calm "job-2") "job-1") Run.one_job);
    [|exact I].
  apply (Sched.reachable_step Run.parse Run.iso Run.year
           (Sched.OpSchedule (Run.calm "job-1") "consultation" "session"
              "Tax Agent" None None) Sched.init).
  - apply Sched.reachable_init.
  - vm_compute. reflexivity.
Qed.

Lemma records_well_formed_witness :
  Sched.reachable (Agent := string) Run.parse Run.iso Run.year
    Run.cancelled_job ∧
  Records.well_formed Run.cancelled_job.
Proof.
  split; [exact reachable_cancelled_job|].
  exact (records_well_formed Run.parse Run.iso Run.year Run.cancelled_job
           reachable_cancelled_job).
Defined.

Lemma settled_record_frozen_witness :
  ∃ ti,
    Sched.tasks Run.cancelled_job !! "job-1" = Some ti ∧
    Sched.status ti ≠ Sched.scheduled ∧
    Sched.tasks
      (Run.sched_step (Sched.OpFire (Run.calm "job-2") "job-1")
         Run.cancelled_job) !! "job-1" = Some ti.
Proof.
  destruct (Sched.tasks Run.cancelled_job !! "job-1") as [ti|] eqn:Hti;
    [|vm_compute in Hti; discriminate].
  assert (Sched.status ti ≠ Sched.scheduled) as Hst.
  { vm_compute in Hti. injection Hti as <-. discriminate. }
  exists ti. split; [reflexivity|]. split; [exact Hst|].
  exact (settled_record_frozen Run.parse Run.iso Run.year Run.cancelled_job
           "job-1" ti (Sched.OpFire (Run.calm "job-2") "job-1")
           reachable_cancelled_job I Hti Hst).
Defined.


Lemma schedule_then_cancel_witness :
  Sched.tasks Run.one_job !! Sched.uuid4 (Run.calm "job-2") = None ∧
  ∃ s2,
    Sched.cancel_task Run.iso (Run.calm "job-3") "job-2"
      (Sched.schedule_task Run.parse Run.iso (Run.calm "job-2") "audit_report"
         "session" "Auditor Agent" None None Run.one_job).2 = (true, s2) ∧
    Sched.jobs s2 = Sched.jobs Run.one_job.
Proof.
  split; [vm_compute; reflexivity|].
  destruct (schedule_then_cancel Run.parse Run.iso Run.year
              (Run.calm "job-2") (Run.calm "job-3") (Run.calm "job-4")
              "audit_report" "session" "Auditor Agent" None None Run.one_job)
    as (s2 & Hc & Hj & _).
  - apply (Sched.reachable_step Run.parse Run.iso Run.year
             (Sched.OpSchedule (Run.calm "job-1") "consultation" "session"
                "Tax Agent" None None) Sched.init).
    + apply Sched.reachable_init.
    + vm_compute. reflexivity.
  - vm_compute. reflexivity.
  - reflexivity.
  - exists s2. split; [exact Hc|exact Hj].
Defined.

Lemma schedule_then_reschedule_witness :
  Run.parse (replace_Z "2030-01-01T00:00:00Z") = Some 1893456000000000 ∧
  ∃ s2,
    Sched.reschedule_task Run.parse Run.iso (Run.calm "job-3") "job-2"
      "2030-01-01T00:00:00Z"
      (Sched.schedule_task Run.parse Run.iso (Run.calm "job-2") "audit_report"
         "session" "Auditor Agent" None None Run.one_job).2 = (true, s2) ∧
    Sched.jobs s2 !! "job-2"
      = Some (Sched.mkJob 1893456000000000 "Task_job-2").
Proof.
  split; [vm_compute; reflexivity|].
  destruct (schedule_then_reschedule Run.parse Run.iso
              (Run.calm "job-2") (Run.calm "job-3")
              "audit_report" "session" "Auditor Agent" None None
              "2030-01-01T00:00:00Z" 1893456000000000 Run.one_job)
    as (ti & s2 & ti2 & _ & _ & Hr & _ & Hj & _).
  - reflexivity.
  - reflexivity.
  - vm_compute. reflexivity.
  - exists s2. split; [exact Hr|exact Hj].
Defined.
